(** * GitSync: a shallow embedding of the synchronization engine

    The development follows the TypeScript sources
    - [src/types.ts]        (settings, results, tree items),
    - [src/github-api.ts]   (class [GitHubAPI]),
    - [src/sync-service.ts] (class [SyncService]),
    - [main.ts]             (class [GitSyncPlugin], its callbacks).

    JavaScript strings are sequences of UTF-16 code units; they are
    modelled as lists of [N].  Host calls (HTTP requests, vault accesses,
    notices, the clock) are the events of a small free monad, in which the
    asynchronous methods of the two classes are written. *)

From Stdlib Require Import String Ascii.
From Stdlib Require Import NArith ZArith Lia List Bool.
From Stdlib Require Strings.Byte.
Import ListNotations.

Ltac Zify.zify_post_hook ::= Z.to_euclidean_division_equations.


(* ================================================================ *)
(** * JavaScript strings *)
(* ================================================================ *)

Module JS.

(** A string is the list of its code units. *)
Definition jsstring := list N.

(** Literals are written as Rocq strings. *)
Definition js (s : string) : jsstring :=
  map N_of_ascii (list_ascii_of_string s).

Fixpoint eqb (a b : jsstring) : bool :=
  match a, b with
  | [], [] => true
  | x :: a', y :: b' => N.eqb x y && eqb a' b'
  | _, _ => false
  end.

(** [s.startsWith(p)] *)
Fixpoint startsWith (s p : jsstring) {struct p} : bool :=
  match p, s with
  | [], _ => true
  | y :: p', x :: s' => N.eqb x y && startsWith s' p'
  | _ :: _, [] => false
  end.

(** [s.endsWith(p)]: the last [p.length] code units of [s] are [p]. *)
Definition endsWith (s p : jsstring) : bool :=
  (length p <=? length s)%nat && eqb (skipn (length s - length p) s) p.

(** [s.slice(start, end)] with the negative indices of JavaScript. *)
Definition clamp_index (len i : Z) : Z :=
  if (i <? 0)%Z then Z.max (len + i) 0 else Z.min i len.

Definition slice (s : jsstring) (start end_ : Z) : jsstring :=
  let len := Z.of_nat (length s) in
  let from := clamp_index len start in
  let to := clamp_index len end_ in
  firstn (Z.to_nat (to - from)) (skipn (Z.to_nat from) s).

(** [s.indexOf(p)], returned as the text before and after the first match. *)
Fixpoint find_first (p s : jsstring) : option (jsstring * jsstring) :=
  if startsWith s p then Some ([], skipn (length p) s)
  else match s with
       | [] => None
       | c :: s' =>
           match find_first p s' with
           | Some (pre, post) => Some (c :: pre, post)
           | None => None
           end
       end.

Definition includes (s p : jsstring) : bool :=
  match find_first p s with Some _ => true | None => false end.

(** The replacement text of [String.prototype.replace] with a string
    pattern (GetSubstitution without captures): [$$] is a dollar sign,
    [$&] the match, [$`] the text before it and [$'] the text after it;
    any other dollar sign stands for itself. *)
Fixpoint substitution (matched pre post r : jsstring) : jsstring :=
  match r with
  | 36 :: 36 :: r' => 36 :: substitution matched pre post r'
  | 36 :: 38 :: r' => matched ++ substitution matched pre post r'
  | 36 :: 96 :: r' => pre ++ substitution matched pre post r'
  | 36 :: 39 :: r' => post ++ substitution matched pre post r'
  | c :: r' => c :: substitution matched pre post r'
  | [] => []
  end%N.

(** [s.replace(p, r)] for a string pattern: only the first match. *)
Definition replace (s p r : jsstring) : jsstring :=
  match find_first p s with
  | Some (pre, post) => pre ++ substitution p pre post r ++ post
  | None => s
  end.

(** [s.split(sep)[0]] for a one-unit separator. *)
Fixpoint split_first (sep : N) (s : jsstring) : jsstring :=
  match s with
  | [] => []
  | c :: s' => if N.eqb c sep then [] else c :: split_first sep s'
  end.

(** [s.lastIndexOf(c)] and [s.substring(0, i)], as used by [ensureFolder]:
    the text before the last [c], empty when there is none. *)
Fixpoint before_last (c : N) (s : jsstring) : jsstring :=
  match s with
  | [] => []
  | x :: s' =>
      if existsb (N.eqb c) s' then x :: before_last c s'
      else []
  end.

(** [s.toLowerCase()] on the ASCII letters. *)
Definition lower_unit (c : N) : N :=
  if ((65 <=? c) && (c <=? 90))%N then (c + 32)%N else c.
Definition toLowerCase (s : jsstring) : jsstring := map lower_unit s.

(** Decimal digits of a number, [String(n)]. *)
Fixpoint digits_fuel (fuel : nat) (n : N) (acc : jsstring) : jsstring :=
  match fuel with
  | O => acc
  | S f =>
      let acc' := (48 + n mod 10)%N :: acc in
      if (n <? 10)%N then acc' else digits_fuel f (n / 10)%N acc'
  end.
Definition of_N (n : N) : jsstring := digits_fuel (S (N.to_nat (N.log2 n))) n [].
Definition of_nat (n : nat) : jsstring := of_N (N.of_nat n).

(** [String(n).padStart(w, '0')] *)
Definition pad_digits (w : nat) (n : N) : jsstring :=
  let d := of_N n in repeat 48%N (w - length d) ++ d.

End JS.
Export JS.

(* ================================================================ *)
(** * Platform functions: base64, UTF-8, URI components, dates *)
(* ================================================================ *)

Module Base64.

(** The base64 alphabet: [A-Z], [a-z], [0-9], [+], [/]. *)
Definition char_of_sextet (n : N) : N :=
  (if n <? 26 then 65 + n
   else if n <? 52 then 97 + (n - 26)
   else if n <? 62 then 48 + (n - 52)
   else if n =? 62 then 43 else 47)%N.

Definition sextet_of_char (c : N) : option N :=
  (if (65 <=? c) && (c <=? 90) then Some (c - 65)
   else if (97 <=? c) && (c <=? 122) then Some (c - 97 + 26)
   else if (48 <=? c) && (c <=? 57) then Some (c - 48 + 52)
   else if c =? 43 then Some 62
   else if c =? 47 then Some 63
   else None)%N.

(** Three octets give four sextets; a last group of one or two octets
    gives two or three. *)
Fixpoint sextets (l : list N) : list N :=
  match l with
  | a :: b :: c :: rest =>
      (a / 4 :: (a mod 4) * 16 + b / 16 :: (b mod 16) * 4 + c / 64
         :: c mod 64 :: sextets rest)%N
  | [a; b] => [a / 4; (a mod 4) * 16 + b / 16; (b mod 16) * 4]%N
  | [a] => [a / 4; (a mod 4) * 16]%N
  | [] => []
  end.

Definition padding (len : nat) : jsstring :=
  match (len mod 3)%nat with
  | 1%nat => [61; 61]%N
  | 2%nat => [61]%N
  | _ => []
  end.

(** [btoa(s)]: fails (InvalidCharacterError) on a code unit above 255. *)
Definition btoa (s : jsstring) : option jsstring :=
  if forallb (fun c => c <=? 255)%N s
  then Some (map char_of_sextet (sextets s) ++ padding (length s))
  else None.

Definition is_ascii_whitespace (c : N) : bool :=
  ((c =? 9) || (c =? 10) || (c =? 12) || (c =? 13) || (c =? 32))%N.

(** Removal of one or two trailing [=] when the length is a multiple of 4. *)
Definition strip_padding (l : jsstring) : jsstring :=
  if (length l mod 4 =? 0)%nat then
    match rev l with
    | 61 :: 61 :: r => rev r
    | 61 :: r => rev r
    | _ => l
    end%N
  else l.

Fixpoint sextets_of_chars (l : jsstring) : option (list N) :=
  match l with
  | [] => Some []
  | c :: l' =>
      match sextet_of_char c, sextets_of_chars l' with
      | Some x, Some xs => Some (x :: xs)
      | _, _ => None
      end
  end.

(** Four sextets give three octets; the bits left over by a last group of
    two or three sextets are dropped. *)
Fixpoint octets (l : list N) : list N :=
  match l with
  | a :: b :: c :: d :: rest =>
      (a * 4 + b / 16 :: (b mod 16) * 16 + c / 4 :: (c mod 4) * 64 + d
         :: octets rest)%N
  | [a; b; c] => [a * 4 + b / 16; (b mod 16) * 16 + c / 4]%N
  | [a; b] => [a * 4 + b / 16]%N
  | _ => []
  end.

(** [atob(s)], the forgiving base64 decoding: fails
    (InvalidCharacterError) on a length of 1 modulo 4 and on a code unit
    outside the alphabet. *)
Definition atob (s : jsstring) : option jsstring :=
  let data := strip_padding (filter (fun c => negb (is_ascii_whitespace c)) s) in
  if (length data mod 4 =? 1)%nat then None
  else match sextets_of_chars data with
       | Some xs => Some (octets xs)
       | None => None
       end.

(** Code units that are octets, and sextets. *)
Definition octet (c : N) : Prop := (c < 256)%N.
Definition sextet (c : N) : Prop := (c < 64)%N.

End Base64.

Module UTF8.

Definition byte := Byte.byte.

(** Storing a number in a [Uint8Array] keeps it modulo 256. *)
Definition u8 (n : N) : byte :=
  match Byte.of_N (n mod 256) with
  | Some b => b
  | None => Byte.x00
  end.

Definition is_high_surrogate (c : N) : bool := ((55296 <=? c) && (c <=? 56319))%N.
Definition is_low_surrogate (c : N) : bool := ((56320 <=? c) && (c <=? 57343))%N.

(** The UTF-8 bytes of one code point. *)
Definition encode_code_point (cp : N) : list N :=
  (if cp <? 128 then [cp]
   else if cp <? 2048 then [192 + cp / 64; 128 + cp mod 64]
   else if cp <? 65536 then
     [224 + cp / 4096; 128 + (cp / 64) mod 64; 128 + cp mod 64]
   else
     [240 + cp / 262144; 128 + (cp / 4096) mod 64;
      128 + (cp / 64) mod 64; 128 + cp mod 64])%N.

(** [new TextEncoder().encode(s)]: a surrogate pair is one code point, a
    lone surrogate is encoded as U+FFFD. *)
Fixpoint encode (s : jsstring) : list N :=
  match s with
  | [] => []
  | c :: s' =>
      if is_high_surrogate c then
        match s' with
        | d :: s'' =>
            if is_low_surrogate d
            then encode_code_point (65536 + (c - 55296) * 1024 + (d - 56320))%N
                   ++ encode s''
            else encode_code_point 65533 ++ encode s'
        | [] => encode_code_point 65533
        end
      else if is_low_surrogate c then encode_code_point 65533 ++ encode s'
      else encode_code_point c ++ encode s'
  end.

(** A code point as UTF-16 code units. *)
Definition units_of_code_point (cp : N) : jsstring :=
  (if cp <? 65536 then [cp]
   else [55296 + (cp - 65536) / 1024; 56320 + (cp - 65536) mod 1024])%N.

(** The state of the UTF-8 decoder of the Encoding standard. *)
Record decoder := {
  code_point : N;
  bytes_seen : N;
  bytes_needed : N;
  lower : N;
  upper : N
}.

Definition decoder0 : decoder :=
  {| code_point := 0; bytes_seen := 0; bytes_needed := 0;
     lower := 128; upper := 191 |}.

(** The decoder on a lead byte. *)
Definition decode_lead (b : N) : decoder * jsstring :=
  (if b <=? 127 then (decoder0, [b])
   else if (194 <=? b) && (b <=? 223) then
     ({| code_point := b mod 32; bytes_seen := 0; bytes_needed := 1;
         lower := 128; upper := 191 |}, [])
   else if (224 <=? b) && (b <=? 239) then
     ({| code_point := b mod 16; bytes_seen := 0; bytes_needed := 2;
         lower := if b =? 224 then 160 else 128;
         upper := if b =? 237 then 159 else 191 |}, [])
   else if (240 <=? b) && (b <=? 244) then
     ({| code_point := b mod 8; bytes_seen := 0; bytes_needed := 3;
         lower := if b =? 240 then 144 else 128;
         upper := if b =? 244 then 143 else 191 |}, [])
   else (decoder0, [65533]))%N.

(** One byte through the decoder; a byte that cannot continue a sequence
    gives U+FFFD and is read again as a lead byte. *)
Definition decode_byte (d : decoder) (b : N) : decoder * jsstring :=
  (if bytes_needed d =? 0 then decode_lead b
   else if (b <? lower d) || (upper d <? b) then
     let '(d', out) := decode_lead b in (d', 65533 :: out)
   else
     let cp := code_point d * 64 + b mod 64 in
     if bytes_seen d + 1 =? bytes_needed d
     then (decoder0, units_of_code_point cp)
     else ({| code_point := cp; bytes_seen := bytes_seen d + 1;
              bytes_needed := bytes_needed d;
              lower := 128; upper := 191 |}, []))%N.

Fixpoint decode_from (d : decoder) (l : list N) : jsstring :=
  match l with
  | [] => if (bytes_needed d =? 0)%N then [] else [65533%N]
  | b :: l' => let '(d', out) := decode_byte d b in out ++ decode_from d' l'
  end.

(** [new TextDecoder().decode(bytes)]: a leading byte order mark is
    dropped. *)
Definition decode (l : list N) : jsstring :=
  match l with
  | 239 :: 187 :: 191 :: l' => decode_from decoder0 l'
  | _ => decode_from decoder0 l
  end%N.

End UTF8.

Module URI.

Definition hex_digit (n : N) : N := (if n <? 10 then 48 + n else 55 + n)%N.

Definition percent (b : N) : jsstring := [37%N; hex_digit (b / 16); hex_digit (b mod 16)].

(** The code units [encodeURIComponent] leaves as they are:
    letters, digits and [-_.!~*'()]. *)
Definition unreserved (c : N) : bool :=
  (((65 <=? c) && (c <=? 90)) || ((97 <=? c) && (c <=? 122))
   || ((48 <=? c) && (c <=? 57))
   || existsb (N.eqb c) [45; 95; 46; 33; 126; 42; 39; 40; 41])%N.

Fixpoint well_formed (s : jsstring) : bool :=
  match s with
  | [] => true
  | c :: s' =>
      if UTF8.is_high_surrogate c then
        match s' with
        | d :: s'' => UTF8.is_low_surrogate d && well_formed s''
        | [] => false
        end
      else negb (UTF8.is_low_surrogate c) && well_formed s'
  end.

Fixpoint encode_units (s : jsstring) : jsstring :=
  match s with
  | [] => []
  | c :: s' =>
      if unreserved c then c :: encode_units s'
      else if UTF8.is_high_surrogate c then
        match s' with
        | d :: s'' =>
            flat_map percent
              (UTF8.encode_code_point
                 (65536 + (c - 55296) * 1024 + (d - 56320))%N)
              ++ encode_units s''
        | [] => []
        end
      else flat_map percent (UTF8.encode_code_point c) ++ encode_units s'
  end.

(** [encodeURIComponent(s)]: fails (URIError) on a lone surrogate. *)
Definition encodeURIComponent (s : jsstring) : option jsstring :=
  if well_formed s then Some (encode_units s) else None.

End URI.

Module Date.

Local Open Scope Z_scope.

Definition msPerDay : Z := 86400000.

(** Year, month and day of a day number counted from 1970-01-01 in the
    proleptic Gregorian calendar. *)
Definition civil (day : Z) : Z * Z * Z :=
  let z := day + 719468 in
  let era := z / 146097 in
  let doe := z - era * 146097 in
  let yoe := (doe - doe / 1460 + doe / 36524 - doe / 146096) / 365 in
  let doy := doe - (365 * yoe + yoe / 4 - yoe / 100) in
  let mp := (5 * doy + 2) / 153 in
  let d := doy - (153 * mp + 2) / 5 + 1 in
  let m := if mp <? 10 then mp + 3 else mp - 9 in
  let y := yoe + era * 400 + (if m <=? 2 then 1 else 0) in
  (y, m, d).

(** The UTC fields of a time value (milliseconds since the epoch). *)
Record fields := {
  year : Z; month : Z; day : Z;
  hours : Z; minutes : Z; seconds : Z; millis : Z
}.

Definition utc (t : Z) : fields :=
  let '(y, m, d) := civil (t / msPerDay) in
  let r := t mod msPerDay in
  {| year := y; month := m; day := d;
     hours := r / 3600000; minutes := (r / 60000) mod 60;
     seconds := (r / 1000) mod 60; millis := r mod 1000 |}.

Definition pad (w : nat) (z : Z) : jsstring := pad_digits w (Z.to_N z).

(** Four digits for the years 0 to 9999, a sign and six digits otherwise. *)
Definition year_string (y : Z) : jsstring :=
  if (0 <=? y) && (y <=? 9999) then pad 4 y
  else (if y <? 0 then js "-" else js "+") ++ pad 6 (Z.abs y).

(** [date.toISOString()]: [YYYY-MM-DDTHH:mm:ss.sssZ]. *)
Definition toISOString (t : Z) : jsstring :=
  let f := utc t in
  year_string (year f) ++ js "-" ++ pad 2 (month f) ++ js "-" ++ pad 2 (day f)
    ++ js "T" ++ pad 2 (hours f) ++ js ":" ++ pad 2 (minutes f) ++ js ":"
    ++ pad 2 (seconds f) ++ js "." ++ pad 3 (millis f) ++ js "Z".

(** Time values a [Date] can hold. *)
Definition valid_time (t : Z) : Prop := -8640000000000000 <= t <= 8640000000000000.

(** ** Reading a timestamp [YYYY-MM-DD HH:mm:ss] back *)

Definition is_digit (c : N) : bool := ((48 <=? c) && (c <=? 57))%N.

Fixpoint number_of (s : jsstring) (acc : Z) : option Z :=
  match s with
  | [] => Some acc
  | c :: s' =>
      if is_digit c then number_of s' (10 * acc + Z.of_N (c - 48)) else None
  end.

Definition number (w : nat) (s : jsstring) : option Z :=
  if (length s =? w)%nat then number_of s 0 else None.

(** The signed year and the text after it. *)
Definition parse_year (s : jsstring) : option (Z * jsstring) :=
  match s with
  | 43%N :: s' =>
      match number 6 (firstn 6 s') with
      | Some y => Some (y, skipn 6 s')
      | None => None
      end
  | 45%N :: s' =>
      match number 6 (firstn 6 s') with
      | Some y => Some (- y, skipn 6 s')
      | None => None
      end
  | _ =>
      match number 4 (firstn 4 s) with
      | Some y => Some (y, skipn 4 s)
      | None => None
      end
  end.

(** A timestamp is a year followed by [-MM-DD HH:mm:ss] with every field
    in its range; the result is the fields read. *)
Definition parse_timestamp (s : jsstring) : option fields :=
  match parse_year s with
  | Some (y, [d1; m1; m2; d2; a1; a2; sp; h1; h2; c1; i1; i2; c2; s1; s2]) =>
      match number 2 [m1; m2], number 2 [a1; a2], number 2 [h1; h2],
            number 2 [i1; i2], number 2 [s1; s2] with
      | Some mo, Some da, Some h, Some mi, Some se =>
          if (d1 =? 45)%N && (d2 =? 45)%N && (sp =? 32)%N
             && (c1 =? 58)%N && (c2 =? 58)%N
             && (1 <=? mo) && (mo <=? 12) && (1 <=? da) && (da <=? 31)
             && (h <? 24) && (mi <? 60) && (se <? 60)
          then Some {| year := y; month := mo; day := da; hours := h;
                       minutes := mi; seconds := se; millis := 0 |}
          else None
      | _, _, _, _, _ => None
      end
  | _ => None
  end.

Definition digit (c : N) : Prop := is_digit c = true.

(** The characters of a timestamp: digits, [-], [+], the space, [:]. *)
Definition stamp_char (c : N) : Prop :=
  digit c \/ c = 45%N \/ c = 43%N \/ c = 32%N \/ c = 58%N.

(** The text [YYYY-MM-DD HH:mm:ss] of the fields of a time. *)
Definition timestamp (f : fields) : jsstring :=
  year_string (year f) ++ js "-" ++ pad 2 (month f) ++ js "-" ++ pad 2 (day f)
    ++ js " " ++ pad 2 (hours f) ++ js ":" ++ pad 2 (minutes f) ++ js ":"
    ++ pad 2 (seconds f).

(** Fields as a clock and a calendar show them. *)
Definition in_range (f : fields) : Prop :=
  -999999 <= year f <= 999999 /\ 1 <= month f <= 12 /\ 1 <= day f <= 31
  /\ 0 <= hours f < 24 /\ 0 <= minutes f < 60 /\ 0 <= seconds f < 60
  /\ 0 <= millis f < 1000.

(** The fields without the milliseconds. *)
Definition whole_seconds (f : fields) : fields :=
  {| year := year f; month := month f; day := day f; hours := hours f;
     minutes := minutes f; seconds := seconds f; millis := 0 |}.

End Date.

(* ================================================================ *)
(** * Data model ([src/types.ts]) and host interface *)
(* ================================================================ *)

Module Types.

Record GitSyncSettings := {
  githubUsername : jsstring;
  githubToken : jsstring;
  repositoryName : jsstring;
  branch : jsstring;
  autoSync : bool;
  autoSyncInterval : N;
  lastSyncTime : Z;
  excludedFolders : list jsstring;
  excludedFiles : list jsstring;
  commitMessage : jsstring
}.

Definition DEFAULT_SETTINGS : GitSyncSettings := {|
  githubUsername := js "";
  githubToken := js "";
  repositoryName := js "";
  branch := js "main";
  autoSync := false;
  autoSyncInterval := 30;
  lastSyncTime := 0;
  excludedFolders :=
    [js "{{configDir}}/plugins"; js "{{configDir}}/themes"; js ".trash"];
  excludedFiles := [js ".DS_Store"; js "Thumbs.db"];
  commitMessage := js "Obsidian sync: {{date}}"
|}.

Inductive file_type := type_file | type_dir.

Record GitHubFile := {
  gf_path : jsstring;
  gf_sha : jsstring;
  gf_content : option jsstring;
  gf_type : file_type
}.

Inductive tree_type := type_blob | type_tree.

Record GitHubTreeItem := {
  ti_path : jsstring;
  ti_mode : jsstring;
  ti_type : tree_type;
  ti_sha : option jsstring;
  ti_content : option jsstring
}.

Record SyncResult := {
  success : bool;
  message : jsstring;
  filesUploaded : nat;
  filesDownloaded : nat;
  filesDeleted : nat
}.

End Types.
Export Types.

Module Host.

(** JSON values, with [undefined] for what a response does not carry. *)
#[local] Unset Elimination Schemes.
Inductive json :=
| JUndefined
| JNull
| JBool (b : bool)
| JNum (n : Z)
| JStr (s : jsstring)
| JArr (items : list json)
| JObj (fields : list (jsstring * json)).
#[local] Set Elimination Schemes.

(** What [throw] throws: an [Error] with its message, or another value. *)
Inductive exn :=
| Error (msg : jsstring)
| NonError (v : json).

Fixpoint lookup (k : jsstring) (fields : list (jsstring * json)) : json :=
  match fields with
  | [] => JUndefined
  | (k', v) :: rest => if JS.eqb k k' then v else lookup k rest
  end.

(** Property access [j.k]: a TypeError on [null] and [undefined]. *)
Definition prop (j : json) (k : jsstring) : exn + json :=
  match j with
  | JUndefined | JNull =>
      inl (Error (js "Cannot read properties of undefined (reading '"
                    ++ k ++ js "')"))
  | JObj fields => inr (lookup k fields)
  | _ => inr JUndefined
  end.

(** A property the type assertions of the source declare a string: the
    string, or nothing when the response does not carry one. *)
Definition as_string (j : json) : option jsstring :=
  match j with
  | JStr s => Some s
  | _ => None
  end.

(** Truthiness of such a string: present and not empty. *)
Definition truthy (s : option jsstring) : bool :=
  match s with
  | Some (_ :: _) => true
  | _ => false
  end.

(** Interpolation [`${s}`]. *)
Definition interpolate (s : option jsstring) : jsstring :=
  match s with
  | Some s => s
  | None => js "undefined"
  end.

(** The vault's files, as the source reads them. *)
Record TFile := {
  path : jsstring;
  name : jsstring;
  extension : jsstring
}.

Inductive TAbstractFile :=
| AFile (f : TFile)
| AFolder (p : jsstring).

Record RequestUrlParam := {
  url : jsstring;
  method : jsstring;
  headers : list (jsstring * jsstring);
  throw : bool;
  body : option json
}.

Record Response := {
  status : N;
  response_json : json
}.

(** The host calls of the two classes, each with the type of its answer;
    a call that can fail answers with the exception or the value. *)
Inductive IO : Type -> Type :=
| RequestUrl (p : RequestUrlParam) : IO (exn + Response)
| VaultGetFiles : IO (list TFile)
| VaultRead (f : TFile) : IO (exn + jsstring)
| VaultReadBinary (f : TFile) : IO (exn + list UTF8.byte)
| VaultGetAbstractFileByPath (p : jsstring) : IO (option TAbstractFile)
| VaultModify (f : TFile) (content : jsstring) : IO (exn + unit)
| VaultCreate (p : jsstring) (content : jsstring) : IO (exn + unit)
| VaultModifyBinary (f : TFile) (data : list UTF8.byte) : IO (exn + unit)
| VaultCreateBinary (p : jsstring) (data : list UTF8.byte) : IO (exn + unit)
| VaultCreateFolder (p : jsstring) : IO (exn + unit)
| NewNotice (msg : jsstring) : IO unit
| ConsoleError (msg : jsstring) (e : exn) : IO unit
| DateNow : IO Z.

(** [normalizePath] of the host: runs of slashes and backslashes become
    one slash, slashes at both ends are dropped, the empty path is [/],
    and no-break spaces become spaces.  Unicode normalisation is left
    out: paths are taken in composed form. *)
Definition is_slash (c : N) : bool := ((c =? 47) || (c =? 92))%N.

Fixpoint collapse_slashes (s : jsstring) : jsstring :=
  match s with
  | [] => []
  | c :: s' =>
      if is_slash c then
        match s' with
        | d :: _ => if is_slash d then collapse_slashes s'
                    else 47%N :: collapse_slashes s'
        | [] => [47%N]
        end
      else c :: collapse_slashes s'
  end.

Definition trim_slashes (s : jsstring) : jsstring :=
  let s1 := match s with 47%N :: r => r | _ => s end in
  match rev s1 with 47%N :: r => rev r | _ => s1 end.

Definition plain_space (c : N) : N :=
  if ((c =? 160) || (c =? 8239))%N then 32%N else c.

Definition normalizePath (p : jsstring) : jsstring :=
  let q := trim_slashes (collapse_slashes p) in
  map plain_space (match q with [] => js "/" | _ => q end).

End Host.
Export Host.

(* ================================================================ *)
(** * Programs: host calls, exceptions and the fields of [this] *)
(* ================================================================ *)

Module Program.

(** [src/github-api.ts]: the fields of a [GitHubAPI] object. *)
Record GitHubAPI := {
  api_username : jsstring;
  api_token : jsstring;
  api_repo : jsstring;
  api_branch : jsstring
}.

(** [src/sync-service.ts]: the fields of a [SyncService] object;
    [configDir] stands for [this.app.vault.configDir]. *)
Record SyncService := {
  configDir : jsstring;
  settings : GitSyncSettings;
  api : option GitHubAPI;
  isSyncing : bool
}.

(** An asynchronous method is a tree: it returns, throws, calls the host
    and goes on with the answer, reads the fields of the service object,
    or sets its [isSyncing] flag. *)
Inductive Prog (A : Type) : Type :=
| Ret (a : A)
| Throw (e : exn)
| Vis (X : Type) (e : IO X) (k : X -> Prog A)
| GetThis (k : SyncService -> Prog A)
| SetSyncing (b : bool) (k : Prog A).

Arguments Ret {A} a.
Arguments Throw {A} e.
Arguments Vis {A X} e k.
Arguments GetThis {A} k.
Arguments SetSyncing {A} b k.

Fixpoint bind {A B} (p : Prog A) (f : A -> Prog B) : Prog B :=
  match p with
  | Ret a => f a
  | Throw e => Throw e
  | Vis e k => Vis e (fun x => bind (k x) f)
  | GetThis k => GetThis (fun s => bind (k s) f)
  | SetSyncing b k => SetSyncing b (bind k f)
  end.

(** [try { p } catch (e) { h e }] *)
Fixpoint try_catch {A} (p : Prog A) (h : exn -> Prog A) : Prog A :=
  match p with
  | Ret a => Ret a
  | Throw e => h e
  | Vis e k => Vis e (fun x => try_catch (k x) h)
  | GetThis k => GetThis (fun s => try_catch (k s) h)
  | SetSyncing b k => SetSyncing b (try_catch k h)
  end.

(** [try { p } finally { f }] *)
Fixpoint finally {A} (p : Prog A) (f : Prog unit) : Prog A :=
  match p with
  | Ret a => bind f (fun _ => Ret a)
  | Throw e => bind f (fun _ => Throw e)
  | Vis e k => Vis e (fun x => finally (k x) f)
  | GetThis k => GetThis (fun s => finally (k s) f)
  | SetSyncing b k => SetSyncing b (finally k f)
  end.

(** A host call that cannot fail, and one whose failure is thrown. *)
Definition call {X} (e : IO X) : Prog X := Vis e (fun x => Ret x).

Definition await {X} (e : IO (exn + X)) : Prog X :=
  Vis e (fun r => match r with inl err => Throw err | inr x => Ret x end).

(** A pure step that may throw. *)
Definition lift {X} (r : exn + X) : Prog X :=
  match r with inl err => Throw err | inr x => Ret x end.

Definition this : Prog SyncService := GetThis (fun s => Ret s).

End Program.
Export Program.

Declare Scope prog_scope.
Delimit Scope prog_scope with prog.
Notation "x <- p ;; q" := (bind p (fun x => q))
  (at level 61, p at next level, right associativity) : prog_scope.
Notation "p ;; q" := (bind p (fun _ => q))
  (at level 61, right associativity) : prog_scope.
Notation "' pat <- p ;; q" := (bind p (fun pat => q))
  (at level 61, pat pattern, p at next level, right associativity,
   only parsing) : prog_scope.
Open Scope prog_scope.

(* ================================================================ *)
(** * [class GitHubAPI] ([src/github-api.ts]) *)
(* ================================================================ *)

Module Api.

Definition GET : jsstring := js "GET".
Definition POST : jsstring := js "POST".
Definition PUT : jsstring := js "PUT".
Definition PATCH : jsstring := js "PATCH".
Definition DELETE : jsstring := js "DELETE".

Definition baseUrl (a : GitHubAPI) : jsstring :=
  js "https://api.github.com/repos/" ++ api_username a ++ js "/" ++ api_repo a.

Definition api_headers (a : GitHubAPI) : list (jsstring * jsstring) :=
  [ (js "Authorization", js "Bearer " ++ api_token a);
    (js "Accept", js "application/vnd.github+json");
    (js "X-GitHub-Api-Version", js "2022-11-28");
    (js "Content-Type", js "application/json") ].

(** A string field of a body; [JSON.stringify] drops an undefined one. *)
Definition str_field (s : option jsstring) : json :=
  match s with
  | Some s => JStr s
  | None => JUndefined
  end.

(** [response.json?.message || `HTTP ${response.status}`] *)
Definition error_message (r : Response) : jsstring :=
  let fallback := js "HTTP " ++ JS.of_N (status r) in
  match prop (response_json r) (js "message") with
  | inr m => if truthy (as_string m) then interpolate (as_string m) else fallback
  | inl _ => fallback
  end.

(** [request] (lines 30-50): the response's JSON, or an [Error] for a
    status from 400; a failure of the network is thrown by the host. *)
Definition request (a : GitHubAPI) (url method : jsstring) (body : option json)
  : Prog json :=
  response <- await (RequestUrl {| url := url; method := method;
                                   headers := api_headers a;
                                   throw := false; body := body |}) ;;
  if (400 <=? status response)%N
  then Throw (Error (js "GitHub API Error: " ++ error_message response))
  else Ret (response_json response).

(** [verifyAccess] (lines 55-62) *)
Definition verifyAccess (a : GitHubAPI) : Prog bool :=
  try_catch
    (request a (baseUrl a) GET None ;; Ret true)
    (fun _ => Ret false).

(** [ensureRepository] (lines 67-86) *)
Definition ensureRepository (a : GitHubAPI) : Prog bool :=
  try_catch
    (request a (baseUrl a) GET None ;; Ret true)
    (fun _ =>
       try_catch
         (request a (js "https://api.github.com/user/repos") POST
            (Some (JObj [ (js "name", JStr (api_repo a));
                          (js "private", JBool true);
                          (js "auto_init", JBool true);
                          (js "description",
                            JStr (js "Obsidian vault sync repository")) ])) ;;
          Ret true)
         (fun createError =>
            call (ConsoleError (js "Failed to create repository:") createError) ;;
            Ret false)).

(** [getLatestCommitSha] (lines 91-98).  The result is [None] for [null]
    (and for a response without the id). *)
Definition getLatestCommitSha (a : GitHubAPI) : Prog (option jsstring) :=
  try_catch
    (response <- request a (baseUrl a ++ js "/git/refs/heads/" ++ api_branch a)
                   GET None ;;
     object <- lift (prop response (js "object")) ;;
     sha <- lift (prop object (js "sha")) ;;
     Ret (as_string sha))
    (fun _ => Ret None).

(** [getTreeSha] (lines 103-106) *)
Definition getTreeSha (a : GitHubAPI) (commitSha : jsstring)
  : Prog (option jsstring) :=
  response <- request a (baseUrl a ++ js "/git/commits/" ++ commitSha) GET None ;;
  tree <- lift (prop response (js "tree")) ;;
  sha <- lift (prop tree (js "sha")) ;;
  Ret (as_string sha).

(** The entries of a tree listing, read as the type assertion of
    [getAllFiles] declares them; an entry that does not fit is a
    TypeError. *)
Definition type_error : exn := Error (js "TypeError").

Definition is_blob (item : json) : exn + bool :=
  match prop item (js "type") with
  | inl e => inl e
  | inr (JStr t) => inr (JS.eqb t (js "blob"))
  | inr _ => inr false
  end.

Fixpoint filter_blobs (items : list json) : exn + list json :=
  match items with
  | [] => inr []
  | item :: rest =>
      match is_blob item with
      | inl e => inl e
      | inr b =>
          match filter_blobs rest with
          | inl e => inl e
          | inr l => inr (if b then item :: l else l)
          end
      end
  end.

Definition to_file (item : json) : exn + GitHubFile :=
  match prop item (js "path"), prop item (js "sha") with
  | inr (JStr p), inr (JStr s) =>
      inr {| gf_path := p; gf_sha := s; gf_content := None;
             gf_type := type_file |}
  | _, _ => inl type_error
  end.

Fixpoint to_files (items : list json) : exn + list GitHubFile :=
  match items with
  | [] => inr []
  | item :: rest =>
      match to_file item, to_files rest with
      | inr f, inr l => inr (f :: l)
      | inl e, _ => inl e
      | _, inl e => inl e
      end
  end.

Definition tree_entries (response : json) : exn + list GitHubFile :=
  match prop response (js "tree") with
  | inl e => inl e
  | inr (JArr items) =>
      match filter_blobs items with
      | inl e => inl e
      | inr blobs => to_files blobs
      end
  | inr _ => inl type_error
  end.

(** [getAllFiles] (lines 111-127) *)
Definition getAllFiles (a : GitHubAPI) : Prog (list GitHubFile) :=
  commitSha <- getLatestCommitSha a ;;
  if negb (truthy commitSha) then Ret []
  else
    treeSha <- getTreeSha a (interpolate commitSha) ;;
    response <- request a (baseUrl a ++ js "/git/trees/" ++ interpolate treeSha
                             ++ js "?recursive=1") GET None ;;
    lift (tree_entries response).

Definition invalid_character : exn :=
  Error (js "The string to be decoded is not correctly encoded.").

Definition uri_error : exn := Error (js "URI malformed").

(** [encodeBase64] (lines 319-326) and [decodeBase64] (lines 331-338) *)
Definition encodeBase64 (str : jsstring) : exn + jsstring :=
  let bytes := map UTF8.u8 (UTF8.encode str) in
  let binary := map Byte.to_N bytes in
  match Base64.btoa binary with
  | Some s => inr s
  | None => inl invalid_character
  end.

Definition decodeBase64 (base64 : jsstring) : exn + jsstring :=
  match Base64.atob (filter (fun c => negb (c =? 10)%N) base64) with
  | Some binary =>
      let bytes := map UTF8.u8 binary in
      inr (UTF8.decode (map Byte.to_N bytes))
  | None => inl invalid_character
  end.

(** [`${this.baseUrl}/contents/${encodeURIComponent(path)}`] *)
Definition contents_url (a : GitHubAPI) (path : jsstring) : exn + jsstring :=
  match URI.encodeURIComponent path with
  | Some p => inr (baseUrl a ++ js "/contents/" ++ p)
  | None => inl uri_error
  end.

(** [getFileContent] (lines 132-142) *)
Definition getFileContent (a : GitHubAPI) (path : jsstring)
  : Prog (option jsstring) :=
  try_catch
    (u <- lift (contents_url a path) ;;
     response <- request a (u ++ js "?ref=" ++ api_branch a) GET None ;;
     content <- lift (prop response (js "content")) ;;
     if truthy (as_string content) then
       encoding <- lift (prop response (js "encoding")) ;;
       match encoding with
       | JStr e =>
           if JS.eqb e (js "base64") then
             decoded <- lift (decodeBase64 (interpolate (as_string content))) ;;
             Ret (Some decoded)
           else Ret None
       | _ => Ret None
       end
     else Ret None)
    (fun _ => Ret None).

(** [getFileSha] (lines 147-154) *)
Definition getFileSha (a : GitHubAPI) (path : jsstring)
  : Prog (option jsstring) :=
  try_catch
    (u <- lift (contents_url a path) ;;
     response <- request a (u ++ js "?ref=" ++ api_branch a) GET None ;;
     sha <- lift (prop response (js "sha")) ;;
     Ret (as_string sha))
    (fun _ => Ret None).

(** [putFile] (lines 159-178) *)
Definition putFile (a : GitHubAPI) (path content message : jsstring)
  : Prog bool :=
  try_catch
    (sha <- getFileSha a path ;;
     encoded <- lift (encodeBase64 content) ;;
     let body :=
       [ (js "message", JStr message);
         (js "content", JStr encoded);
         (js "branch", JStr (api_branch a)) ]
       ++ (if truthy sha then [(js "sha", str_field sha)] else []) in
     u <- lift (contents_url a path) ;;
     request a u PUT (Some (JObj body)) ;;
     Ret true)
    (fun error =>
       call (ConsoleError (js "Failed to upload file " ++ path ++ js ":") error) ;;
       Ret false).

(** [deleteFile] (lines 183-200) *)
Definition deleteFile (a : GitHubAPI) (path message : jsstring) : Prog bool :=
  try_catch
    (sha <- getFileSha a path ;;
     if negb (truthy sha) then Ret true
     else
       u <- lift (contents_url a path) ;;
       request a u DELETE
         (Some (JObj [ (js "message", JStr message);
                       (js "sha", str_field sha);
                       (js "branch", JStr (api_branch a)) ])) ;;
       Ret true)
    (fun error =>
       call (ConsoleError (js "Failed to delete file " ++ path ++ js ":") error) ;;
       Ret false).

Definition tree_type_json (t : tree_type) : json :=
  match t with
  | type_blob => JStr (js "blob")
  | type_tree => JStr (js "tree")
  end.

(** A tree item as it goes into a request body: the optional fields are
    there when the item has them. *)
Definition tree_item_json (it : GitHubTreeItem) : json :=
  JObj ([ (js "path", JStr (ti_path it));
          (js "mode", JStr (ti_mode it));
          (js "type", tree_type_json (ti_type it)) ]
        ++ match ti_sha it with Some s => [(js "sha", JStr s)] | None => [] end
        ++ match ti_content it with
           | Some c => [(js "content", JStr c)]
           | None => []
           end).

(** [createTree] (lines 205-213) *)
Definition createTree (a : GitHubAPI) (baseTreeSha : option jsstring)
  (items : list GitHubTreeItem) : Prog (option jsstring) :=
  let body :=
    [ (js "tree", JArr (map tree_item_json items)) ]
    ++ (if truthy baseTreeSha then [(js "base_tree", str_field baseTreeSha)]
        else []) in
  response <- request a (baseUrl a ++ js "/git/trees") POST (Some (JObj body)) ;;
  sha <- lift (prop response (js "sha")) ;;
  Ret (as_string sha).

(** [createCommit] (lines 218-230) *)
Definition createCommit (a : GitHubAPI) (message : jsstring)
  (treeSha parentSha : option jsstring) : Prog (option jsstring) :=
  let body :=
    [ (js "message", JStr message); (js "tree", str_field treeSha) ]
    ++ (if truthy parentSha then [(js "parents", JArr [str_field parentSha])]
        else []) in
  response <- request a (baseUrl a ++ js "/git/commits") POST (Some (JObj body)) ;;
  sha <- lift (prop response (js "sha")) ;;
  Ret (as_string sha).

(** [updateBranchRef] (lines 235-255) *)
Definition updateBranchRef (a : GitHubAPI) (commitSha : option jsstring)
  : Prog bool :=
  try_catch
    (request a (baseUrl a ++ js "/git/refs/heads/" ++ api_branch a) PATCH
       (Some (JObj [ (js "sha", str_field commitSha);
                     (js "force", JBool true) ])) ;;
     Ret true)
    (fun _ =>
       try_catch
         (request a (baseUrl a ++ js "/git/refs") POST
            (Some (JObj [ (js "ref", JStr (js "refs/heads/" ++ api_branch a));
                          (js "sha", str_field commitSha) ])) ;;
          Ret true)
         (fun createError =>
            call (ConsoleError (js "Failed to update branch reference:")
                    createError) ;;
            Ret false)).

(** The files [batchUpload] is given. *)
Record UploadFile := {
  up_path : jsstring;
  up_content : jsstring
}.

(** The size under which a file's content goes into the tree entry. *)
Definition inline_threshold : N := 100000.

(** The two tree items of the loop (lines 276-281 and 289-294). *)
Definition inline_item (file : UploadFile) : GitHubTreeItem :=
  {| ti_path := up_path file; ti_mode := js "100644"; ti_type := type_blob;
     ti_sha := None; ti_content := Some (up_content file) |}.

Definition blob_item (file : UploadFile) (sha : option jsstring)
  : GitHubTreeItem :=
  {| ti_path := up_path file; ti_mode := js "100644"; ti_type := type_blob;
     ti_sha := sha; ti_content := None |}.

(** The request of the loop that creates a blob (lines 284-287). *)
Definition create_blob (a : GitHubAPI) (file : UploadFile)
  : Prog (option jsstring) :=
  encoded <- lift (encodeBase64 (up_content file)) ;;
  blobResponse <- request a (baseUrl a ++ js "/git/blobs") POST
                    (Some (JObj [ (js "content", JStr encoded);
                                  (js "encoding", JStr (js "base64")) ])) ;;
  sha <- lift (prop blobResponse (js "sha")) ;;
  Ret (as_string sha).

(** The loop of [batchUpload] over the files (lines 272-296),
    [treeItems] being the items pushed so far. *)
Fixpoint build_tree_items (a : GitHubAPI) (files : list UploadFile)
  (treeItems : list GitHubTreeItem) : Prog (list GitHubTreeItem) :=
  match files with
  | [] => Ret treeItems
  | file :: rest =>
      if (N.of_nat (length (up_content file)) <? inline_threshold)%N then
        build_tree_items a rest (treeItems ++ [inline_item file])
      else
        sha <- create_blob a file ;;
        build_tree_items a rest (treeItems ++ [blob_item file sha])
  end.

(** [batchUpload] (lines 260-314) *)
Definition batchUpload (a : GitHubAPI) (files : list UploadFile)
  (message : jsstring) : Prog bool :=
  try_catch
    (commitSha <- getLatestCommitSha a ;;
     baseTreeSha <- (if truthy commitSha
                     then getTreeSha a (interpolate commitSha)
                     else Ret None) ;;
     treeItems <- build_tree_items a files [] ;;
     match treeItems with
     | [] => Ret true
     | _ :: _ =>
         newTreeSha <- createTree a baseTreeSha treeItems ;;
         newCommitSha <- createCommit a message newTreeSha commitSha ;;
         updateBranchRef a newCommitSha
     end)
    (fun error =>
       call (ConsoleError (js "Batch upload failed:") error) ;;
       Ret false).

End Api.

(* ================================================================ *)
(** * [class SyncService] ([src/sync-service.ts]) *)
(* ================================================================ *)

Module Service.

(** Reading a field of [this]. *)
Definition get {X} (f : SyncService -> X) : Prog X := GetThis (fun s => Ret (f s)).

(** [this.api.m(...)]: a TypeError when [this.api] is [null]. *)
Definition this_api : Prog GitHubAPI :=
  GetThis (fun s =>
    match api s with
    | Some a => Ret a
    | None => Throw (Error (js "Cannot read properties of null"))
    end).

Definition nonempty (s : jsstring) : bool :=
  match s with [] => false | _ :: _ => true end.

(** [initializeAPI] (lines 22-33) *)
Definition initializeAPI (s : SyncService) : SyncService :=
  let st := settings s in
  if nonempty (githubUsername st) && nonempty (githubToken st)
     && nonempty (repositoryName st)
  then {| configDir := configDir s; settings := st;
          api := Some {| api_username := githubUsername st;
                         api_token := githubToken st;
                         api_repo := repositoryName st;
                         api_branch := branch st |};
          isSyncing := isSyncing s |}
  else {| configDir := configDir s; settings := st; api := None;
          isSyncing := isSyncing s |}.

(** [new SyncService(app, settings)] *)
Definition constructor (dir : jsstring) (st : GitSyncSettings) : SyncService :=
  initializeAPI {| configDir := dir; settings := st; api := None;
                   isSyncing := false |}.

(** [updateSettings] (lines 17-20) *)
Definition updateSettings (s : SyncService) (st : GitSyncSettings) : SyncService :=
  initializeAPI {| configDir := configDir s; settings := st; api := api s;
                   isSyncing := isSyncing s |}.

Definition isConfigured (s : SyncService) : bool :=
  match api s with Some _ => true | None => false end.

Definition isBusy (s : SyncService) : bool := isSyncing s.

Definition verifyConnection : Prog bool :=
  a <- get api ;;
  match a with
  | None => Ret false
  | Some a => Api.verifyAccess a
  end.

(** [resolveConfigDir] (lines 56-58) *)
Definition resolveConfigDir (s : SyncService) (path : jsstring) : jsstring :=
  JS.replace path (js "{{configDir}}") (configDir s).

(** The two tests of the exclusion loops: [path.startsWith] a resolved
    folder, and [path.endsWith] an excluded file. *)
Definition in_excluded_folder (s : SyncService) (path : jsstring) : bool :=
  existsb (fun folder => startsWith path (resolveConfigDir s folder))
    (excludedFolders (settings s)).

Definition ends_with_excluded_file (s : SyncService) (path : jsstring) : bool :=
  existsb (fun excludedFile => endsWith path excludedFile)
    (excludedFiles (settings s)).

(** The predicate of the filter in [getVaultFiles] (lines 66-83). *)
Definition vault_file_kept (s : SyncService) (file : TFile) : bool :=
  negb (in_excluded_folder s (path file))
  && negb (existsb (fun excludedFile =>
                      JS.eqb (name file) excludedFile
                      || endsWith (path file) excludedFile)
             (excludedFiles (settings s))).

(** [getVaultFiles] (lines 63-84) *)
Definition getVaultFiles : Prog (list TFile) :=
  allFiles <- call VaultGetFiles ;;
  s <- this ;;
  Ret (filter (vault_file_kept s) allFiles).

Definition binaryExtensions : list jsstring :=
  [js ".png"; js ".jpg"; js ".jpeg"; js ".gif"; js ".pdf"; js ".mp3";
   js ".mp4"; js ".webp"; js ".svg"; js ".ico"].

(** [binaryExtensions.some(ext => file.extension.toLowerCase() ===
    ext.slice(1))] *)
Definition isBinary (file : TFile) : bool :=
  existsb (fun ext =>
             JS.eqb (toLowerCase (extension file))
               (slice ext 1 (Z.of_nat (length ext))))
    binaryExtensions.

(** The marker around the base64 text of a binary file. *)
Definition marker_prefix : jsstring := js "[BINARY:".
Definition marker_suffix : jsstring := js "]".

(** [getFileContent] (lines 89-105) *)
Definition getFileContent (file : TFile) : Prog jsstring :=
  if isBinary file then
    bytes <- await (VaultReadBinary file) ;;
    let binary := map Byte.to_N bytes in
    match Base64.btoa binary with
    | Some b64 => Ret (marker_prefix ++ b64 ++ marker_suffix)
    | None => Throw Api.invalid_character
    end
  else await (VaultRead file).

(** [ensureFolder] (lines 147-152) *)
Definition ensureFolder (filePath : jsstring) : Prog unit :=
  let folderPath := before_last 47 filePath in
  if nonempty folderPath then
    existing <- call (VaultGetAbstractFileByPath folderPath) ;;
    match existing with
    | None => await (VaultCreateFolder folderPath)
    | Some _ => Ret tt
    end
  else Ret tt.

(** [writeFileContent] (lines 110-142) *)
Definition writeFileContent (path content : jsstring) : Prog unit :=
  let normalizedPath := normalizePath path in
  if startsWith content marker_prefix && endsWith content marker_suffix then
    let base64 := slice content 8 (-1) in
    match Base64.atob base64 with
    | None => Throw Api.invalid_character
    | Some binary =>
        let bytes := map UTF8.u8 binary in
        ensureFolder normalizedPath ;;
        existingFile <- call (VaultGetAbstractFileByPath normalizedPath) ;;
        match existingFile with
        | Some (AFile f) => await (VaultModifyBinary f bytes)
        | _ => await (VaultCreateBinary normalizedPath bytes)
        end
    end
  else
    ensureFolder normalizedPath ;;
    existingFile <- call (VaultGetAbstractFileByPath normalizedPath) ;;
    match existingFile with
    | Some (AFile f) => await (VaultModify f content)
    | _ => await (VaultCreate normalizedPath content)
    end.

(** [now.toISOString().replace('T', ' ').split('.')[0]] *)
Definition dateStr (now : Z) : jsstring :=
  split_first 46 (JS.replace (Date.toISOString now) (js "T") (js " ")).

Definition date_token : jsstring := js "{{date}}".

Definition render (template : jsstring) (now : Z) : jsstring :=
  JS.replace template date_token (dateStr now).

(** [getCommitMessage] (lines 157-161) *)
Definition getCommitMessage : Prog jsstring :=
  now <- call DateNow ;;
  template <- get (fun s => commitMessage (settings s)) ;;
  Ret (render template now).

(** [error instanceof Error ? error.message : 'Unknown error'] *)
Definition message_of (error : exn) : jsstring :=
  match error with
  | Error msg => msg
  | NonError _ => js "Unknown error"
  end.

(** The loop of [push] that reads the files to upload (lines 192-198). *)
Fixpoint read_files (vaultFiles : list TFile) (filesToUpload : list Api.UploadFile)
  : Prog (list Api.UploadFile) :=
  match vaultFiles with
  | [] => Ret filesToUpload
  | file :: rest =>
      content <- getFileContent file ;;
      read_files rest
        (filesToUpload ++ [{| Api.up_path := path file; Api.up_content := content |}])
  end.

(** The [try] block of [push] (lines 178-218). *)
Definition push_body : Prog SyncResult :=
  call (NewNotice (js "Pushing to GitHub.")) ;;
  a <- this_api ;;
  repoExists <- Api.ensureRepository a ;;
  if negb repoExists
  then Throw (Error (js "Could not access or create repository"))
  else
    vaultFiles <- getVaultFiles ;;
    filesToUpload <- read_files vaultFiles [] ;;
    match filesToUpload with
    | [] => Ret {| success := true; message := js "No files to push";
                   filesUploaded := 0; filesDownloaded := 0; filesDeleted := 0 |}
    | _ :: _ =>
        a <- this_api ;;
        msg <- getCommitMessage ;;
        ok <- Api.batchUpload a filesToUpload msg ;;
        if ok then
          call (NewNotice (js "GitSync: Pushed "
                             ++ JS.of_nat (length filesToUpload)
                             ++ js " files to GitHub")) ;;
          Ret {| success := true;
                 message := js "Successfully pushed "
                              ++ JS.of_nat (length filesToUpload) ++ js " files";
                 filesUploaded := length filesToUpload;
                 filesDownloaded := 0;
                 filesDeleted := 0 |}
        else Throw (Error (js "Failed to push files to GitHub"))
    end.

(** [push] (lines 166-226) *)
Definition push : Prog SyncResult :=
  a <- get api ;;
  match a with
  | None => Ret {| success := false; message := js "GitHub not configured";
                   filesUploaded := 0; filesDownloaded := 0; filesDeleted := 0 |}
  | Some _ =>
      busy <- get isSyncing ;;
      if busy
      then Ret {| success := false; message := js "Sync already in progress";
                  filesUploaded := 0; filesDownloaded := 0; filesDeleted := 0 |}
      else
        SetSyncing true
          (finally
             (try_catch push_body
                (fun error =>
                   let message := message_of error in
                   call (NewNotice (js "GitSync: Push failed - " ++ message)) ;;
                   Ret {| success := false; message := message;
                          filesUploaded := 0; filesDownloaded := 0;
                          filesDeleted := 0 |}))
             (SetSyncing false (Ret tt)))
  end.

(** The exclusion test of the loop of [pull] (lines 251-264). *)
Definition pull_shouldSkip (s : SyncService) (path : jsstring) : bool :=
  in_excluded_folder s path || ends_with_excluded_file s path.

(** The loop of [pull] over the remote files (lines 249-274). *)
Fixpoint pull_loop (remoteFiles : list GitHubFile) (filesDownloaded : nat)
  : Prog nat :=
  match remoteFiles with
  | [] => Ret filesDownloaded
  | remoteFile :: rest =>
      s <- this ;;
      if pull_shouldSkip s (gf_path remoteFile) then pull_loop rest filesDownloaded
      else
        a <- this_api ;;
        content <- Api.getFileContent a (gf_path remoteFile) ;;
        match content with
        | Some content =>
            writeFileContent (gf_path remoteFile) content ;;
            pull_loop rest (S filesDownloaded)
        | None => pull_loop rest filesDownloaded
        end
  end.

(** The [try] block of [pull] (lines 243-283). *)
Definition pull_body : Prog SyncResult :=
  call (NewNotice (js "Pulling from GitHub.")) ;;
  a <- this_api ;;
  remoteFiles <- Api.getAllFiles a ;;
  filesDownloaded <- pull_loop remoteFiles 0 ;;
  call (NewNotice (js "GitSync: Pulled " ++ JS.of_nat filesDownloaded
                     ++ js " files from GitHub")) ;;
  Ret {| success := true;
         message := js "Successfully pulled " ++ JS.of_nat filesDownloaded
                      ++ js " files";
         filesUploaded := 0;
         filesDownloaded := filesDownloaded;
         filesDeleted := 0 |}.

(** [pull] (lines 231-291) *)
Definition pull : Prog SyncResult :=
  a <- get api ;;
  match a with
  | None => Ret {| success := false; message := js "GitHub not configured";
                   filesUploaded := 0; filesDownloaded := 0; filesDeleted := 0 |}
  | Some _ =>
      busy <- get isSyncing ;;
      if busy
      then Ret {| success := false; message := js "Sync already in progress";
                  filesUploaded := 0; filesDownloaded := 0; filesDeleted := 0 |}
      else
        SetSyncing true
          (finally
             (try_catch pull_body
                (fun error =>
                   let message := message_of error in
                   call (NewNotice (js "GitSync: Pull failed - " ++ message)) ;;
                   Ret {| success := false; message := message;
                          filesUploaded := 0; filesDownloaded := 0;
                          filesDeleted := 0 |}))
             (SetSyncing false (Ret tt)))
  end.

(** The keys of a [Map] filled in the order of a list: each key once, at
    the place of its first insertion. *)
Fixpoint map_keys (seen paths : list jsstring) : list jsstring :=
  match paths with
  | [] => []
  | p :: rest =>
      if existsb (JS.eqb p) seen then map_keys seen rest
      else p :: map_keys (p :: seen) rest
  end.

Definition map_has (keys : list jsstring) (p : jsstring) : bool :=
  existsb (JS.eqb p) keys.

(** The loop of [sync] that reads the files to upload and counts them
    (lines 337-344). *)
Fixpoint sync_read_files (vaultFiles : list TFile)
  (filesToUpload : list Api.UploadFile) (filesUploaded : nat)
  : Prog (list Api.UploadFile * nat) :=
  match vaultFiles with
  | [] => Ret (filesToUpload, filesUploaded)
  | file :: rest =>
      content <- getFileContent file ;;
      sync_read_files rest
        (filesToUpload ++ [{| Api.up_path := path file; Api.up_content := content |}])
        (S filesUploaded)
  end.

(** The exclusion test of the download loop of [sync] (lines 356-364):
    folders only. *)
Definition sync_shouldSkip (s : SyncService) (path : jsstring) : bool :=
  in_excluded_folder s path.

(** The download loop of [sync] (lines 354-373). *)
Fixpoint sync_loop (vaultFileMap remotePaths : list jsstring) (filesDownloaded : nat)
  : Prog nat :=
  match remotePaths with
  | [] => Ret filesDownloaded
  | path :: rest =>
      s <- this ;;
      if sync_shouldSkip s path then sync_loop vaultFileMap rest filesDownloaded
      else if negb (map_has vaultFileMap path) then
        a <- this_api ;;
        content <- Api.getFileContent a path ;;
        match content with
        | Some content =>
            writeFileContent path content ;;
            sync_loop vaultFileMap rest (S filesDownloaded)
        | None => sync_loop vaultFileMap rest filesDownloaded
        end
      else sync_loop vaultFileMap rest filesDownloaded
  end.

(** The [try] block of [sync] (lines 308-382). *)
Definition sync_body : Prog SyncResult :=
  call (NewNotice (js "Starting sync.")) ;;
  a <- this_api ;;
  repoExists <- Api.ensureRepository a ;;
  if negb repoExists
  then Throw (Error (js "Could not access or create repository"))
  else
    vaultFiles <- getVaultFiles ;;
    a <- this_api ;;
    remoteFiles <- Api.getAllFiles a ;;
    let vaultFileMap := map path vaultFiles in
    let remoteFileMap := map_keys [] (map gf_path remoteFiles) in
    '(filesToUpload, filesUploaded) <- sync_read_files vaultFiles [] 0 ;;
    (match filesToUpload with
     | [] => Ret tt
     | _ :: _ =>
         a <- this_api ;;
         msg <- getCommitMessage ;;
         uploadSuccess <- Api.batchUpload a filesToUpload msg ;;
         if uploadSuccess then Ret tt
         else Throw (Error (js "Failed to upload files"))
     end) ;;
    filesDownloaded <- sync_loop vaultFileMap remoteFileMap 0 ;;
    call (NewNotice (js "GitSync: Synced " ++ JS.of_nat filesUploaded ++ js " up, "
                       ++ JS.of_nat filesDownloaded ++ js " down")) ;;
    Ret {| success := true;
           message := js "Sync complete: " ++ JS.of_nat filesUploaded
                        ++ js " uploaded, " ++ JS.of_nat filesDownloaded
                        ++ js " downloaded";
           filesUploaded := filesUploaded;
           filesDownloaded := filesDownloaded;
           filesDeleted := 0 |}.

(** [sync] (lines 296-390) *)
Definition sync : Prog SyncResult :=
  a <- get api ;;
  match a with
  | None => Ret {| success := false; message := js "GitHub not configured";
                   filesUploaded := 0; filesDownloaded := 0; filesDeleted := 0 |}
  | Some _ =>
      busy <- get isSyncing ;;
      if busy
      then Ret {| success := false; message := js "Sync already in progress";
                  filesUploaded := 0; filesDownloaded := 0; filesDeleted := 0 |}
      else
        SetSyncing true
          (finally
             (try_catch sync_body
                (fun error =>
                   let message := message_of error in
                   call (NewNotice (js "GitSync: Sync failed - " ++ message)) ;;
                   Ret {| success := false; message := message;
                          filesUploaded := 0; filesDownloaded := 0;
                          filesDeleted := 0 |}))
             (SetSyncing false (Ret tt)))
  end.

(** The three operations. *)
Inductive operation := Push | Pull | Sync.

Definition run_operation (op : operation) : Prog SyncResult :=
  match op with
  | Push => push
  | Pull => pull
  | Sync => sync
  end.

End Service.

(* ================================================================ *)
(** * Running programs *)
(* ================================================================ *)

Module Run.

(** A host call together with its answer. *)
Inductive event := Event (X : Type) (e : IO X) (x : X).
Arguments Event {X} e x.

(** The host: it answers every call and moves to its next state. *)
Definition handler (W : Type) := forall X, IO X -> W -> X * W.

Inductive outcome (A : Type) :=
| Returned (a : A)
| Threw (e : exn).
Arguments Returned {A} a.
Arguments Threw {A} e.

Record result (W A : Type) := {
  final_this : SyncService;
  final_world : W;
  trace : list event;
  outcome_of : outcome A
}.
Arguments final_this {W A} r.
Arguments final_world {W A} r.
Arguments trace {W A} r.
Arguments outcome_of {W A} r.

Definition set_syncing (b : bool) (s : SyncService) : SyncService :=
  {| configDir := configDir s; settings := settings s; api := api s;
     isSyncing := b |}.

(** A program run to its end against a host, from a state of the service
    object and of the host. *)
Fixpoint run {W A} (h : handler W) (p : Prog A) (s : SyncService) (w : W)
  : result W A :=
  match p with
  | Ret a => {| final_this := s; final_world := w; trace := [];
                outcome_of := Returned a |}
  | Throw e => {| final_this := s; final_world := w; trace := [];
                  outcome_of := Threw e |}
  | Vis e k =>
      let '(x, w') := h _ e w in
      let r := run h (k x) s w' in
      {| final_this := final_this r; final_world := final_world r;
         trace := Event e x :: trace r; outcome_of := outcome_of r |}
  | GetThis k => run h (k s) s w
  | SetSyncing b k => run h k (set_syncing b s) w
  end.

(** ** What a trace shows *)

(** The HTTP requests of a trace, in order. *)
Fixpoint requests (tr : list event) : list RequestUrlParam :=
  match tr with
  | [] => []
  | Event (RequestUrl p) _ :: tr' => p :: requests tr'
  | _ :: tr' => requests tr'
  end.

(** What is written to the vault. *)
Inductive written :=
| Text (content : jsstring)
| Binary (data : list UTF8.byte).

Fixpoint writes (tr : list event) : list (jsstring * written) :=
  match tr with
  | [] => []
  | Event (VaultModify f c) _ :: tr' => (path f, Text c) :: writes tr'
  | Event (VaultCreate p c) _ :: tr' => (p, Text c) :: writes tr'
  | Event (VaultModifyBinary f d) _ :: tr' => (path f, Binary d) :: writes tr'
  | Event (VaultCreateBinary p d) _ :: tr' => (p, Binary d) :: writes tr'
  | _ :: tr' => writes tr'
  end.

(** The answers of the host to the writes of a trace. *)
Fixpoint write_answers (tr : list event) : list (exn + unit) :=
  match tr with
  | [] => []
  | Event (VaultModify _ _) x :: tr' => x :: write_answers tr'
  | Event (VaultCreate _ _) x :: tr' => x :: write_answers tr'
  | Event (VaultModifyBinary _ _) x :: tr' => x :: write_answers tr'
  | Event (VaultCreateBinary _ _) x :: tr' => x :: write_answers tr'
  | _ :: tr' => write_answers tr'
  end.

(** The host refused to create the folder of the file: the run is the
    lookup of the folder, which is not there, and its creation, which
    the host answers with an exception; the run throws that exception. *)
Definition folder_refused (tr : list event) (o : outcome unit) : Prop :=
  exists folder e,
    tr = [ Event (VaultGetAbstractFileByPath folder) None;
           Event (VaultCreateFolder folder) (inl e) ]
    /\ o = Threw e.

(** A run that asked the vault to write [payload], once, and for no
    other write, and that ended as the host answered that write; or a
    run in which the host refused to create the folder of the file. *)
Definition wrote_only (payload : written) (tr : list event) (o : outcome unit)
  : Prop :=
  (exists p ans,
     writes tr = [(p, payload)]
     /\ write_answers tr = [ans]
     /\ o = match ans with inl e => Threw e | inr _ => Returned tt end)
  \/ folder_refused tr o.

(** A request that failed: at the network, or with a status from 400. *)
Definition failed_request (ev : event) : Prop :=
  match ev with
  | Event (RequestUrl _) (inl _) => True
  | Event (RequestUrl _) (inr r) => (400 <= status r)%N
  | _ => False
  end.

(** What a request becomes once the host has answered. *)
Definition request_outcome (ans : exn + Response) : outcome json :=
  match ans with
  | inl e => Threw e
  | inr r =>
      if (400 <=? status r)%N
      then Threw (Error (js "GitHub API Error: " ++ Api.error_message r))
      else Returned (response_json r)
  end.

(** The request by which [batchUpload] creates the blob of a file. *)
Definition blob_request (a : GitHubAPI) (encoded : jsstring) : RequestUrlParam :=
  {| url := Api.baseUrl a ++ js "/git/blobs"; method := Api.POST;
     headers := Api.api_headers a; throw := false;
     body := Some (JObj [ (js "content", JStr encoded);
                          (js "encoding", JStr (js "base64")) ]) |}.

(** In the trace, a blob was created from the content of the file, and
    the remote answered with the id [sha]. *)
Definition blob_created (a : GitHubAPI) (tr : list event)
  (file : Api.UploadFile) (sha : option jsstring) : Prop :=
  exists encoded response id,
    Api.encodeBase64 (Api.up_content file) = inr encoded
    /\ In (Event (RequestUrl (blob_request a encoded)) (inr response)) tr
    /\ (status response < 400)%N
    /\ prop (response_json response) (js "sha") = inr id
    /\ sha = as_string id.

(** The tree entry of a file: its content when the content is shorter
    than the threshold, else the id of a blob created from it. *)
Definition tree_entry_of (a : GitHubAPI) (tr : list event)
  (file : Api.UploadFile) (item : GitHubTreeItem) : Prop :=
  if (N.of_nat (length (Api.up_content file)) <? 100000)%N
  then item = {| ti_path := Api.up_path file; ti_mode := js "100644";
                 ti_type := type_blob; ti_sha := None;
                 ti_content := Some (Api.up_content file) |}
  else exists sha,
         item = {| ti_path := Api.up_path file; ti_mode := js "100644";
                   ti_type := type_blob; ti_sha := sha; ti_content := None |}
         /\ blob_created a tr file sha.

(** ** Operations in flight *)

(** A program run up to its next host call. *)
Inductive paused (A : Type) :=
| Done (o : outcome A)
| Waiting (X : Type) (e : IO X) (k : X -> Prog A).
Arguments Done {A} o.
Arguments Waiting {A X} e k.

Fixpoint advance {A} (p : Prog A) (s : SyncService) : SyncService * paused A :=
  match p with
  | Ret a => (s, Done (Returned a))
  | Throw e => (s, Done (Threw e))
  | Vis e k => (s, Waiting e k)
  | GetThis k => advance (k s) s
  | SetSyncing b k => advance k (set_syncing b s)
  end.

(** An operation waiting for the answer to a host call. *)
Inductive pending := Suspended (X : Type) (e : IO X) (k : X -> Prog SyncResult).
Arguments Suspended {X} e k.

(** One engine: the service object and the operations in flight. *)
Record system := {
  service : SyncService;
  in_flight : list pending
}.

(** What a step shows: an operation called, with its result when it
    returned at once; an answer delivered to an operation in flight, with
    its result when that ended it; new settings. *)
Inductive label :=
| Called (op : Service.operation) (returned : option (outcome SyncResult))
| Answered (returned : option (outcome SyncResult))
| Settings (st : GitSyncSettings).

(** The steps of an engine.  Every host call is a point where the
    operation may be suspended and another step may happen; the code
    between two host calls runs in one piece. *)
Inductive step : system -> label -> system -> Prop :=
| step_call_done sys op s' o :
    advance (Service.run_operation op) (service sys) = (s', Done o) ->
    step sys (Called op (Some o))
         {| service := s'; in_flight := in_flight sys |}
| step_call_wait sys op s' X (e : IO X) k :
    advance (Service.run_operation op) (service sys) = (s', Waiting e k) ->
    step sys (Called op None)
         {| service := s'; in_flight := in_flight sys ++ [Suspended e k] |}
| step_answer_done sys l1 l2 X (e : IO X) k (x : X) s' o :
    in_flight sys = l1 ++ Suspended e k :: l2 ->
    advance (k x) (service sys) = (s', Done o) ->
    step sys (Answered (Some o))
         {| service := s'; in_flight := l1 ++ l2 |}
| step_answer_wait sys l1 l2 X (e : IO X) k (x : X) s' Y (e' : IO Y) k' :
    in_flight sys = l1 ++ Suspended e k :: l2 ->
    advance (k x) (service sys) = (s', Waiting e' k') ->
    step sys (Answered None)
         {| service := s'; in_flight := l1 ++ Suspended e' k' :: l2 |}
| step_settings sys st :
    step sys (Settings st)
         {| service := Service.updateSettings (service sys) st;
            in_flight := in_flight sys |}.

(** The engines reached from a fresh service object. *)
Inductive reachable (dir : jsstring) (st : GitSyncSettings) : system -> Prop :=
| reach_init :
    reachable dir st {| service := Service.constructor dir st; in_flight := [] |}
| reach_step sys l sys' :
    reachable dir st sys -> step sys l sys' -> reachable dir st sys'.

(** A program that never sets the flag. *)
Inductive FlagFree {A} : Prog A -> Prop :=
| ff_ret a : FlagFree (Ret a)
| ff_throw e : FlagFree (Throw e)
| ff_vis X (e : IO X) k : (forall x, FlagFree (k x)) -> FlagFree (Vis e k)
| ff_get k : (forall s, FlagFree (k s)) -> FlagFree (GetThis k).

(** A program that clears the flag as its last step, whatever the answers
    of the host, and does not set it before. *)
Inductive Releasing {A} : Prog A -> Prop :=
| rel_ret a : Releasing (SetSyncing false (Ret a))
| rel_throw e : Releasing (SetSyncing false (Throw e))
| rel_vis X (e : IO X) k : (forall x, Releasing (k x)) -> Releasing (Vis e k)
| rel_get k : (forall s, Releasing (k s)) -> Releasing (GetThis k).

(** A program that never throws: every exception is handled inside. *)
Inductive NoThrow {A} : Prog A -> Prop :=
| nt_ret a : NoThrow (Ret a)
| nt_vis X (e : IO X) k : (forall x, NoThrow (k x)) -> NoThrow (Vis e k)
| nt_get k : (forall s, NoThrow (k s)) -> NoThrow (GetThis k)
| nt_set b k : NoThrow k -> NoThrow (SetSyncing b k).

(** Every value a program can return satisfies [P]. *)
Inductive Returns {A} (P : A -> Prop) : Prog A -> Prop :=
| rt_ret a : P a -> Returns P (Ret a)
| rt_throw e : Returns P (Throw e)
| rt_vis X (e : IO X) k : (forall x, Returns P (k x)) -> Returns P (Vis e k)
| rt_get k : (forall s, Returns P (k s)) -> Returns P (GetThis k)
| rt_set b k : Returns P k -> Returns P (SetSyncing b k).

(** An operation in flight clears the flag when it ends, whatever the
    answer it is waiting for. *)
Definition waits_to_release (t : pending) : Prop :=
  match t with
  | Suspended _ k => forall x, Releasing (k x)
  end.

(** At most one operation is in flight, it clears the flag when it ends,
    and the flag is set exactly while there is one. *)
Definition exclusive (sys : system) : Prop :=
  length (in_flight sys) <= 1
  /\ Forall waits_to_release (in_flight sys)
  /\ (isSyncing (service sys) = true <-> in_flight sys <> []).

(** The two results of a call that is turned away. *)
Definition not_configured : SyncResult :=
  {| success := false; message := js "GitHub not configured";
     filesUploaded := 0; filesDownloaded := 0; filesDeleted := 0 |}.

Definition busy : SyncResult :=
  {| success := false; message := js "Sync already in progress";
     filesUploaded := 0; filesDownloaded := 0; filesDeleted := 0 |}.

End Run.
Export Run.

(* ================================================================ *)
(** * A small host, to run the operations on concrete states *)
(* ================================================================ *)

Module Mock.

(** The remote repository as its endpoints show it, the vault, and the
    clock.  [online] and [fault] make every request fail, at the network
    or with an HTTP status. *)
Record world := {
  online : bool;
  fault : option N;
  base : jsstring;
  repository : bool;
  head : option jsstring;
  commits : list (jsstring * jsstring);
  trees : list (jsstring * list (jsstring * jsstring * jsstring));
  contents : list (jsstring * jsstring);
  files : list (TFile * written);
  folders : list jsstring;
  clock : Z
}.

Fixpoint assoc {V} (k : jsstring) (l : list (jsstring * V)) : option V :=
  match l with
  | [] => None
  | (k', v) :: rest => if JS.eqb k k' then Some v else assoc k rest
  end.

Definition strip (prefix s : jsstring) : option jsstring :=
  if startsWith s prefix then Some (skipn (length prefix) s) else None.

Definition answer (st : N) (j : json) : exn + Response :=
  inr {| status := st; response_json := j |}.

Definition not_found : exn + Response :=
  answer 404 (JObj [(js "message", JStr (js "Not Found"))]).

Definition entry_json (e : jsstring * jsstring * jsstring) : json :=
  let '(p, id, ty) := e in
  JObj [(js "path", JStr p); (js "sha", JStr id); (js "type", JStr ty)].

(** The answer of the repository's endpoints to a request below [base]. *)
Definition route (w : world) (meth rest : jsstring) : exn + Response :=
  let get := JS.eqb meth Api.GET in
  if JS.eqb rest (js "") then answer 200 (JObj [])
  else match strip (js "/git/refs/heads/") rest with
  | Some _ =>
      if get then
        match head w with
        | Some c => answer 200 (JObj [(js "object", JObj [(js "sha", JStr c)])])
        | None => answer 409 (JObj [(js "message",
                                      JStr (js "Git Repository is empty."))])
        end
      else answer 200 (JObj [])
  | None =>
  match strip (js "/git/commits/") rest with
  | Some c =>
      match assoc c (commits w) with
      | Some t => answer 200 (JObj [(js "tree", JObj [(js "sha", JStr t)])])
      | None => not_found
      end
  | None =>
  match strip (js "/git/trees/") rest with
  | Some t =>
      match assoc (split_first 63 t) (trees w) with
      | Some entries => answer 200 (JObj [(js "tree", JArr (map entry_json entries))])
      | None => not_found
      end
  | None =>
  match strip (js "/contents/") rest with
  | Some p =>
      if get then
        match assoc (split_first 63 p) (contents w) with
        | Some b64 =>
            answer 200 (JObj [(js "content", JStr b64);
                              (js "encoding", JStr (js "base64"));
                              (js "sha", JStr (js "blob-of-" ++ split_first 63 p))])
        | None => not_found
        end
      else answer 200 (JObj [])
  | None =>
      if JS.eqb rest (js "/git/blobs") then answer 201 (JObj [(js "sha", JStr (js "new-blob"))])
      else if JS.eqb rest (js "/git/trees") then answer 201 (JObj [(js "sha", JStr (js "new-tree"))])
      else if JS.eqb rest (js "/git/commits") then answer 201 (JObj [(js "sha", JStr (js "new-commit"))])
      else if JS.eqb rest (js "/git/refs") then answer 201 (JObj [])
      else not_found
  end end end end.

Definition respond (w : world) (p : RequestUrlParam) : exn + Response :=
  if negb (online w) then inl (Error (js "net::ERR_INTERNET_DISCONNECTED"))
  else match fault w with
  | Some st => answer st (JObj [(js "message", JStr (js "Request refused"))])
  | None =>
      if JS.eqb (url p) (js "https://api.github.com/user/repos")
      then answer 201 (JObj [])
      else match strip (base w) (url p) with
      | Some rest => if repository w then route w (method p) rest else not_found
      | None => not_found
      end
  end.

Fixpoint find_file (p : jsstring) (l : list (TFile * written)) : option (TFile * written) :=
  match l with
  | [] => None
  | (f, c) :: rest => if JS.eqb p (path f) then Some (f, c) else find_file p rest
  end.

Fixpoint store (f : TFile) (c : written) (l : list (TFile * written))
  : list (TFile * written) :=
  match l with
  | [] => [(f, c)]
  | (f', c') :: rest =>
      if JS.eqb (path f) (path f') then (f', c) :: rest
      else (f', c') :: store f c rest
  end.

(** The text after the last [c], the whole text when there is none. *)
Fixpoint after_last (c : N) (s : jsstring) : jsstring :=
  match s with
  | [] => []
  | x :: s' =>
      if existsb (N.eqb c) s' then after_last c s'
      else if N.eqb x c then s' else s
  end.

Definition file_at (p : jsstring) : TFile :=
  let n := after_last 47 p in
  {| path := p; name := n;
     extension := if existsb (N.eqb 46) n then after_last 46 n else [] |}.

Definition with_files (w : world) (l : list (TFile * written)) : world :=
  {| online := online w; fault := fault w; base := base w;
     repository := repository w; head := head w; commits := commits w;
     trees := trees w; contents := contents w; files := l;
     folders := folders w; clock := clock w |}.

Definition with_folders (w : world) (l : list jsstring) : world :=
  {| online := online w; fault := fault w; base := base w;
     repository := repository w; head := head w; commits := commits w;
     trees := trees w; contents := contents w; files := files w;
     folders := l; clock := clock w |}.

Definition missing : exn := Error (js "File not found").
Definition already_there : exn := Error (js "File already exists.").

Definition create (w : world) (p : jsstring) (c : written) : (exn + unit) * world :=
  match find_file p (files w) with
  | Some _ => (inl already_there, w)
  | None => (inr tt, with_files w (store (file_at p) c (files w)))
  end.

Definition modify (w : world) (f : TFile) (c : written) : (exn + unit) * world :=
  match find_file (path f) (files w) with
  | Some _ => (inr tt, with_files w (store f c (files w)))
  | None => (inl missing, w)
  end.

(** The host's answers. *)
Definition host : handler world :=
  fun X (e : IO X) (w : world) =>
    match e in IO X return X * world with
    | RequestUrl p => (respond w p, w)
    | VaultGetFiles => (map fst (files w), w)
    | VaultRead f =>
        match find_file (path f) (files w) with
        | Some (_, Text c) => (inr c, w)
        | Some (_, Binary d) => (inr (UTF8.decode (map Byte.to_N d)), w)
        | None => (inl missing, w)
        end
    | VaultReadBinary f =>
        match find_file (path f) (files w) with
        | Some (_, Binary d) => (inr d, w)
        | Some (_, Text c) => (inr (map UTF8.u8 (UTF8.encode c)), w)
        | None => (inl missing, w)
        end
    | VaultGetAbstractFileByPath p =>
        match find_file p (files w) with
        | Some (f, _) => (Some (AFile f), w)
        | None =>
            if existsb (JS.eqb p) (folders w) then (Some (AFolder p), w)
            else (None, w)
        end
    | VaultModify f c => modify w f (Text c)
    | VaultCreate p c => create w p (Text c)
    | VaultModifyBinary f d => modify w f (Binary d)
    | VaultCreateBinary p d => create w p (Binary d)
    | VaultCreateFolder p => (inr tt, with_folders w (p :: folders w))
    | NewNotice _ => (tt, w)
    | ConsoleError _ _ => (tt, w)
    | DateNow => (clock w, w)
    end.

End Mock.

(* ================================================================ *)
(** * Concrete states *)
(* ================================================================ *)

Module Scenario.

Definition alice_settings : GitSyncSettings := {|
  githubUsername := js "alice";
  githubToken := js "secret";
  repositoryName := js "vault";
  branch := js "main";
  autoSync := false;
  autoSyncInterval := 30;
  lastSyncTime := 0;
  excludedFolders := excludedFolders DEFAULT_SETTINGS;
  excludedFiles := excludedFiles DEFAULT_SETTINGS;
  commitMessage := commitMessage DEFAULT_SETTINGS
|}.

Definition alice : SyncService := Service.constructor (js ".obsidian") alice_settings.

Definition alice_api : GitHubAPI := {|
  api_username := js "alice";
  api_token := js "secret";
  api_repo := js "vault";
  api_branch := js "main"
|}.

(** A repository whose branch has one commit, holding a [.DS_Store] and
    a note; an empty vault.  The clock shows 2026-11-03 07:18:00.123. *)
Definition remote : Mock.world := {|
  Mock.online := true;
  Mock.fault := None;
  Mock.base := js "https://api.github.com/repos/alice/vault";
  Mock.repository := true;
  Mock.head := Some (js "c1");
  Mock.commits := [(js "c1", js "t1")];
  Mock.trees := [(js "t1", [ (js ".DS_Store", js "b1", js "blob");
                             (js "notes/a.md", js "b2", js "blob");
                             (js "notes", js "t2", js "tree") ])];
  Mock.contents := [ (js ".DS_Store", js "anVuaw==");
                     (js "notes%2Fa.md", js "aGVsbG8=") ];
  Mock.files := [];
  Mock.folders := [];
  Mock.clock := 1793690280123
|}.

(** The same repository behind a network that is down. *)
Definition unreachable : Mock.world := {|
  Mock.online := false;
  Mock.fault := Mock.fault remote;
  Mock.base := Mock.base remote;
  Mock.repository := Mock.repository remote;
  Mock.head := Mock.head remote;
  Mock.commits := Mock.commits remote;
  Mock.trees := Mock.trees remote;
  Mock.contents := Mock.contents remote;
  Mock.files := Mock.files remote;
  Mock.folders := Mock.folders remote;
  Mock.clock := Mock.clock remote
|}.

(** The same repository answering every request with a status 401. *)
Definition unauthorized : Mock.world := {|
  Mock.online := true;
  Mock.fault := Some 401%N;
  Mock.base := Mock.base remote;
  Mock.repository := Mock.repository remote;
  Mock.head := Mock.head remote;
  Mock.commits := Mock.commits remote;
  Mock.trees := Mock.trees remote;
  Mock.contents := Mock.contents remote;
  Mock.files := Mock.files remote;
  Mock.folders := Mock.folders remote;
  Mock.clock := Mock.clock remote
|}.

(** A repository whose head commit cannot be read. *)
Definition broken_head : Mock.world := {|
  Mock.online := true;
  Mock.fault := None;
  Mock.base := Mock.base remote;
  Mock.repository := true;
  Mock.head := Some (js "c1");
  Mock.commits := [];
  Mock.trees := [];
  Mock.contents := [];
  Mock.files := [];
  Mock.folders := [];
  Mock.clock := Mock.clock remote
|}.

(** A repository without any commit. *)
Definition empty_repository : Mock.world := {|
  Mock.online := true;
  Mock.fault := None;
  Mock.base := Mock.base remote;
  Mock.repository := true;
  Mock.head := None;
  Mock.commits := [];
  Mock.trees := [];
  Mock.contents := [];
  Mock.files := [];
  Mock.folders := [];
  Mock.clock := Mock.clock remote
|}.

(** The engine after [sync] has been called on a fresh service object:
    the operation waits for the answer to its first host call. *)
Definition syncing_engine : system :=
  match advance Service.sync alice with
  | (s', Waiting e k) => {| service := s'; in_flight := [Suspended e k] |}
  | (s', Done _) => {| service := s'; in_flight := [] |}
  end.

(** A picture, with bytes that are no text, in a vault of its own. *)
Definition picture : TFile :=
  {| path := js "img.png"; name := js "img.png"; extension := js "png" |}.

Definition picture_bytes : list UTF8.byte :=
  [Byte.x89; Byte.x50; Byte.x4e; Byte.x47; Byte.x00; Byte.xff; Byte.xfe; Byte.x80].

Definition vault_with_picture : Mock.world :=
  Mock.with_files empty_repository [(picture, Binary picture_bytes)].

(** A short file and one of 100000 characters. *)
Definition short_file : Api.UploadFile :=
  {| Api.up_path := js "notes/a.md"; Api.up_content := js "hello" |}.

Definition long_file : Api.UploadFile :=
  {| Api.up_path := js "notes/long.md";
     Api.up_content := repeat 97%N (N.to_nat 100000) |}.

End Scenario.

(* ================================================================ *)
(** * What the host calls of a program can be *)
(* ================================================================ *)

Module Observe.

(** Every host call a program can make satisfies [Q], as long as the
    service object satisfies [I] when its fields are read. *)
Inductive Emits (I : SyncService -> Prop) (Q : forall X, IO X -> Prop) {A}
  : Prog A -> Prop :=
| em_ret a : Emits I Q (Ret a)
| em_throw e : Emits I Q (Throw e)
| em_vis X (e : IO X) k :
    Q X e -> (forall x, Emits I Q (k x)) -> Emits I Q (Vis e k)
| em_get k : (forall s, I s -> Emits I Q (k s)) -> Emits I Q (GetThis k)
| em_set b k : Emits I Q k -> Emits I Q (SetSyncing b k).

(** [Q] holds of the call of an event. *)
Definition shown (Q : forall X, IO X -> Prop) (ev : event) : Prop :=
  match ev with
  | Event e _ => Q _ e
  end.

Definition any_service (s : SyncService) : Prop := True.

Definition configured_with (a : GitHubAPI) (s : SyncService) : Prop :=
  api s = Some a.

(** A call that only reads the remote: no request but a GET. *)
Definition reads_remote (X : Type) (e : IO X) : Prop :=
  match e with
  | RequestUrl p => method p = Api.GET
  | _ => True
  end.

(** A call that changes nothing in the vault. *)
Definition leaves_vault (X : Type) (e : IO X) : Prop :=
  match e with
  | VaultModify _ _ | VaultCreate _ _ | VaultModifyBinary _ _
  | VaultCreateBinary _ _ | VaultCreateFolder _ => False
  | _ => True
  end.

(** A call that is no DELETE and no PUT request. *)
Definition no_delete_no_put (X : Type) (e : IO X) : Prop :=
  match e with
  | RequestUrl p => method p <> Api.DELETE /\ method p <> Api.PUT
  | _ => True
  end.

(** A request goes to the repository of [a] or to the endpoint that
    creates repositories, with the headers of [a], and with [throw] off. *)
Definition to_repository (a : GitHubAPI) (X : Type) (e : IO X) : Prop :=
  match e with
  | RequestUrl p =>
      (startsWith (url p) (Api.baseUrl a) = true
       \/ url p = js "https://api.github.com/user/repos")
      /\ headers p = Api.api_headers a /\ throw p = false
  | _ => True
  end.

(** The folders a trace creates in the vault. *)
Fixpoint created_folders (tr : list event) : list jsstring :=
  match tr with
  | [] => []
  | Event (VaultCreateFolder p) _ :: tr' => p :: created_folders tr'
  | _ :: tr' => created_folders tr'
  end.

End Observe.
Export Observe.

(* ================================================================ *)
(** * Requests and their answers *)
(* ================================================================ *)

Module Requests.

(** The request a method of [GitHubAPI] sends through [request]. *)
Definition sent (a : GitHubAPI) (u m : jsstring) (b : option json)
  : RequestUrlParam :=
  {| url := u; method := m; headers := Api.api_headers a; throw := false;
     body := b |}.

(** The answer of the host to a request, and the host after it. *)
Definition answer {W} (h : handler W) (p : RequestUrlParam) (w : W)
  : exn + Response :=
  fst (h _ (RequestUrl p) w).

Definition after {W} (h : handler W) (p : RequestUrlParam) (w : W) : W :=
  snd (h _ (RequestUrl p) w).

(** An answer that [request] does not turn into an exception. *)
Definition succeeded (ans : exn + Response) : bool :=
  match ans with
  | inl _ => false
  | inr r => (status r <? 400)%N
  end.

(** The id in the answer to a lookup, as [getFileSha] reads it. *)
Definition found_sha (ans : exn + Response) : option jsstring :=
  match request_outcome ans with
  | Returned response =>
      match prop response (js "sha") with
      | inr sha => as_string sha
      | inl _ => None
      end
  | Threw _ => None
  end.

(** An entry of a tree listing: its path, its id and its type; whether
    it stands for a file; and the file it stands for. *)
Definition entry_is_blob (e : jsstring * jsstring * jsstring) : bool :=
  let '(_, _, ty) := e in JS.eqb ty (js "blob").

Definition file_of_entry (e : jsstring * jsstring * jsstring) : GitHubFile :=
  let '(p, id, _) := e in
  {| gf_path := p; gf_sha := id; gf_content := None; gf_type := type_file |}.

(** The entry a JSON item of a listing carries, when it has the three
    fields as strings. *)
Definition entry_of (item : json) : option (jsstring * jsstring * jsstring) :=
  match prop item (js "path"), prop item (js "sha"), prop item (js "type") with
  | inr (JStr p), inr (JStr id), inr (JStr ty) => Some (p, id, ty)
  | _, _, _ => None
  end.

Fixpoint entries_of (items : list json)
  : option (list (jsstring * jsstring * jsstring)) :=
  match items with
  | [] => Some []
  | item :: rest =>
      match entry_of item, entries_of rest with
      | Some e, Some l => Some (e :: l)
      | _, _ => None
      end
  end.

(** The requests of [batchUpload]: the lookup of the head of the
    branch, the creation of the tree and the creation of the commit. *)
Definition head_lookup (a : GitHubAPI) : RequestUrlParam :=
  sent a (Api.baseUrl a ++ js "/git/refs/heads/" ++ api_branch a) Api.GET None.

Definition tree_creation (a : GitHubAPI) (baseTreeSha : option jsstring)
  (items : list GitHubTreeItem) : RequestUrlParam :=
  sent a (Api.baseUrl a ++ js "/git/trees") Api.POST
    (Some (JObj ([ (js "tree", JArr (map Api.tree_item_json items)) ]
                 ++ (if truthy baseTreeSha
                     then [(js "base_tree", Api.str_field baseTreeSha)]
                     else [])))).

Definition commit_creation (a : GitHubAPI) (message : jsstring)
  (treeSha parentSha : option jsstring) : RequestUrlParam :=
  sent a (Api.baseUrl a ++ js "/git/commits") Api.POST
    (Some (JObj ([ (js "message", JStr message);
                   (js "tree", Api.str_field treeSha) ]
                 ++ (if truthy parentSha
                     then [(js "parents", JArr [Api.str_field parentSha])]
                     else [])))).

(** The id of the head in the answer to its lookup, as
    [getLatestCommitSha] reads it. *)
Definition found_head (ans : exn + Response) : option jsstring :=
  match request_outcome ans with
  | Returned response =>
      match prop response (js "object") with
      | inr object =>
          match prop object (js "sha") with
          | inr sha => as_string sha
          | inl _ => None
          end
      | inl _ => None
      end
  | Threw _ => None
  end.

(** The id in the answer to a creation, as [createTree] and
    [createCommit] read it, or the exception they throw. *)
Definition created_id (ans : exn + Response) : exn + option jsstring :=
  match request_outcome ans with
  | Returned response =>
      match prop response (js "sha") with
      | inr sha => inr (as_string sha)
      | inl e => inl e
      end
  | Threw e => inl e
  end.

(** A request that moves the branch: the update of its reference, or the
    creation of a reference. *)
Definition moves_branch (a : GitHubAPI) (p : RequestUrlParam) : bool :=
  (JS.eqb (method p) Api.PATCH
   && JS.eqb (url p) (Api.baseUrl a ++ js "/git/refs/heads/" ++ api_branch a))
  || (JS.eqb (method p) Api.POST
      && JS.eqb (url p) (Api.baseUrl a ++ js "/git/refs")).

(** A host call that does not move the branch. *)
Definition keeps_branch (a : GitHubAPI) (X : Type) (e : IO X) : Prop :=
  match e with
  | RequestUrl p => moves_branch a p = false
  | _ => True
  end.

(** In the trace, the request was answered with the id. *)
Definition answered (tr : list event) (p : RequestUrlParam)
  (id : option jsstring) : Prop :=
  exists ans, In (Event (RequestUrl p) ans) tr /\ created_id ans = inr id.

(** A request that starts a history: when it creates a tree, the tree has
    no base, and when it creates a commit, the commit has no parent. *)
Definition starts_history (a : GitHubAPI) (message : jsstring)
  (p : RequestUrlParam) : Prop :=
  (url p = Api.baseUrl a ++ js "/git/trees" ->
   exists items,
     body p = Some (JObj [(js "tree", JArr (map Api.tree_item_json items))]))
  /\ (url p = Api.baseUrl a ++ js "/git/commits" ->
      exists tree,
        body p = Some (JObj [ (js "message", JStr message);
                              (js "tree", Api.str_field tree) ])).

Definition starting_history (a : GitHubAPI) (message : jsstring)
  (X : Type) (e : IO X) : Prop :=
  match e with
  | RequestUrl p => starts_history a message p
  | _ => True
  end.

(** The listings of the vault a trace shows. *)
Fixpoint listed (tr : list event) : list (list TFile) :=
  match tr with
  | [] => []
  | Event VaultGetFiles files :: tr' => files :: listed tr'
  | _ :: tr' => listed tr'
  end.

(** A host call that does not list the vault. *)
Definition lists_nothing (X : Type) (e : IO X) : Prop :=
  match e with
  | VaultGetFiles => False
  | _ => True
  end.

(** A host call that is no request. *)
Definition requests_nothing (X : Type) (e : IO X) : Prop :=
  match e with
  | RequestUrl _ => False
  | _ => True
  end.

(** The request by which the content of a path is fetched. *)
Definition fetch_of (a : GitHubAPI) (p : jsstring) (q : RequestUrlParam) : Prop :=
  exists u, Api.contents_url a p = inr u
            /\ q = sent a (u ++ js "?ref=" ++ api_branch a) Api.GET None.

(** A host call that is no request to the contents endpoint. *)
Definition fetches_nothing (a : GitHubAPI) (X : Type) (e : IO X) : Prop :=
  match e with
  | RequestUrl p =>
      startsWith (url p) (Api.baseUrl a ++ js "/contents/") = false
  | _ => True
  end.

(** A request that, when it goes to the contents endpoint, fetches a
    path outside the excluded folders that no kept file of [files] has. *)
Definition fetches_missing (a : GitHubAPI) (s : SyncService)
  (files : list TFile) (q : RequestUrlParam) : Prop :=
  startsWith (url q) (Api.baseUrl a ++ js "/contents/") = true ->
  exists p,
    fetch_of a p q
    /\ Service.in_excluded_folder s p = false
    /\ forall f, In f files -> Service.vault_file_kept s f = true ->
                 path f <> p.

End Requests.
Export Requests.

(* ================================================================ *)
(** * More concrete states *)
(* ================================================================ *)

Module Cases.

(** The repository of [Scenario.remote] with one more file, which is
    empty. *)
Definition with_empty_file : Mock.world := {|
  Mock.online := true;
  Mock.fault := None;
  Mock.base := Mock.base Scenario.remote;
  Mock.repository := true;
  Mock.head := Some (js "c1");
  Mock.commits := [(js "c1", js "t1")];
  Mock.trees := [(js "t1", [ (js "notes/a.md", js "b2", js "blob");
                             (js "empty.md", js "b3", js "blob") ])];
  Mock.contents := [ (js "notes%2Fa.md", js "aGVsbG8=");
                     (js "empty.md", []) ];
  Mock.files := [];
  Mock.folders := [];
  Mock.clock := Mock.clock Scenario.remote
|}.

(** A vault with two notes and a file the default settings exclude,
    beside the repository of [Scenario.remote]. *)
Definition note (p c : string) : TFile * written :=
  (Mock.file_at (js p), Text (js c)).

Definition vault_with_notes : Mock.world :=
  Mock.with_files Scenario.remote
    [ note "notes/a.md" "hello"; note "todo.md" "- [ ] write";
      note ".DS_Store" "junk" ].

(** The engine of [Scenario.alice] with a commit message that has the
    date token twice. *)
Definition dating_twice : SyncService :=
  Service.constructor (js ".obsidian") {|
    githubUsername := js "alice";
    githubToken := js "secret";
    repositoryName := js "vault";
    branch := js "main";
    autoSync := false;
    autoSyncInterval := 30;
    lastSyncTime := 0;
    excludedFolders := excludedFolders DEFAULT_SETTINGS;
    excludedFiles := excludedFiles DEFAULT_SETTINGS;
    commitMessage := js "{{date}} / {{date}}"
  |}.

(** A file of 60000 times the letter U+00E9: 60000 code units, 120000
    bytes of UTF-8. *)
Definition accented_file : Api.UploadFile :=
  {| Api.up_path := js "notes/accents.md";
     Api.up_content := repeat 233%N (N.to_nat 60000) |}.

End Cases.

(* ================================================================ *)
(** * The plugin: [main.ts] *)
(* ================================================================ *)

Module Plugin.

(** The fields of the plugin object.  The plugin gives its settings
    object to the service ([new SyncService(this.app, this.settings)],
    line 14, and [updateSettings(this.settings)], line 96): the plugin's
    [this.settings] and the service's are one object, held here in the
    service. *)
Record GitSyncPlugin := {
  syncService : SyncService;
  autoSyncIntervalId : option Z
}.

Definition plugin_settings (p : GitSyncPlugin) : GitSyncSettings :=
  settings (syncService p).

(** The host calls of the plugin: those of the service, and [saveData],
    the timers and [console.debug].  [Begin e] is the call [e] made by
    code that does not wait for the answer: the host takes the call, and
    the answer comes after the caller has returned. *)
Inductive PluginIO : Type -> Type :=
| HostCall (X : Type) (e : IO X) : PluginIO X
| SaveData (st : GitSyncSettings) : PluginIO (exn + unit)
| SetInterval (ms : N) : PluginIO Z
| ClearInterval (id : Z) : PluginIO unit
| RegisterInterval (id : Z) : PluginIO unit
| ConsoleDebug (msg : jsstring) : PluginIO unit
| Begin (X : Type) (e : PluginIO X) : PluginIO unit.
Arguments HostCall {X} e.
Arguments Begin {X} e.

(** The host calls that answer with a promise, which the code awaits:
    [requestUrl] and the calls of the vault that read or write.  The
    others ([getFiles], [getAbstractFileByPath], [new Notice],
    [console.error], [Date.now]) answer at once. *)
Definition awaits {X} (e : IO X) : bool :=
  match e with
  | RequestUrl _ => true
  | VaultRead _ => true
  | VaultReadBinary _ => true
  | VaultModify _ _ => true
  | VaultCreate _ _ => true
  | VaultModifyBinary _ _ => true
  | VaultCreateBinary _ _ => true
  | VaultCreateFolder _ => true
  | VaultGetFiles => false
  | VaultGetAbstractFileByPath _ => false
  | NewNotice _ => false
  | ConsoleError _ _ => false
  | DateNow => false
  end.

Definition awaited {X} (e : PluginIO X) : bool :=
  match e with
  | HostCall e' => awaits e'
  | SaveData _ => true
  | _ => false
  end.

(** A callback of the plugin is a tree, as a method of the service is:
    it ends, throws, calls the host, reads the plugin object or stores
    it. *)
Inductive Act (A : Type) : Type :=
| Finish (a : A)
| Raise (e : exn)
| Ask (X : Type) (e : PluginIO X) (k : X -> Act A)
| Fetch (k : GitSyncPlugin -> Act A)
| Store (p : GitSyncPlugin) (k : Act A).
Arguments Finish {A} a.
Arguments Raise {A} e.
Arguments Ask {A X} e k.
Arguments Fetch {A} k.
Arguments Store {A} p k.

Fixpoint and_then {A B} (p : Act A) (f : A -> Act B) : Act B :=
  match p with
  | Finish a => f a
  | Raise e => Raise e
  | Ask e k => Ask e (fun x => and_then (k x) f)
  | Fetch k => Fetch (fun pl => and_then (k pl) f)
  | Store pl k => Store pl (and_then k f)
  end.

(** An asynchronous function that is started and not awaited, as seen
    by its caller: the function runs inside the caller up to the first
    host call whose answer it awaits; that call is made, and the caller
    goes on.  What the function does with the answer happens after the
    caller has returned, and neither its result nor what it throws
    reaches the caller. *)
Fixpoint begun {A} (p : Act A) : Act unit :=
  match p with
  | Finish _ => Finish tt
  | Raise _ => Finish tt
  | Ask e k =>
      if awaited e then Ask (Begin e) (fun _ => Finish tt)
      else Ask e (fun x => begun (k x))
  | Fetch k => Fetch (fun pl => begun (k pl))
  | Store pl k => Store pl (begun k)
  end.

(** A method of the service called on [this.syncService]. *)
Fixpoint service_call {A} (p : Prog A) : Act A :=
  match p with
  | Ret a => Finish a
  | Throw e => Raise e
  | Vis e k => Ask (HostCall e) (fun x => service_call (k x))
  | GetThis k => Fetch (fun pl => service_call (k (syncService pl)))
  | SetSyncing b k =>
      Fetch (fun pl =>
        Store {| syncService := set_syncing b (syncService pl);
                 autoSyncIntervalId := autoSyncIntervalId pl |}
          (service_call k))
  end.

Definition notice (msg : jsstring) : Act unit :=
  Ask (HostCall (NewNotice msg)) (fun _ => Finish tt).

(** [this.settings.lastSyncTime = now]: a field of the one settings
    object; the API object of the service stays as it is. *)
Definition with_lastSyncTime (st : GitSyncSettings) (now : Z) : GitSyncSettings :=
  {| githubUsername := githubUsername st; githubToken := githubToken st;
     repositoryName := repositoryName st; branch := branch st;
     autoSync := autoSync st; autoSyncInterval := autoSyncInterval st;
     lastSyncTime := now;
     excludedFolders := excludedFolders st;
     excludedFiles := excludedFiles st;
     commitMessage := commitMessage st |}.

Definition set_lastSyncTime (pl : GitSyncPlugin) (now : Z) : GitSyncPlugin :=
  {| syncService :=
       {| configDir := configDir (syncService pl);
          settings := with_lastSyncTime (plugin_settings pl) now;
          api := api (syncService pl);
          isSyncing := isSyncing (syncService pl) |};
     autoSyncIntervalId := autoSyncIntervalId pl |}.

(** [saveSettings] (lines 92-98) *)
Definition saveSettings : Act unit :=
  Fetch (fun pl =>
    Ask (SaveData (plugin_settings pl)) (fun saved =>
      match saved with
      | inl e => Raise e
      | inr _ =>
          Fetch (fun pl =>
            Store {| syncService :=
                       Service.updateSettings (syncService pl)
                         (plugin_settings pl);
                     autoSyncIntervalId := autoSyncIntervalId pl |}
              (Finish tt))
      end)).

(** [this.settings.lastSyncTime = Date.now(); await this.saveSettings()],
    the end of every callback that ran an operation. *)
Definition record_sync_time : Act unit :=
  Ask (HostCall DateNow) (fun now =>
    Fetch (fun pl => Store (set_lastSyncTime pl now) saveSettings)).

Definition not_configured_notice : jsstring :=
  js "Please configure GitHub settings first.".

(** The callbacks of the commands [push], [pull] and [sync]
    (lines 32-72). *)
Definition command (op : Service.operation) : Act unit :=
  Fetch (fun pl =>
    if negb (Service.isConfigured (syncService pl))
    then notice not_configured_notice
    else and_then (service_call (Service.run_operation op))
           (fun _ => record_sync_time)).

(** The callback of the ribbon icon (lines 17-29). *)
Definition ribbon : Act unit :=
  Fetch (fun pl =>
    if negb (Service.isConfigured (syncService pl))
    then notice not_configured_notice
    else
      Fetch (fun pl =>
        if Service.isBusy (syncService pl)
        then notice (js "Sync already in progress.")
        else and_then (service_call Service.sync) (fun _ => record_sync_time))).

(** [clearAutoSync] (lines 122-127) *)
Definition clearAutoSync : Act unit :=
  Fetch (fun pl =>
    match autoSyncIntervalId pl with
    | Some id =>
        Ask (ClearInterval id) (fun _ =>
          Fetch (fun pl =>
            Store {| syncService := syncService pl;
                     autoSyncIntervalId := None |} (Finish tt)))
    | None => Finish tt
    end).

(** The asynchronous function of the timer (lines 109-113), run to its
    end: [sync], and then the time is recorded as after a command. *)
Definition auto_sync : Act unit :=
  and_then (service_call Service.sync) (fun _ => record_sync_time).

(** The function [setupAutoSync] gives to [setInterval]
    (lines 106-115).  It starts the asynchronous function and returns
    without waiting for it.  The first [await] of that function is that
    of [this.syncService.sync()]: the function goes on after it in a later
    turn, also when [sync] has returned at once, so that what the timer
    callback runs of it is [sync] up to the first host call [sync]
    awaits, and nothing of the two statements after [sync]. *)
Definition tick : Act unit :=
  Fetch (fun pl =>
    if negb (Service.isBusy (syncService pl)) then
      Ask (ConsoleDebug (js "GitSync: Running auto-sync...")) (fun _ =>
        begun (service_call Service.sync))
    else Finish tt).

(** [setupAutoSync] (lines 100-120); the minutes are a whole number. *)
Definition setupAutoSync : Act unit :=
  and_then clearAutoSync (fun _ =>
    Fetch (fun pl =>
      if autoSync (plugin_settings pl)
         && Service.isConfigured (syncService pl)
      then
        let intervalMs := (autoSyncInterval (plugin_settings pl) * 60 * 1000)%N in
        Ask (SetInterval intervalMs) (fun id =>
          Fetch (fun pl =>
            Store {| syncService := syncService pl;
                     autoSyncIntervalId := Some id |}
              (Ask (RegisterInterval id) (fun _ => Finish tt))))
      else Finish tt)).

(** [onunload] (lines 83-86) *)
Definition onunload : Act unit :=
  and_then clearAutoSync (fun _ =>
    Ask (ConsoleDebug (js "GitSync plugin unloaded")) (fun _ => Finish tt)).

(** The callbacks the plugin registers, and its own methods. *)
Inductive callback :=
| Ribbon
| Command (op : Service.operation)
| Tick
| SaveSettings
| SetupAutoSync
| Unload.

Definition run_callback (cb : callback) : Act unit :=
  match cb with
  | Ribbon => ribbon
  | Command op => command op
  | Tick => tick
  | SaveSettings => saveSettings
  | SetupAutoSync => setupAutoSync
  | Unload => onunload
  end.

(** ** Running callbacks *)

Inductive happening := Happened (X : Type) (e : PluginIO X) (x : X).
Arguments Happened {X} e x.

Definition plugin_host (W : Type) := forall X, PluginIO X -> W -> X * W.

Record ending (W A : Type) := {
  final_plugin : GitSyncPlugin;
  final_host : W;
  happened : list happening;
  ended : outcome A
}.
Arguments final_plugin {W A} _.
Arguments final_host {W A} _.
Arguments happened {W A} _.
Arguments ended {W A} _.

(** A callback run to its end against a host. *)
Fixpoint perform {W A} (h : plugin_host W) (p : Act A) (pl : GitSyncPlugin)
  (w : W) : ending W A :=
  match p with
  | Finish a => {| final_plugin := pl; final_host := w; happened := [];
                   ended := Returned a |}
  | Raise e => {| final_plugin := pl; final_host := w; happened := [];
                  ended := Threw e |}
  | Ask e k =>
      let '(x, w') := h _ e w in
      let r := perform h (k x) pl w' in
      {| final_plugin := final_plugin r; final_host := final_host r;
         happened := Happened e x :: happened r; ended := ended r |}
  | Fetch k => perform h (k pl) pl w
  | Store pl' k => perform h k pl' w
  end.

(** The host of the service inside the host of the plugin. *)
Definition service_host {W} (h : plugin_host W) : handler W :=
  fun X e w => h X (HostCall e) w.

Definition of_event (ev : event) : happening :=
  match ev with
  | Event e x => Happened (HostCall e) x
  end.

(** The timers a run leaves alive, [live] being those alive before. *)
Fixpoint timers (tr : list happening) (live : list Z) : list Z :=
  match tr with
  | [] => live
  | Happened (SetInterval _) id :: tr' => timers tr' (live ++ [id])
  | Happened (ClearInterval id) _ :: tr' =>
      timers tr' (filter (fun i => negb (Z.eqb i id)) live)
  | _ :: tr' => timers tr' live
  end.

(** The timer the plugin knows of. *)
Definition known_timers (pl : GitSyncPlugin) : list Z :=
  match autoSyncIntervalId pl with
  | Some id => [id]
  | None => []
  end.

(** The settings the run saved, in order. *)
Fixpoint saved (tr : list happening) : list GitSyncSettings :=
  match tr with
  | [] => []
  | Happened (SaveData st) _ :: tr' => st :: saved tr'
  | _ :: tr' => saved tr'
  end.

(** A program that comes to a host call it awaits before it ends,
    throws or sets the flag, whatever the host answers before, as long
    as the service object satisfies [I] when its fields are read. *)
Inductive Pausing (I : SyncService -> Prop) {A} : Prog A -> Prop :=
| pausing_await X (e : IO X) k :
    awaits e = true -> Pausing I (Vis e k)
| pausing_call X (e : IO X) k :
    awaits e = false -> (forall x, Pausing I (k x)) -> Pausing I (Vis e k)
| pausing_get k :
    (forall s, I s -> Pausing I (k s)) -> Pausing I (GetThis k).

End Plugin.

(* ================================================================ *)
(** * Concrete plugins *)
(* ================================================================ *)

Module PluginCases.
(** A host of the plugin around a host of the service: saving succeeds,
    every timer gets the id 1, and a call that is not waited for is
    taken and left pending. *)
Definition plugin_host_around {W} (h : handler W) : Plugin.plugin_host W :=
  fun X (e : Plugin.PluginIO X) (w : W) =>
    match e in Plugin.PluginIO X return X * W with
    | Plugin.HostCall e' => h _ e' w
    | Plugin.SaveData _ => (inr tt, w)
    | Plugin.SetInterval _ => (1%Z, w)
    | Plugin.ClearInterval _ => (tt, w)
    | Plugin.RegisterInterval _ => (tt, w)
    | Plugin.ConsoleDebug _ => (tt, w)
    | Plugin.Begin _ => (tt, w)
    end.

(** The plugin of [Scenario.alice], without timer; the same while a
    sync is in progress; and with automatic sync switched on and a timer
    running. *)
Definition alice_plugin : Plugin.GitSyncPlugin :=
  {| Plugin.syncService := Scenario.alice; Plugin.autoSyncIntervalId := None |}.

Definition busy_plugin : Plugin.GitSyncPlugin :=
  {| Plugin.syncService := set_syncing true Scenario.alice;
     Plugin.autoSyncIntervalId := None |}.

Definition automatic_settings : GitSyncSettings :=
  {| githubUsername := js "alice"; githubToken := js "secret";
     repositoryName := js "vault"; branch := js "main";
     autoSync := true; autoSyncInterval := 30; lastSyncTime := 0;
     excludedFolders := excludedFolders DEFAULT_SETTINGS;
     excludedFiles := excludedFiles DEFAULT_SETTINGS;
     commitMessage := commitMessage DEFAULT_SETTINGS |}.

Definition automatic_plugin : Plugin.GitSyncPlugin :=
  {| Plugin.syncService := Service.constructor (js ".obsidian") automatic_settings;
     Plugin.autoSyncIntervalId := Some 7%Z |}.

End PluginCases.

(* ================================================================ *)
(** * Facts about strings *)
(* ================================================================ *)

Module JSFacts.

Lemma eqb_refl (s : jsstring) : JS.eqb s s = true.
Proof. induction s; simpl; [reflexivity|]. now rewrite N.eqb_refl. Qed.

Lemma eqb_eq (a b : jsstring) : JS.eqb a b = true <-> a = b.
Proof.
  split.
  - revert b; induction a as [|x a IH]; intros [|y b]; simpl; try discriminate; auto.
    intros H. apply andb_true_iff in H as [H1 H2].
    apply N.eqb_eq in H1. f_equal; auto.
  - intros ->. apply eqb_refl.
Qed.

Lemma startsWith_app (p s : jsstring) : startsWith (p ++ s) p = true.
Proof. induction p; simpl; [reflexivity|]. now rewrite N.eqb_refl. Qed.

Lemma startsWith_iff (s p : jsstring) :
  startsWith s p = true <-> exists post, s = p ++ post.
Proof.
  split.
  - revert s; induction p as [|y p IH]; intros s H.
    + now exists s.
    + destruct s as [|x s]; simpl in H; [discriminate|].
      apply andb_true_iff in H as [H1 H2]. apply N.eqb_eq in H1. subst.
      destruct (IH _ H2) as [post ->]. now exists post.
  - intros [post ->]. apply startsWith_app.
Qed.

Lemma endsWith_app (s p : jsstring) : endsWith (s ++ p) p = true.
Proof.
  unfold endsWith. rewrite length_app.
  replace (length s + length p - length p)%nat with (length s + 0)%nat by lia.
  rewrite skipn_app. rewrite Nat.add_0_r, Nat.sub_diag.
  rewrite skipn_all. simpl. rewrite eqb_refl.
  apply andb_true_iff; split; [apply Nat.leb_le; lia | reflexivity].
Qed.

Lemma endsWith_iff (s p : jsstring) :
  endsWith s p = true <-> exists pre, s = pre ++ p.
Proof.
  split.
  - unfold endsWith. intros H. apply andb_true_iff in H as [H1 H2].
    apply eqb_eq in H2. exists (firstn (length s - length p) s).
    rewrite <- (firstn_skipn (length s - length p) s) at 1. now rewrite H2.
  - intros [pre ->]. apply endsWith_app.
Qed.

End JSFacts.

(* ================================================================ *)
(** * Base64: decoding undoes encoding *)
(* ================================================================ *)

Module Base64Facts.
Import Base64.

(** Induction over a list three elements at a time. *)
Lemma list_ind3 {A} (P : list A -> Prop) :
  P [] -> (forall a, P [a]) -> (forall a b, P [a; b]) ->
  (forall a b c l, P l -> P (a :: b :: c :: l)) ->
  forall l, P l.
Proof.
  intros H0 H1 H2 H3.
  fix IH 1. intros [|a [|b [|c l]]].
  - exact H0.
  - apply H1.
  - apply H2.
  - apply H3. apply IH.
Qed.

Lemma sextets_bound (l : list N) : Forall octet l -> Forall sextet (sextets l).
Proof.
  unfold octet, sextet.
  induction l as [| a | a b | a b c l IH] using list_ind3; intros H; simpl.
  - constructor.
  - inversion_clear H. repeat constructor; lia.
  - inversion_clear H as [|? ? Ha H']. inversion_clear H' as [|? ? Hb _].
    repeat constructor; lia.
  - inversion_clear H as [|? ? Ha H']. inversion_clear H' as [|? ? Hb H''].
    inversion_clear H'' as [|? ? Hc Hl].
    repeat (constructor; [lia|]). auto.
Qed.

Lemma octets_sextets (l : list N) : Forall octet l -> octets (sextets l) = l.
Proof.
  unfold octet.
  induction l as [| a | a b | a b c l IH] using list_ind3; intros H; simpl.
  - reflexivity.
  - inversion_clear H. f_equal. lia.
  - inversion_clear H as [|? ? Ha H']. inversion_clear H' as [|? ? Hb _].
    f_equal; [lia|]. f_equal. lia.
  - inversion_clear H as [|? ? Ha H']. inversion_clear H' as [|? ? Hb H''].
    inversion_clear H'' as [|? ? Hc Hl].
    rewrite IH by assumption.
    f_equal; [lia|]. f_equal; [lia|]. f_equal. lia.
Qed.

Lemma sextet_of_char_of_sextet (x : N) :
  sextet x -> sextet_of_char (char_of_sextet x) = Some x.
Proof.
  unfold sextet, sextet_of_char, char_of_sextet. intros H.
  destruct (x <? 26)%N eqn:E1.
  { apply N.ltb_lt in E1.
    replace ((65 <=? 65 + x) && (65 + x <=? 90))%N with true.
    - f_equal. lia.
    - symmetry. apply andb_true_iff. split; apply N.leb_le; lia. }
  apply N.ltb_ge in E1.
  destruct (x <? 52)%N eqn:E2.
  { apply N.ltb_lt in E2.
    replace ((65 <=? 97 + (x - 26)) && (97 + (x - 26) <=? 90))%N with false.
    - replace ((97 <=? 97 + (x - 26)) && (97 + (x - 26) <=? 122))%N with true.
      + f_equal. lia.
      + symmetry. apply andb_true_iff. split; apply N.leb_le; lia.
    - symmetry. apply andb_false_iff. right. apply N.leb_gt. lia. }
  apply N.ltb_ge in E2.
  destruct (x <? 62)%N eqn:E3.
  { apply N.ltb_lt in E3.
    replace ((65 <=? 48 + (x - 52)) && (48 + (x - 52) <=? 90))%N with false.
    - replace ((97 <=? 48 + (x - 52)) && (48 + (x - 52) <=? 122))%N with false.
      + replace ((48 <=? 48 + (x - 52)) && (48 + (x - 52) <=? 57))%N with true.
        * f_equal. lia.
        * symmetry. apply andb_true_iff. split; apply N.leb_le; lia.
      + symmetry. apply andb_false_iff. left. apply N.leb_gt. lia.
    - symmetry. apply andb_false_iff. left. apply N.leb_gt. lia. }
  apply N.ltb_ge in E3.
  assert (x = 62 \/ x = 63)%N as [-> | ->] by lia; reflexivity.
Qed.

Lemma sextets_of_chars_map (l : list N) :
  Forall sextet l -> sextets_of_chars (map char_of_sextet l) = Some l.
Proof.
  induction 1 as [|x l Hx _ IH]; simpl; [reflexivity|].
  now rewrite sextet_of_char_of_sextet, IH.
Qed.

(** A character of the alphabet is neither white space nor [=]. *)
Lemma char_of_sextet_plain (x : N) :
  is_ascii_whitespace (char_of_sextet x) = false /\ char_of_sextet x <> 61%N.
Proof.
  unfold is_ascii_whitespace, char_of_sextet.
  destruct (x <? 26)%N eqn:E1; [apply N.ltb_lt in E1|apply N.ltb_ge in E1].
  { split; [|lia]. repeat (apply orb_false_iff; split); apply N.eqb_neq; lia. }
  destruct (x <? 52)%N eqn:E2; [apply N.ltb_lt in E2|apply N.ltb_ge in E2].
  { split; [|lia]. repeat (apply orb_false_iff; split); apply N.eqb_neq; lia. }
  destruct (x <? 62)%N eqn:E3; [apply N.ltb_lt in E3|apply N.ltb_ge in E3].
  { split; [|lia]. repeat (apply orb_false_iff; split); apply N.eqb_neq; lia. }
  destruct (x =? 62)%N; split; try reflexivity; lia.
Qed.

Lemma padding_add3 (n : nat) : padding (S (S (S n))) = padding n.
Proof.
  unfold padding.
  replace (S (S (S n)) mod 3)%nat with (n mod 3)%nat; [reflexivity|].
  change (S (S (S n))) with (3 + n)%nat.
  rewrite Nat.Div0.add_mod, Nat.Div0.mod_same, Nat.add_0_l.
  now rewrite Nat.Div0.mod_mod.
Qed.

(** The encoded text has a length that is a multiple of 4, and its part
    before the padding never has a length of 1 modulo 4. *)
Lemma encoded_length (l : list N) :
  ((length (sextets l) + length (padding (length l))) mod 4 = 0
   /\ length (sextets l) mod 4 <> 1)%nat.
Proof.
  induction l as [| a | a b | a b c l IH] using list_ind3.
  - simpl. split; [reflexivity | discriminate].
  - simpl. split; [reflexivity | discriminate].
  - simpl. split; [reflexivity | discriminate].
  - cbn [length sextets]. rewrite padding_add3.
    destruct IH as [IH1 IH2].
    change (S (S (S (S (length (sextets l)))))) with (4 + length (sextets l))%nat.
    split.
    + rewrite <- Nat.add_assoc.
      rewrite Nat.Div0.add_mod, Nat.Div0.mod_same, Nat.add_0_l.
      now rewrite Nat.Div0.mod_mod.
    + rewrite Nat.Div0.add_mod, Nat.Div0.mod_same, Nat.add_0_l.
      now rewrite Nat.Div0.mod_mod.
Qed.

Lemma padding_cases (n : nat) :
  padding n = [] \/ padding n = [61%N] \/ padding n = [61%N; 61%N].
Proof.
  unfold padding. destruct (n mod 3)%nat as [|[|[|k]]]; auto.
Qed.

Lemma strip_padding_encoded (body : jsstring) (n : nat) :
  ~ In 61%N body ->
  (length (body ++ padding n) mod 4 = 0)%nat ->
  strip_padding (body ++ padding n) = body.
Proof.
  intros Hno Hlen. unfold strip_padding.
  rewrite Hlen. simpl.
  assert (Hrev : forall r, rev body <> 61%N :: r).
  { intros r E. apply Hno. apply in_rev. rewrite E. now left. }
  destruct (padding_cases n) as [-> | [-> | ->]].
  - rewrite app_nil_r.
    destruct (rev body) as [|x [|y r]] eqn:E; try reflexivity.
    + destruct (N.eq_dec x 61) as [->|Hx]; [now elim (Hrev [])|].
      destruct x as [|p]; try reflexivity.
      do 6 (destruct p as [p|p|]; try reflexivity); congruence.
    + destruct (N.eq_dec x 61) as [->|Hx]; [now elim (Hrev (y :: r))|].
      destruct x as [|p]; try reflexivity.
      do 6 (destruct p as [p|p|]; try reflexivity); congruence.
  - rewrite rev_app_distr. simpl.
    destruct (rev body) as [|x r] eqn:E.
    + apply (f_equal (@rev N)) in E. rewrite rev_involutive in E. now subst.
    + destruct (N.eq_dec x 61) as [->|Hx]; [now elim (Hrev r)|].
      rewrite <- E, rev_involutive.
      destruct x as [|p]; try reflexivity.
      do 6 (destruct p as [p|p|]; try reflexivity); congruence.
  - rewrite rev_app_distr. simpl. apply rev_involutive.
Qed.

Lemma filter_plain (l : list N) (n : nat) :
  filter (fun c => negb (is_ascii_whitespace c))
    (map char_of_sextet l ++ padding n)
  = map char_of_sextet l ++ padding n.
Proof.
  apply forallb_filter_id. apply forallb_forall. intros c Hc.
  apply in_app_or in Hc as [Hc | Hc].
  - apply in_map_iff in Hc as [x [<- _]].
    now rewrite (proj1 (char_of_sextet_plain x)).
  - destruct (padding_cases n) as [E | [E | E]]; rewrite E in Hc;
      simpl in Hc; intuition (subst; reflexivity).
Qed.

(** [atob] undoes [btoa] on every string of octets. *)
Lemma atob_btoa (s : jsstring) :
  Forall octet s ->
  btoa s = Some (map char_of_sextet (sextets s) ++ padding (length s))
  /\ atob (map char_of_sextet (sextets s) ++ padding (length s)) = Some s.
Proof.
  intros Hs. split.
  - unfold btoa.
    replace (forallb (fun c => (c <=? 255)%N) s) with true; [reflexivity|].
    symmetry. apply forallb_forall. intros c Hc.
    rewrite Forall_forall in Hs. specialize (Hs c Hc). unfold octet in Hs.
    apply N.leb_le. lia.
  - unfold atob. rewrite filter_plain.
    destruct (encoded_length s) as [L1 L2].
    rewrite strip_padding_encoded.
    + rewrite length_map.
      destruct (length (sextets s) mod 4 =? 1)%nat eqn:E.
      { apply Nat.eqb_eq in E. contradiction. }
      rewrite sextets_of_chars_map by now apply sextets_bound.
      now rewrite octets_sextets.
    + intros Hin. apply in_map_iff in Hin as [x [Hx _]].
      now apply (proj2 (char_of_sextet_plain x)).
    + now rewrite length_app, length_map.
Qed.

End Base64Facts.

(* ================================================================ *)
(** * Facts about runs *)
(* ================================================================ *)

Module RunFacts.

Section WithHost.
Context {W : Type} (h : handler W).

Lemma run_bind {A B} (p : Prog A) (f : A -> Prog B) s w :
  run h (bind p f) s w =
  let r := run h p s w in
  match outcome_of r with
  | Returned a =>
      let r' := run h (f a) (final_this r) (final_world r) in
      {| final_this := final_this r'; final_world := final_world r';
         trace := trace r ++ trace r'; outcome_of := outcome_of r' |}
  | Threw e =>
      {| final_this := final_this r; final_world := final_world r;
         trace := trace r; outcome_of := Threw e |}
  end.
Proof.
  revert s w. induction p as [a | e | X e k IH | k IH | b k IH]; intros s w; simpl.
  - now destruct (run h (f a) s w).
  - reflexivity.
  - destruct (h _ e w) as [x w']. rewrite IH. simpl.
    now destruct (outcome_of (run h (k x) s w')).
  - apply IH.
  - apply IH.
Qed.

Lemma run_try_catch {A} (p : Prog A) (c : exn -> Prog A) s w :
  run h (try_catch p c) s w =
  let r := run h p s w in
  match outcome_of r with
  | Returned a => r
  | Threw e =>
      let r' := run h (c e) (final_this r) (final_world r) in
      {| final_this := final_this r'; final_world := final_world r';
         trace := trace r ++ trace r'; outcome_of := outcome_of r' |}
  end.
Proof.
  revert s w. induction p as [a | e | X e k IH | k IH | b k IH]; intros s w; simpl.
  - reflexivity.
  - now destruct (run h (c e) s w).
  - destruct (h _ e w) as [x w']. rewrite IH. simpl.
    now destruct (run h (k x) s w') as [s1 w1 t1 [a|e1]].
  - apply IH.
  - apply IH.
Qed.

Lemma run_finally {A} (p : Prog A) (f : Prog unit) s w :
  run h (finally p f) s w =
  let r := run h p s w in
  let r' := run h f (final_this r) (final_world r) in
  {| final_this := final_this r'; final_world := final_world r';
     trace := trace r ++ trace r';
     outcome_of := match outcome_of r' with
                   | Returned _ => outcome_of r
                   | Threw e => Threw e
                   end |}.
Proof.
  revert s w. induction p as [a | e | X e k IH | k IH | b k IH]; intros s w; simpl.
  - rewrite run_bind. simpl.
    destruct (run h f s w) as [s1 w1 t1 [u|e1]]; simpl; now rewrite ?app_nil_r.
  - rewrite run_bind. simpl.
    destruct (run h f s w) as [s1 w1 t1 [u|e1]]; simpl; now rewrite ?app_nil_r.
  - destruct (h _ e w) as [x w']. rewrite IH. reflexivity.
  - apply IH.
  - apply IH.
Qed.

(** A program that never sets the flag leaves the service object as it is. *)
Lemma run_flag_free {A} (p : Prog A) s w :
  FlagFree p -> final_this (run h p s w) = s.
Proof.
  intros F. revert s w. induction F as [a | e | X e k _ IH | k _ IH]; intros s w; simpl; auto.
  destruct (h _ e w) as [x w']. simpl. apply IH.
Qed.

Lemma run_no_throw {A} (p : Prog A) s w :
  NoThrow p -> exists a, outcome_of (run h p s w) = Returned a.
Proof.
  intros F. revert s w.
  induction F as [a | X e k _ IH | k _ IH | b k _ IH]; intros s w; simpl; eauto.
  destruct (h _ e w) as [x w']. simpl. apply IH.
Qed.

Lemma run_returns {A} (P : A -> Prop) (p : Prog A) s w a :
  Returns P p -> outcome_of (run h p s w) = Returned a -> P a.
Proof.
  intros F. revert s w.
  induction F as [a' Ha | e | X e k _ IH | k _ IH | b k _ IH]; intros s w; simpl.
  - now intros [= <-].
  - discriminate.
  - destruct (h _ e w) as [x w']. simpl. apply IH.
  - apply IH.
  - apply IH.
Qed.

End WithHost.

Lemma requests_app (t1 t2 : list event) :
  requests (t1 ++ t2) = requests t1 ++ requests t2.
Proof.
  induction t1 as [|[X e x] t1 IH]; simpl; [reflexivity|].
  destruct e; simpl; now rewrite IH.
Qed.

Lemma writes_app (t1 t2 : list event) :
  writes (t1 ++ t2) = writes t1 ++ writes t2.
Proof.
  induction t1 as [|[X e x] t1 IH]; simpl; [reflexivity|].
  destruct e; simpl; now rewrite IH.
Qed.

End RunFacts.

(* ================================================================ *)
(** * The shape of programs *)
(* ================================================================ *)

Module ProgFacts.

Lemma returns_any {A} (P : A -> Prop) (p : Prog A) :
  (forall a, P a) -> Returns P p.
Proof. intros H. induction p; constructor; auto. Qed.

Lemma returns_bind {A B} (P : B -> Prop) (p : Prog A) (f : A -> Prog B) :
  (forall a, Returns P (f a)) -> Returns P (bind p f).
Proof. intros H. induction p; simpl; try constructor; auto. Qed.

Lemma returns_try_catch {A} (P : A -> Prop) (p : Prog A) (c : exn -> Prog A) :
  Returns P p -> (forall e, Returns P (c e)) -> Returns P (try_catch p c).
Proof. intros Hp Hc. induction Hp; simpl; try constructor; auto. Qed.

Lemma returns_finally {A} (P : A -> Prop) (p : Prog A) (f : Prog unit) :
  Returns P p -> Returns P (finally p f).
Proof.
  intros Hp. induction Hp; simpl; try (constructor; auto).
  - apply returns_bind. intros _. now constructor.
  - apply returns_bind. intros _. constructor.
Qed.

Lemma no_throw_bind {A B} (p : Prog A) (f : A -> Prog B) :
  NoThrow p -> (forall a, NoThrow (f a)) -> NoThrow (bind p f).
Proof. intros Hp Hf. induction Hp; simpl; try constructor; auto. Qed.

Lemma no_throw_try_catch {A} (p : Prog A) (c : exn -> Prog A) :
  (forall e, NoThrow (c e)) -> NoThrow (try_catch p c).
Proof. intros Hc. induction p; simpl; try constructor; auto. Qed.

Lemma no_throw_finally {A} (p : Prog A) (f : Prog unit) :
  NoThrow p -> NoThrow f -> NoThrow (finally p f).
Proof.
  intros Hp Hf. induction Hp; simpl; try (constructor; auto).
  apply no_throw_bind; [assumption|]. intros _. constructor.
Qed.

Lemma flag_free_bind {A B} (p : Prog A) (f : A -> Prog B) :
  FlagFree p -> (forall a, FlagFree (f a)) -> FlagFree (bind p f).
Proof. intros Hp Hf. induction Hp; simpl; try constructor; auto. Qed.

Lemma flag_free_try_catch {A} (p : Prog A) (c : exn -> Prog A) :
  FlagFree p -> (forall e, FlagFree (c e)) -> FlagFree (try_catch p c).
Proof. intros Hp Hc. induction Hp; simpl; try constructor; auto. Qed.

Lemma flag_free_call {X} (e : IO X) : FlagFree (call e).
Proof. constructor. intros x. constructor. Qed.

Lemma flag_free_await {X} (e : IO (exn + X)) : FlagFree (await e).
Proof. constructor. intros [err | x]; constructor. Qed.

Lemma flag_free_lift {X} (r : exn + X) : FlagFree (lift r).
Proof. destruct r; constructor. Qed.

(** [try { p } finally { this.isSyncing = false }] clears the flag last. *)
Lemma releasing_finally {A} (p : Prog A) :
  FlagFree p -> Releasing (finally p (SetSyncing false (Ret tt))).
Proof. intros Hp. induction Hp; simpl; constructor; auto. Qed.

Create HintDb flagfree.
#[export] Hint Resolve flag_free_call flag_free_await flag_free_lift : flagfree.
#[export] Hint Constructors FlagFree : flagfree.

(** Such goals are solved along the structure of the program. *)
Ltac shape :=
  repeat first
    [ progress intros
    | solve [auto with flagfree nocore]
    | apply flag_free_bind | apply flag_free_try_catch
    | apply ff_vis | apply ff_get
    | match goal with
      | |- FlagFree (match ?x with _ => _ end) => destruct x
      end ].

Lemma flag_free_request a u m b : FlagFree (Api.request a u m b).
Proof. unfold Api.request. shape. Qed.
#[export] Hint Resolve flag_free_request : flagfree.

Lemma flag_free_verifyAccess a : FlagFree (Api.verifyAccess a).
Proof. unfold Api.verifyAccess. shape. Qed.

Lemma flag_free_ensureRepository a : FlagFree (Api.ensureRepository a).
Proof. unfold Api.ensureRepository. shape. Qed.

Lemma flag_free_getLatestCommitSha a : FlagFree (Api.getLatestCommitSha a).
Proof. unfold Api.getLatestCommitSha. shape. Qed.

Lemma flag_free_getTreeSha a c : FlagFree (Api.getTreeSha a c).
Proof. unfold Api.getTreeSha. shape. Qed.
#[export] Hint Resolve flag_free_verifyAccess flag_free_ensureRepository
  flag_free_getLatestCommitSha flag_free_getTreeSha : flagfree.

Lemma flag_free_getAllFiles a : FlagFree (Api.getAllFiles a).
Proof. unfold Api.getAllFiles. shape. Qed.

Lemma flag_free_api_getFileContent a p : FlagFree (Api.getFileContent a p).
Proof. unfold Api.getFileContent. shape. Qed.

Lemma flag_free_getFileSha a p : FlagFree (Api.getFileSha a p).
Proof. unfold Api.getFileSha. shape. Qed.
#[export] Hint Resolve flag_free_getAllFiles flag_free_api_getFileContent
  flag_free_getFileSha : flagfree.

Lemma flag_free_putFile a p c m : FlagFree (Api.putFile a p c m).
Proof. unfold Api.putFile. shape. Qed.

Lemma flag_free_deleteFile a p m : FlagFree (Api.deleteFile a p m).
Proof. unfold Api.deleteFile. shape. Qed.

Lemma flag_free_createTree a b items : FlagFree (Api.createTree a b items).
Proof. unfold Api.createTree. shape. Qed.

Lemma flag_free_createCommit a m t p : FlagFree (Api.createCommit a m t p).
Proof. unfold Api.createCommit. shape. Qed.

Lemma flag_free_updateBranchRef a c : FlagFree (Api.updateBranchRef a c).
Proof. unfold Api.updateBranchRef. shape. Qed.

Lemma flag_free_create_blob a f : FlagFree (Api.create_blob a f).
Proof. unfold Api.create_blob. shape. Qed.
#[export] Hint Resolve flag_free_createTree flag_free_createCommit
  flag_free_updateBranchRef flag_free_create_blob : flagfree.

Lemma flag_free_build_tree_items a files items :
  FlagFree (Api.build_tree_items a files items).
Proof.
  revert items. induction files as [|file rest IH]; intros items; simpl.
  - constructor.
  - destruct (_ <? _)%N; [apply IH|]. shape.
Qed.
#[export] Hint Resolve flag_free_build_tree_items : flagfree.

Lemma flag_free_batchUpload a files m : FlagFree (Api.batchUpload a files m).
Proof. unfold Api.batchUpload. shape. Qed.
#[export] Hint Resolve flag_free_batchUpload : flagfree.

Lemma flag_free_get {X} (f : SyncService -> X) : FlagFree (Service.get f).
Proof. unfold Service.get. shape. Qed.

Lemma flag_free_this : FlagFree this.
Proof. unfold this. shape. Qed.

Lemma flag_free_this_api : FlagFree Service.this_api.
Proof. unfold Service.this_api. shape. Qed.
#[export] Hint Resolve flag_free_get flag_free_this flag_free_this_api : flagfree.

Lemma flag_free_getVaultFiles : FlagFree Service.getVaultFiles.
Proof. unfold Service.getVaultFiles. shape. Qed.

Lemma flag_free_getFileContent f : FlagFree (Service.getFileContent f).
Proof. unfold Service.getFileContent. shape. Qed.

Lemma flag_free_ensureFolder p : FlagFree (Service.ensureFolder p).
Proof. unfold Service.ensureFolder. shape. Qed.
#[export] Hint Resolve flag_free_getVaultFiles flag_free_getFileContent
  flag_free_ensureFolder : flagfree.

Lemma flag_free_writeFileContent p c : FlagFree (Service.writeFileContent p c).
Proof. unfold Service.writeFileContent. shape. Qed.

Lemma flag_free_getCommitMessage : FlagFree Service.getCommitMessage.
Proof. unfold Service.getCommitMessage. shape. Qed.
#[export] Hint Resolve flag_free_writeFileContent flag_free_getCommitMessage
  : flagfree.

Lemma flag_free_read_files files acc : FlagFree (Service.read_files files acc).
Proof.
  revert acc. induction files as [|file rest IH]; intros acc; simpl; shape.
Qed.

Lemma flag_free_sync_read_files files acc n :
  FlagFree (Service.sync_read_files files acc n).
Proof.
  revert acc n. induction files as [|file rest IH]; intros acc n; simpl; shape.
Qed.

Lemma flag_free_pull_loop files n : FlagFree (Service.pull_loop files n).
Proof.
  revert n. induction files as [|file rest IH]; intros n; simpl; shape.
Qed.

Lemma flag_free_sync_loop vault remote n :
  FlagFree (Service.sync_loop vault remote n).
Proof.
  revert n. induction remote as [|path rest IH]; intros n; simpl; shape.
Qed.
#[export] Hint Resolve flag_free_read_files flag_free_sync_read_files
  flag_free_pull_loop flag_free_sync_loop : flagfree.

Lemma flag_free_push_body : FlagFree Service.push_body.
Proof. unfold Service.push_body. shape. Qed.

Lemma flag_free_pull_body : FlagFree Service.pull_body.
Proof. unfold Service.pull_body. shape. Qed.

Lemma flag_free_sync_body : FlagFree Service.sync_body.
Proof. unfold Service.sync_body. shape. Qed.
#[export] Hint Resolve flag_free_push_body flag_free_pull_body
  flag_free_sync_body : flagfree.

End ProgFacts.

(* ================================================================ *)
(** * The remote client *)
(* ================================================================ *)

Module ApiFacts.
Import RunFacts.

#[global] Arguments js : simpl never.
#[global] Arguments Api.request : simpl never.

Section WithHost.
Context {W : Type} (h : handler W).

Lemma run_request a u m b s w :
  run h (Api.request a u m b) s w =
  let p := {| url := u; method := m; headers := Api.api_headers a;
              throw := false; body := b |} in
  {| final_this := s; final_world := snd (h _ (RequestUrl p) w);
     trace := [Event (RequestUrl p) (fst (h _ (RequestUrl p) w))];
     outcome_of := request_outcome (fst (h _ (RequestUrl p) w)) |}.
Proof.
  unfold Api.request, await. simpl.
  destruct (h _ _ w) as [[e | r] w']; simpl; [reflexivity|].
  now destruct (400 <=? status r)%N.
Qed.

(** The request by which [getFileSha] looks a path up, and its result. *)
Lemma run_getFileSha a path s w :
  run h (Api.getFileSha a path) s w =
  match Api.contents_url a path with
  | inl _ => {| final_this := s; final_world := w; trace := [];
                outcome_of := Returned None |}
  | inr u =>
      let p := {| url := u ++ js "?ref=" ++ api_branch a; method := Api.GET;
                  headers := Api.api_headers a; throw := false;
                  body := None |} in
      let ans := fst (h _ (RequestUrl p) w) in
      {| final_this := s; final_world := snd (h _ (RequestUrl p) w);
         trace := [Event (RequestUrl p) ans];
         outcome_of :=
           Returned
             match request_outcome ans with
             | Returned response =>
                 match prop response (js "sha") with
                 | inr sha => as_string sha
                 | inl _ => None
                 end
             | Threw _ => None
             end |}
  end.
Proof.
  unfold Api.getFileSha. rewrite run_try_catch, run_bind.
  destruct (Api.contents_url a path) as [e | u]; cbn [lift run outcome_of final_this final_world trace app];
    [reflexivity|].
  rewrite run_bind, run_request. cbn [outcome_of final_this final_world trace app].
  destruct (request_outcome _) as [response | e]; cbn [run outcome_of final_this final_world trace app];
    [|reflexivity].
  rewrite run_bind.
  destruct (prop response _) as [e | sha]; reflexivity.
Qed.

(** The id a response to the head lookup carries. *)
Lemma run_getLatestCommitSha a s w :
  run h (Api.getLatestCommitSha a) s w =
  let p := {| url := Api.baseUrl a ++ js "/git/refs/heads/" ++ api_branch a;
              method := Api.GET; headers := Api.api_headers a;
              throw := false; body := None |} in
  let ans := fst (h _ (RequestUrl p) w) in
  {| final_this := s; final_world := snd (h _ (RequestUrl p) w);
     trace := [Event (RequestUrl p) ans];
     outcome_of :=
       Returned
         match request_outcome ans with
         | Returned response =>
             match prop response (js "object") with
             | inr object =>
                 match prop object (js "sha") with
                 | inr sha => as_string sha
                 | inl _ => None
                 end
             | inl _ => None
             end
         | Threw _ => None
         end |}.
Proof.
  unfold Api.getLatestCommitSha. rewrite run_try_catch, run_bind, run_request.
  cbn [outcome_of final_this final_world trace app].
  destruct (request_outcome _) as [response | e];
    cbn [run outcome_of final_this final_world trace app]; [|reflexivity].
  rewrite run_bind.
  destruct (prop response _) as [e | object];
    cbn [lift run outcome_of final_this final_world trace app]; [reflexivity|].
  rewrite run_bind.
  destruct (prop object _) as [e | sha]; reflexivity.
Qed.

Lemma failed_request_outcome (p : RequestUrlParam) (ans : exn + Response) :
  failed_request (Event (RequestUrl p) ans) ->
  exists e, request_outcome ans = Threw e.
Proof.
  destruct ans as [e | r]; cbn; [eauto|].
  intros Hst. apply N.leb_le in Hst. rewrite Hst. eauto.
Qed.

End WithHost.
End ApiFacts.

(* ================================================================ *)
(** * Claims about the remote client *)
(* ================================================================ *)

Module ApiClaims.
Import RunFacts ApiFacts.

(** Claim C9.  [deleteFile] first looks the content id of the path up.
    The lookup never throws; it gives the not-found sentinel as soon as
    its request failed, at the network or with any status from 400, not
    only for a path that is absent.  When the lookup gives the sentinel,
    [deleteFile] returns [true] and its only host call is the request of
    the lookup.  A DELETE request is issued only when the lookup returned
    an id (a non-empty string). *)
Theorem deleteFile_only_after_lookup {W} (h : handler W) a path message s w :
  let lookup := run h (Api.getFileSha a path) s w in
  let r := run h (Api.deleteFile a path message) s w in
  (exists sha, outcome_of lookup = Returned sha)
  /\ (forall ev, In ev (trace lookup) -> failed_request ev ->
      outcome_of lookup = Returned None)
  /\ (outcome_of lookup = Returned None ->
      outcome_of r = Returned true /\ trace r = trace lookup
      /\ Forall (fun p => method p = Api.GET) (requests (trace r)))
  /\ (forall p, In p (requests (trace r)) -> method p = Api.DELETE ->
      exists sha, outcome_of lookup = Returned (Some sha) /\ sha <> []).
Proof.
  intros lookup r. subst lookup r.
  unfold Api.deleteFile. rewrite run_try_catch, run_bind.
  rewrite run_getFileSha.
  destruct (Api.contents_url a path) as [e | u] eqn:Eu.
  - cbn. repeat split; eauto; try contradiction.
  - cbn [outcome_of final_this final_world trace app].
    set (p0 := {| url := u ++ js "?ref=" ++ api_branch a |}).
    destruct (h _ (RequestUrl p0) w) as [ans w'] eqn:Eh.
    cbn [fst snd].
    set (sha := match request_outcome ans with
                | Returned response => _
                | Threw _ => None
                end).
    assert (Hfail : failed_request (Event (RequestUrl p0) ans) -> sha = None).
    { intros Hf. destruct (failed_request_outcome _ _ Hf) as [e He].
      subst sha. now rewrite He. }
    split; [eauto|]. split.
    { intros ev [<- | []] Hf. now rewrite Hfail. }
    destruct (truthy sha) eqn:Et; cbn [negb].
    + (* an id was found: the delete request follows *)
      split.
      { intros [= E]. rewrite E in Et. discriminate. }
      intros p Hp Hm. exists (match sha with Some x => x | None => [] end).
      destruct sha as [[|c t]|]; try discriminate.
      split; [reflexivity | discriminate].
    + (* no id: nothing more happens *)
      cbn. split.
      { intros _. repeat split. constructor; [reflexivity | constructor]. }
      intros p [<- | []] Hm. discriminate.
Qed.

(** A witness: behind a network that is down the lookup gives the
    sentinel and [deleteFile] returns [true] after that one request; on
    the reachable repository the file has an id and the DELETE follows. *)
Lemma deleteFile_witness :
  (let r := run Mock.host
              (Api.deleteFile Scenario.alice_api (js "notes/a.md") (js "remove"))
              Scenario.alice Scenario.unreachable in
   outcome_of r = Returned true
   /\ trace r = trace (run Mock.host
                         (Api.getFileSha Scenario.alice_api (js "notes/a.md"))
                         Scenario.alice Scenario.unreachable)
   /\ Forall (fun p => method p = Api.GET) (requests (trace r)))
  /\ map method
       (requests
          (trace (run Mock.host
                    (Api.deleteFile Scenario.alice_api (js "notes/a.md")
                       (js "remove"))
                    Scenario.alice Scenario.remote)))
     = [Api.GET; Api.DELETE].
Proof.
  split.
  - destruct (deleteFile_only_after_lookup Mock.host Scenario.alice_api
                (js "notes/a.md") (js "remove") Scenario.alice
                Scenario.unreachable) as (_ & _ & H & _).
    apply H. reflexivity.
  - reflexivity.
Defined.

(** Claim C6, as stated, fails: the branch of the repository has a head
    commit, and [getLatestCommitSha] gives the sentinel all the same,
    because the network is down, or because the remote answers with a
    status 401. *)
Lemma getLatestCommitSha_none_despite_history :
  Mock.head Scenario.unreachable = Some (js "c1")
  /\ outcome_of (run Mock.host (Api.getLatestCommitSha Scenario.alice_api)
                   Scenario.alice Scenario.unreachable) = Returned None
  /\ Mock.head Scenario.unauthorized = Some (js "c1")
  /\ outcome_of (run Mock.host (Api.getLatestCommitSha Scenario.alice_api)
                   Scenario.alice Scenario.unauthorized) = Returned None.
Proof. repeat split; vm_compute; reflexivity. Qed.

(** Claim C6, amended.  [getLatestCommitSha] makes one request, for the
    head of the branch, and never throws.  It returns the commit id the
    answer carries when the request succeeded, and the sentinel whenever
    the request failed, at the network or with any status from 400: the
    empty repository is one such case among others.  On the small remote
    it returns the head of a reachable repository with history, and the
    sentinel for a repository without a commit. *)
Theorem getLatestCommitSha_result {W} (h : handler W) a s w :
  let p := {| url := Api.baseUrl a ++ js "/git/refs/heads/" ++ api_branch a;
              method := Api.GET; headers := Api.api_headers a;
              throw := false; body := None |} in
  let ans := fst (h _ (RequestUrl p) w) in
  let r := run h (Api.getLatestCommitSha a) s w in
  trace r = [Event (RequestUrl p) ans]
  /\ (exists sha, outcome_of r = Returned sha)
  /\ (failed_request (Event (RequestUrl p) ans) -> outcome_of r = Returned None)
  /\ (forall response object c,
        ans = inr response -> (status response < 400)%N ->
        prop (response_json response) (js "object") = inr object ->
        prop object (js "sha") = inr (JStr c) ->
        outcome_of r = Returned (Some c))
  /\ outcome_of (run Mock.host (Api.getLatestCommitSha Scenario.alice_api)
                   Scenario.alice Scenario.remote) = Returned (Mock.head Scenario.remote)
  /\ outcome_of (run Mock.host (Api.getLatestCommitSha Scenario.alice_api)
                   Scenario.alice Scenario.empty_repository) = Returned None.
Proof.
  intros p ans r. subst r. rewrite run_getLatestCommitSha.
  cbn [trace outcome_of]. fold p. fold ans.
  split; [reflexivity|]. split; [eauto|]. split.
  { intros Hf. destruct (failed_request_outcome _ _ Hf) as [e He].
    now rewrite He. }
  split.
  { intros response object c -> Hst Ho Hs. cbn [request_outcome].
    apply N.ltb_lt in Hst. rewrite N.ltb_antisym in Hst.
    apply negb_true_iff in Hst. rewrite Hst, Ho, Hs. reflexivity. }
  split; vm_compute; reflexivity.
Qed.

End ApiClaims.

(* ================================================================ *)
(** * Claims about the engine *)
(* ================================================================ *)

Module EngineClaims.
Import RunFacts ProgFacts.

(** Goals on what a program returns and on whether it throws, solved
    along the structure of the program. *)
Ltac structure :=
  repeat first
    [ progress intros
    | apply returns_bind | apply returns_try_catch | apply returns_finally
    | apply no_throw_bind | apply no_throw_try_catch | apply no_throw_finally
    | apply rt_set | apply rt_get | apply rt_vis | apply rt_throw
    | apply nt_set | apply nt_get | apply nt_vis | apply nt_ret
    | match goal with
      | |- Returns _ (match ?x with _ => _ end) => destruct x
      | |- NoThrow (match ?x with _ => _ end) => destruct x
      | |- Returns _ (Ret _) =>
          apply rt_ret; cbn; intuition (try discriminate; auto)
      end ].

(** The three operations never throw: every exception of the body ends
    in the failure result of the [catch] block. *)
Lemma operation_no_throw (op : Service.operation) :
  NoThrow (Service.run_operation op).
Proof.
  destruct op; cbn [Service.run_operation];
    unfold Service.push, Service.pull, Service.sync, Service.get, call;
    structure.
Qed.

(** Claim C8.  An operation always returns a result, and every result
    returned by [push], [pull] or [sync], whatever the host answers and
    whatever the state of the service object, has [filesDeleted] equal
    to zero; a result that reports a failure has all three counters
    equal to zero. *)
Theorem results_never_count_deletions {W} (h : handler W)
  (op : Service.operation) (s : SyncService) (w : W) :
  exists r : SyncResult,
    outcome_of (run h (Service.run_operation op) s w) = Returned r
    /\ filesDeleted r = 0
    /\ (success r = false ->
        filesUploaded r = 0 /\ filesDownloaded r = 0 /\ filesDeleted r = 0).
Proof.
  destruct (run_no_throw h (Service.run_operation op) s w (operation_no_throw op))
    as [r Hr].
  exists r. split; [assumption|].
  apply (run_returns h
           (fun r => filesDeleted r = 0
                     /\ (success r = false ->
                         filesUploaded r = 0 /\ filesDownloaded r = 0
                         /\ filesDeleted r = 0))
           (Service.run_operation op) s w r); [|assumption].
  destruct op; cbn [Service.run_operation];
    unfold Service.push, Service.pull, Service.sync,
      Service.push_body, Service.pull_body, Service.sync_body;
    structure.
Qed.


(** A witness: the result of [sync] on the repository of the scenario. *)
Lemma results_witness :
  exists r : SyncResult,
    outcome_of (run Mock.host (Service.run_operation Service.Sync)
                  Scenario.alice Scenario.remote) = Returned r
    /\ filesDeleted r = 0
    /\ (success r = false ->
        filesUploaded r = 0 /\ filesDownloaded r = 0 /\ filesDeleted r = 0).
Proof.
  exact (results_never_count_deletions Mock.host Service.Sync Scenario.alice
           Scenario.remote).
Defined.

Lemma advance_releasing {A} (p : Prog A) s :
  Releasing p ->
  match advance p s with
  | (s', Done _) => s' = set_syncing false s
  | (s', Waiting _ k) => s' = s /\ forall x, Releasing (k x)
  end.
Proof.
  intros R. revert s.
  induction R as [a | e | X e k Hk _ | k _ IH]; intros s; simpl.
  - reflexivity.
  - reflexivity.
  - split; [reflexivity | assumption].
  - apply IH.
Qed.

(** The three operations have one shape. *)
Lemma operation_shape (op : Service.operation) :
  exists body handler,
    FlagFree (try_catch body handler)
    /\ Service.run_operation op =
       (a <- Service.get api ;;
        match a with
        | None => Ret not_configured
        | Some _ =>
            busy <- Service.get isSyncing ;;
            if busy then Ret Run.busy
            else SetSyncing true
                   (finally (try_catch body handler) (SetSyncing false (Ret tt)))
        end).
Proof.
  destruct op; do 2 eexists; (split; [|reflexivity]); shape.
Qed.

Lemma set_syncing_same (s : SyncService) :
  set_syncing (isSyncing s) s = s.
Proof. now destruct s. Qed.

(** A call on a service object that is not configured or is syncing
    returns at once, and changes nothing. *)
Lemma advance_rejected (op : Service.operation) (s : SyncService) :
  api s = None \/ isSyncing s = true ->
  advance (Service.run_operation op) s =
  (s, Done (Returned (if Service.isConfigured s then busy else not_configured))).
Proof.
  destruct (operation_shape op) as (body & handler & _ & ->).
  unfold Service.isConfigured. simpl.
  destruct (api s) as [a|]; simpl; [|reflexivity].
  intros [H | H]; [discriminate|]. now rewrite H.
Qed.

(** A call on a configured, idle service object sets the flag and goes
    on to clear it at its end. *)
Lemma advance_admitted (op : Service.operation) (s : SyncService) :
  api s <> None -> isSyncing s = false ->
  match advance (Service.run_operation op) s with
  | (s', Done _) => s' = s
  | (s', Waiting _ k) => s' = set_syncing true s /\ forall x, Releasing (k x)
  end.
Proof.
  destruct (operation_shape op) as (body & handler & F & ->).
  simpl. destruct (api s) as [a|]; [|congruence].
  intros _ Hidle. simpl. rewrite Hidle.
  cbn [advance].
  pose proof (advance_releasing _ (set_syncing true s) (releasing_finally _ F)) as H.
  destruct (advance _ _) as [s' [o | X e k]].
  - rewrite H. rewrite <- Hidle. destruct s; reflexivity.
  - exact H.
Qed.

Lemma updateSettings_isSyncing (s : SyncService) (st : GitSyncSettings) :
  isSyncing (Service.updateSettings s st) = isSyncing s.
Proof.
  unfold Service.updateSettings, Service.initializeAPI. cbn [settings].
  now destruct (_ && _).
Qed.

Lemma constructor_isSyncing dir st : isSyncing (Service.constructor dir st) = false.
Proof.
  unfold Service.constructor, Service.initializeAPI. cbn [settings].
  now destruct (_ && _).
Qed.

Lemma exclusive_idle (sys : system) :
  exclusive sys -> isSyncing (service sys) = false -> in_flight sys = [].
Proof.
  intros (_ & _ & Hflag) Hidle.
  destruct (in_flight sys) as [|t l]; [reflexivity|].
  assert (isSyncing (service sys) = true) by (apply Hflag; discriminate).
  congruence.
Qed.

Lemma exclusive_syncing (sys : system) l1 t l2 :
  exclusive sys -> in_flight sys = l1 ++ t :: l2 ->
  l1 = [] /\ l2 = [] /\ waits_to_release t /\ isSyncing (service sys) = true.
Proof.
  intros (Hlen & Hall & Hflag) E. rewrite E in *.
  rewrite length_app in Hlen. simpl in Hlen.
  destruct l1; [|simpl in Hlen; lia].
  destruct l2; [|simpl in Hlen; lia].
  repeat split; try reflexivity.
  - now inversion Hall.
  - apply Hflag. discriminate.
Qed.

(** Every step keeps the engine exclusive. *)
Lemma step_exclusive (sys sys' : system) (l : label) :
  exclusive sys -> step sys l sys' -> exclusive sys'.
Proof.
  intros Hex Hstep.
  destruct Hstep as [sys op s' o Hadv | sys op s' X e k Hadv
                    | sys l1 l2 X e k x s' o Hin Hadv
                    | sys l1 l2 X e k x s' Y e' k' Hin Hadv
                    | sys st].
  - (* a call that returns at once *)
    destruct (isSyncing (service sys)) eqn:Hflag.
    + rewrite advance_rejected in Hadv by auto.
      injection Hadv as <- _. exact Hex.
    + destruct (api (service sys)) as [a|] eqn:Hapi.
      * pose proof (advance_admitted op (service sys)) as H.
        rewrite Hadv in H. rewrite H by congruence. exact Hex.
      * rewrite advance_rejected in Hadv by auto.
        injection Hadv as <- _. exact Hex.
  - (* a call that is suspended at its first host call *)
    destruct (isSyncing (service sys)) eqn:Hflag.
    + rewrite advance_rejected in Hadv by auto. discriminate.
    + destruct (api (service sys)) as [a|] eqn:Hapi.
      * pose proof (advance_admitted op (service sys)) as H.
        rewrite Hadv in H. destruct H as [-> Hk]; [congruence | assumption |].
        rewrite (exclusive_idle sys Hex Hflag).
        repeat split; simpl; auto; try discriminate.
      * rewrite advance_rejected in Hadv by auto. discriminate.
  - (* the answer that ends the operation in flight *)
    destruct (exclusive_syncing sys _ _ _ Hex Hin) as (-> & -> & Hk & Hflag).
    pose proof (advance_releasing (k x) (service sys) (Hk x)) as H.
    rewrite Hadv in H. subst s'.
    repeat split; simpl; auto; try discriminate.
  - (* an answer after which the operation waits again *)
    destruct (exclusive_syncing sys _ _ _ Hex Hin) as (-> & -> & Hk & Hflag).
    pose proof (advance_releasing (k x) (service sys) (Hk x)) as H.
    rewrite Hadv in H. destruct H as [-> Hk'].
    repeat split; simpl; auto; try discriminate.
  - (* new settings *)
    destruct Hex as (Hlen & Hall & Hflag).
    repeat split; simpl; auto; rewrite updateSettings_isSyncing; apply Hflag.
Qed.

Lemma reachable_exclusive dir st sys : reachable dir st sys -> exclusive sys.
Proof.
  induction 1 as [|sys l sys' _ IH Hstep].
  - repeat split; simpl; auto; rewrite constructor_isSyncing; try discriminate.
  - eapply step_exclusive; eauto.
Qed.

(** Run to its end, a call that is turned away makes no host call. *)
Lemma run_rejected {W} (h : handler W) op s w :
  api s = None \/ isSyncing s = true ->
  run h (Service.run_operation op) s w =
  {| final_this := s; final_world := w; trace := [];
     outcome_of := Returned (if Service.isConfigured s then busy
                             else not_configured) |}.
Proof.
  destruct (operation_shape op) as (body & handler & _ & ->).
  unfold Service.isConfigured. simpl.
  destruct (api s) as [a|]; simpl; [|reflexivity].
  intros [H | H]; [discriminate|]. now rewrite H.
Qed.

(** Run to its end, an operation leaves the service object as it found it. *)
Lemma run_operation_restores {W} (h : handler W) op s w :
  final_this (run h (Service.run_operation op) s w) = s.
Proof.
  destruct (isSyncing s) eqn:Hflag.
  { now rewrite run_rejected by auto. }
  destruct (api s) as [a|] eqn:Hapi.
  2:{ now rewrite run_rejected by auto. }
  destruct (operation_shape op) as (body & handler & F & ->).
  simpl. rewrite Hapi. simpl. rewrite Hflag. cbn [run].
  rewrite run_finally. cbn [final_this run].
  rewrite (run_flag_free h _ _ _ F).
  rewrite <- Hflag. now destruct s.
Qed.

(** Claim C2, as stated, fails: a call made while another operation is
    in flight does not always return the busy failure.  After [sync] was
    called and while it waits for the host, the settings are replaced by
    settings without credentials; [push] called then returns the failure
    of a missing configuration, the flag being set and [sync] still in
    flight. *)
Lemma call_while_syncing_not_busy :
  let sys := {| service := Service.updateSettings
                             (service Scenario.syncing_engine) DEFAULT_SETTINGS;
                in_flight := in_flight Scenario.syncing_engine |} in
  reachable (js ".obsidian") Scenario.alice_settings sys
  /\ in_flight sys <> []
  /\ isSyncing (service sys) = true
  /\ step sys (Called Service.Push (Some (Returned not_configured))) sys
  /\ outcome_of (run Mock.host Service.push (service sys) Scenario.remote)
     = Returned not_configured
  /\ not_configured <> busy.
Proof.
  cbv zeta. split.
  { eapply reach_step.
    - eapply reach_step; [apply reach_init|].
      apply (step_call_wait
               {| service := Service.constructor (js ".obsidian")
                               Scenario.alice_settings;
                  in_flight := [] |} Service.Sync).
      reflexivity.
    - exact (step_settings Scenario.syncing_engine DEFAULT_SETTINGS). }
  split; [discriminate|].
  split; [reflexivity|].
  split.
  { apply (step_call_done
             {| service := Service.updateSettings
                             (service Scenario.syncing_engine) DEFAULT_SETTINGS;
                in_flight := in_flight Scenario.syncing_engine |}
             Service.Push).
    reflexivity. }
  split; [reflexivity | discriminate].
Qed.

(** Claim C2, amended.  On the engines reached from a fresh service
    object by calls of [push], [pull] and [sync], answers of the host to
    the operation in flight, and changes of the settings, in any order:
    at most one operation is in flight, and the flag is set exactly
    while there is one.  A call made while the flag is set returns a
    failure at once, without any host call and without changing the
    service object: the busy failure when the service object is
    configured, and the failure of a missing configuration when it is
    not, since the operations test the configuration first.  A call on a
    service object without configuration returns the failure of a
    missing configuration, likewise at once.  Every operation returns a
    result, whatever the host answers or throws, and leaves the service
    object, hence the flag, as it found it: cleared when it was cleared.
    The answer that ends the operation in flight leaves the engine idle;
    a call that comes while an operation is in flight returns one of the
    two failures, as above, and leaves the engine as it is. *)
Theorem one_operation_at_a_time :
  (forall dir st sys, reachable dir st sys -> exclusive sys)
  /\ (forall W (h : handler W) op s w,
        isSyncing s = true ->
        run h (Service.run_operation op) s w =
        {| final_this := s; final_world := w; trace := [];
           outcome_of := Returned (if Service.isConfigured s
                                   then busy else not_configured) |})
  /\ (forall W (h : handler W) op s w,
        Service.isConfigured s = false ->
        run h (Service.run_operation op) s w =
        {| final_this := s; final_world := w; trace := [];
           outcome_of := Returned not_configured |})
  /\ (forall W (h : handler W) op s w,
        (exists r, outcome_of (run h (Service.run_operation op) s w) = Returned r)
        /\ final_this (run h (Service.run_operation op) s w) = s)
  /\ (forall dir st sys o sys',
        reachable dir st sys -> step sys (Answered (Some o)) sys' ->
        in_flight sys' = [] /\ isSyncing (service sys') = false)
  /\ (forall dir st sys op l sys',
        reachable dir st sys -> in_flight sys <> [] ->
        step sys (Called op l) sys' ->
        l = Some (Returned (if Service.isConfigured (service sys)
                            then busy else not_configured))
        /\ sys' = sys).
Proof.
  split; [exact reachable_exclusive|].
  split.
  { intros W h op s w Hs. now rewrite run_rejected by auto. }
  split.
  { intros W h op s w Hc. rewrite run_rejected; [now rewrite Hc|].
    left. unfold Service.isConfigured in Hc. now destruct (api s). }
  split.
  { intros W h op s w. split.
    - apply run_no_throw, operation_no_throw.
    - apply run_operation_restores. }
  split.
  { intros dir st sys o sys' Hreach Hstep.
    assert (Hex : exclusive sys')
      by (eapply reachable_exclusive, reach_step; eauto).
    inversion Hstep; subst.
    match goal with H : in_flight sys = _ |- _ =>
      destruct (exclusive_syncing sys _ _ _ (reachable_exclusive _ _ _ Hreach) H)
        as (-> & -> & _ & _)
    end.
    split; [reflexivity|]. simpl.
    destruct Hex as (_ & _ & Hflag). simpl in Hflag.
    destruct (isSyncing s') eqn:E; [|reflexivity].
    exfalso. now apply Hflag. }
  intros dir st sys op l sys' Hreach Hbusy Hstep.
  destruct (reachable_exclusive _ _ _ Hreach) as (_ & _ & Hflag).
  apply Hflag in Hbusy.
  pose proof (advance_rejected op (service sys) (or_intror Hbusy)) as Hadv.
  inversion Hstep; subst;
    match goal with H : advance _ _ = _ |- _ => rewrite Hadv in H end;
    [|discriminate].
  match goal with H : (_, _) = (_, _) |- _ => injection H as <- <- end.
  split; [reflexivity|]. now destruct sys.
Qed.

(** A witness: the engine in which [sync] has been called and waits for
    the host is reached, it is exclusive, and [push] called now returns
    the busy failure without any host call. *)
Lemma one_operation_at_a_time_witness :
  reachable (js ".obsidian") Scenario.alice_settings Scenario.syncing_engine
  /\ exclusive Scenario.syncing_engine
  /\ isSyncing (service Scenario.syncing_engine) = true
  /\ run Mock.host Service.push (service Scenario.syncing_engine)
       Scenario.remote
     = {| final_this := service Scenario.syncing_engine;
          final_world := Scenario.remote; trace := [];
          outcome_of := Returned busy |}.
Proof.
  assert (R : reachable (js ".obsidian") Scenario.alice_settings
                Scenario.syncing_engine).
  { eapply reach_step; [apply reach_init|].
    apply (step_call_wait
             {| service := Service.constructor (js ".obsidian")
                             Scenario.alice_settings;
                in_flight := [] |} Service.Sync).
    reflexivity. }
  split; [exact R|]. split.
  - exact (proj1 one_operation_at_a_time _ _ _ R).
  - split; [reflexivity|].
    exact (proj1 (proj2 one_operation_at_a_time) _ Mock.host Service.Push
             (service Scenario.syncing_engine) Scenario.remote eq_refl).
Defined.

End EngineClaims.

(* ================================================================ *)
(** * Claims about reading and writing files *)
(* ================================================================ *)

Module VaultClaims.
Import RunFacts ProgFacts JSFacts Base64Facts Base64.

#[global] Arguments Base64.atob : simpl never.
#[global] Arguments Base64.btoa : simpl never.
#[global] Arguments normalizePath : simpl never.
#[global] Arguments slice : simpl never.
#[global] Arguments before_last : simpl never.

Lemma u8_to_N (b : Byte.byte) : UTF8.u8 (Byte.to_N b) = b.
Proof.
  unfold UTF8.u8. pose proof (Byte.to_N_bounded b) as Hb.
  rewrite N.mod_small by lia. now rewrite Byte.of_to_N.
Qed.

Lemma bytes_of_binary_string (data : list Byte.byte) :
  map UTF8.u8 (map Byte.to_N data) = data.
Proof.
  rewrite map_map. rewrite <- (map_id data) at 2.
  apply map_ext. apply u8_to_N.
Qed.

Lemma binary_string_octets (data : list Byte.byte) :
  Forall octet (map Byte.to_N data).
Proof.
  apply Forall_forall. intros c Hc. apply in_map_iff in Hc as [b [<- _]].
  pose proof (Byte.to_N_bounded b). unfold octet. lia.
Qed.

(** The text between the markers. *)
Lemma slice_marked (b64 : jsstring) :
  slice (Service.marker_prefix ++ b64 ++ Service.marker_suffix) 8 (-1) = b64.
Proof.
  unfold slice, clamp_index. rewrite !length_app.
  change (length Service.marker_prefix) with 8%nat.
  change (length Service.marker_suffix) with 1%nat.
  replace (8 <? 0)%Z with false by reflexivity.
  replace (-1 <? 0)%Z with true by reflexivity.
  rewrite Z.min_l by lia. rewrite Z.max_l by lia.
  change (Z.to_nat 8) with (length Service.marker_prefix).
  rewrite skipn_app, skipn_all, Nat.sub_diag. simpl skipn. simpl app at 1.
  replace (Z.to_nat _) with (length b64 + 0)%nat by lia.
  rewrite firstn_app_2. simpl. apply app_nil_r.
Qed.

Section WithHost.
Context {W : Type} (h : handler W).

Lemma writes_ensureFolder p s w :
  writes (trace (run h (Service.ensureFolder p) s w)) = []
  /\ final_this (run h (Service.ensureFolder p) s w) = s.
Proof.
  unfold Service.ensureFolder.
  destruct (Service.nonempty _); [|split; reflexivity].
  cbn. destruct (h _ _ w) as [[t|] w1]; cbn; [split; reflexivity|].
  destruct (h _ _ w1) as [[e|[]] w2]; split; reflexivity.
Qed.


(** [ensureFolder] returns, or the host refused to create the folder. *)
Lemma run_ensureFolder p s w :
  let r := run h (Service.ensureFolder p) s w in
  (outcome_of r = Returned tt /\ writes (trace r) = []
   /\ write_answers (trace r) = [])
  \/ folder_refused (trace r) (outcome_of r).
Proof.
  unfold Service.ensureFolder.
  destruct (Service.nonempty _); [|left; now repeat split].
  cbn. destruct (h _ _ w) as [[t|] w1]; cbn; [left; now repeat split|].
  destruct (h _ _ w1) as [[e|[]] w2]; cbn; [|left; now repeat split].
  right. now exists (before_last 47 p), e.
Qed.

(** The end of both branches of [writeFileContent]: the folder, the
    lookup of the file, and the one write. *)
Lemma run_store (modify : TFile -> IO (exn + unit)) (create : IO (exn + unit))
  (payload : written) (np np' : jsstring) s w :
  (forall f x, writes [Event (modify f) x] = [(path f, payload)]
               /\ write_answers [Event (modify f) x] = [x]) ->
  (forall x, writes [Event create x] = [(np', payload)]
             /\ write_answers [Event create x] = [x]) ->
  let r := run h (Service.ensureFolder np ;;
                  existingFile <- call (VaultGetAbstractFileByPath np) ;;
                  match existingFile with
                  | Some (AFile f) => await (modify f)
                  | _ => await create
                  end) s w in
  wrote_only payload (trace r) (outcome_of r).
Proof.
  intros Hm Hc r. subst r. rewrite run_bind. cbv zeta.
  destruct (run_ensureFolder np s w) as [(Ho & Hw & Ha) | Href].
  2:{ destruct Href as (folder & e & Ht & Ho). rewrite Ho.
      cbn [outcome_of final_this final_world trace].
      right. exists folder, e. now split. }
  rewrite Ho. cbn [outcome_of final_this final_world trace].
  left.
  assert (Hend : forall (ev : event) t (p : jsstring) (x : exn + unit) o,
            writes [ev] = [(p, payload)] -> write_answers [ev] = [x] ->
            writes t = [] -> write_answers t = [] ->
            o = match x with inl e => Threw e | inr _ => Returned tt end ->
            exists p ans,
              writes (trace (run h (Service.ensureFolder np) s w) ++ t ++ [ev])
              = [(p, payload)]
              /\ write_answers (trace (run h (Service.ensureFolder np) s w)
                                  ++ t ++ [ev]) = [ans]
              /\ o = match ans with inl e => Threw e | inr _ => Returned tt end).
  { intros ev t p x o H1 H2 H3 H4 H5. exists p, x.
    rewrite !writes_app, Hw, H3, H1.
    assert (Happ : forall t1 t2, write_answers (t1 ++ t2)
                                 = write_answers t1 ++ write_answers t2).
    { induction t1 as [|[X e y] t1 IH]; intros t2; [reflexivity|].
      destruct e; cbn [app write_answers]; now rewrite IH. }
    rewrite !Happ, Ha, H4, H2. now repeat split. }
  cbn [bind call run].
  destruct (h _ (VaultGetAbstractFileByPath np) _) as [[[f|d]|] w2];
    cbn [await bind call run].
  - destruct (h _ (modify f) w2) as [x w3].
    destruct (Hm f x) as [H1 H2].
    destruct x as [e | []]; cbn [run trace outcome_of final_this final_world];
      (eapply (Hend _ [Event (VaultGetAbstractFileByPath np) (Some (AFile f))]);
       [exact H1 | exact H2 | reflexivity | reflexivity | reflexivity]).
  - destruct (h _ create w2) as [x w3].
    destruct (Hc x) as [H1 H2].
    destruct x as [e | []]; cbn [run trace outcome_of final_this final_world];
      (eapply (Hend _ [Event (VaultGetAbstractFileByPath np) (Some (AFolder d))]);
       [exact H1 | exact H2 | reflexivity | reflexivity | reflexivity]).
  - destruct (h _ create w2) as [x w3].
    destruct (Hc x) as [H1 H2].
    destruct x as [e | []]; cbn [run trace outcome_of final_this final_world];
      (eapply (Hend _ [Event (VaultGetAbstractFileByPath np) None]);
       [exact H1 | exact H2 | reflexivity | reflexivity | reflexivity]).
Qed.

End WithHost.

(** What [writeFileContent] writes, by the markers of the content. *)
Lemma run_writeFileContent {W} (h : handler W)
  (path content : jsstring) (s : SyncService) (w : W) :
  let r := run h (Service.writeFileContent path content) s w in
  if startsWith content Service.marker_prefix
     && endsWith content Service.marker_suffix
  then
    match Base64.atob (slice content 8 (-1)) with
    | Some binary =>
        wrote_only (Binary (map UTF8.u8 binary)) (trace r) (outcome_of r)
    | None => trace r = [] /\ exists e, outcome_of r = Threw e
    end
  else wrote_only (Text content) (trace r) (outcome_of r).
Proof.
  intros r. subst r. unfold Service.writeFileContent.
  destruct (startsWith content Service.marker_prefix
            && endsWith content Service.marker_suffix).
  - destruct (Base64.atob (slice content 8 (-1))) as [binary|].
    + apply (run_store h (fun f => VaultModifyBinary f (map UTF8.u8 binary))
               (VaultCreateBinary (normalizePath path) (map UTF8.u8 binary))
               (Binary (map UTF8.u8 binary)) (normalizePath path)
               (normalizePath path) s w); intros; split; reflexivity.
    + split; [reflexivity | eexists; reflexivity].
  - apply (run_store h (fun f => VaultModify f content)
             (VaultCreate (normalizePath path) content)
             (Text content) (normalizePath path) (normalizePath path) s w);
      intros; split; reflexivity.
Qed.

(** Claim C10, as stated, fails: content that starts with the marker
    prefix and ends with the marker suffix, and whose text in between is
    no base64, is written neither through the binary path nor as text:
    [writeFileContent] throws before any call of the vault. *)
Lemma marked_text_is_not_written :
  let content := js "[BINARY: see the attachment!]" in
  let r := run Mock.host (Service.writeFileContent (js "notes/a.md") content)
             Scenario.alice Scenario.empty_repository in
  startsWith content Service.marker_prefix = true
  /\ endsWith content Service.marker_suffix = true
  /\ trace r = []
  /\ writes (trace r) = []
  /\ exists e, outcome_of r = Threw e.
Proof.
  split; [reflexivity|]. split; [reflexivity|]. split; [reflexivity|].
  split; [reflexivity|]. eexists. reflexivity.
Qed.

(** Claim C10, amended.  [writeFileContent] decides between the binary
    and the text way of writing from the content alone, for every target
    path.  Content that starts with the marker prefix and ends with the
    marker suffix, and whose text in between is base64, is decoded, and
    the vault is asked to write these bytes by its binary calls; when the
    text in between is no base64, the function throws before any host
    call and nothing is written.  For any other content the vault is
    asked to write the content as it is by its text calls.  In both
    writing cases that write is the only one and the function ends as
    the host answers it, unless the host refused before to create the
    folder of the file. *)
Theorem writeFileContent_classifies_by_content {W} (h : handler W)
  (path content : jsstring) (s : SyncService) (w : W) :
  let r := run h (Service.writeFileContent path content) s w in
  if startsWith content Service.marker_prefix
     && endsWith content Service.marker_suffix
  then
    match Base64.atob (slice content 8 (-1)) with
    | Some binary =>
        wrote_only (Binary (map UTF8.u8 binary)) (trace r) (outcome_of r)
    | None => trace r = [] /\ exists e, outcome_of r = Threw e
    end
  else wrote_only (Text content) (trace r) (outcome_of r).
Proof. exact (run_writeFileContent h path content s w). Qed.

(** A witness: marked content written under the name of a note goes
    through the binary calls; the bytes are those of the text [hi]. *)
Lemma writeFileContent_witness :
  let r := run Mock.host
             (Service.writeFileContent (js "notes/a.md") (js "[BINARY:aGk=]"))
             Scenario.alice Scenario.empty_repository in
  wrote_only (Binary [Byte.x68; Byte.x69]) (trace r) (outcome_of r)
  /\ writes (trace r) = [(js "notes/a.md", Binary [Byte.x68; Byte.x69])]
  /\ outcome_of r = Returned tt.
Proof.
  split.
  - exact (writeFileContent_classifies_by_content Mock.host (js "notes/a.md")
             (js "[BINARY:aGk=]") Scenario.alice Scenario.empty_repository).
  - split; reflexivity.
Defined.

(** Claim C3.  For every sequence of bytes, the empty one and those that
    are no valid text included: when the vault gives these bytes for a
    file with a binary extension, [getFileContent] returns the marker
    prefix, their base64 text and the marker suffix; and
    [writeFileContent], given that content for any path, on any state of
    the host, asks the vault to write exactly these bytes, by its binary
    calls, once, and for no other write, and ends as the host answers
    that write.  The one run in which the bytes are not written is that
    in which the host refuses to create the folder of the file. *)
Theorem binary_round_trip {W} (h : handler W) (file : TFile)
  (data : list UTF8.byte) (target : jsstring) (s s' : SyncService) (w w' : W) :
  Service.isBinary file = true ->
  fst (h _ (VaultReadBinary file) w) = inr data ->
  exists content,
    outcome_of (run h (Service.getFileContent file) s w) = Returned content
    /\ let r := run h (Service.writeFileContent target content) s' w' in
       wrote_only (Binary data) (trace r) (outcome_of r).
Proof.
  intros Hbin Hread.
  destruct (atob_btoa (map Byte.to_N data) (binary_string_octets data))
    as [Hbtoa Hatob].
  set (b64 := map Base64.char_of_sextet (Base64.sextets (map Byte.to_N data))
              ++ Base64.padding (length (map Byte.to_N data))) in *.
  exists (Service.marker_prefix ++ b64 ++ Service.marker_suffix). split.
  - unfold Service.getFileContent. rewrite Hbin. rewrite run_bind.
    cbn [await run]. destruct (h _ (VaultReadBinary file) w) as [x w1].
    cbn [fst] in Hread. subst x. cbn. now rewrite Hbtoa.
  - pose proof (run_writeFileContent h target
                  (Service.marker_prefix ++ b64 ++ Service.marker_suffix) s' w')
      as H.
    cbv zeta in H.
    rewrite startsWith_app in H.
    rewrite app_assoc, endsWith_app, <- app_assoc in H. cbn [andb] in H.
    rewrite slice_marked, Hatob, bytes_of_binary_string in H. exact H.
Qed.

(** A witness: the bytes of a picture, which are no valid text, are
    written to the copy. *)
Lemma binary_round_trip_witness :
  (exists content,
     outcome_of (run Mock.host (Service.getFileContent Scenario.picture)
                   Scenario.alice Scenario.vault_with_picture) = Returned content
     /\ let r := run Mock.host
                   (Service.writeFileContent (js "copy/img.png") content)
                   Scenario.alice Scenario.vault_with_picture in
        wrote_only (Binary Scenario.picture_bytes) (trace r) (outcome_of r))
  /\ let r := run Mock.host
                (Service.writeFileContent (js "copy/img.png")
                   (js "[BINARY:iVBORwD//oA=]"))
                Scenario.alice Scenario.vault_with_picture in
     outcome_of (run Mock.host (Service.getFileContent Scenario.picture)
                   Scenario.alice Scenario.vault_with_picture)
     = Returned (js "[BINARY:iVBORwD//oA=]")
     /\ writes (trace r) = [(js "copy/img.png", Binary Scenario.picture_bytes)]
     /\ outcome_of r = Returned tt.
Proof.
  split.
  - apply (binary_round_trip Mock.host Scenario.picture Scenario.picture_bytes
             (js "copy/img.png") Scenario.alice Scenario.alice
             Scenario.vault_with_picture Scenario.vault_with_picture);
      reflexivity.
  - repeat split; vm_compute; reflexivity.
Defined.

End VaultClaims.

(* ================================================================ *)
(** * Dates and their text *)
(* ================================================================ *)

Module DateFacts.
Import JSFacts Date.

Local Open Scope Z_scope.

Lemma civil_bounds (d : Z) :
  -100000000 <= d <= 100000000 ->
  let '(y, m, dd) := Date.civil d in
  -999999 <= y <= 999999 /\ 1 <= m <= 12 /\ 1 <= dd <= 31.
Proof.
  intros Hd. unfold Date.civil.
  set (z := d + 719468).
  set (era := z / 146097).
  set (doe := z - era * 146097).
  set (yoe := (doe - doe / 1460 + doe / 36524 - doe / 146096) / 365).
  set (doy := doe - (365 * yoe + yoe / 4 - yoe / 100)).
  set (mp := (5 * doy + 2) / 153).
  assert (0 <= doe <= 146096) by (subst doe era; lia).
  assert (0 <= yoe <= 399) by (subst yoe; lia).
  assert (0 <= doy <= 365) by (subst doy yoe; lia).
  assert (0 <= mp <= 11) by (subst mp; lia).
  assert (-700 <= era <= 700) by (subst era z; lia).
  destruct (mp <? 10) eqn:E; [apply Z.ltb_lt in E | apply Z.ltb_ge in E].
  - destruct (mp + 3 <=? 2); repeat split; try lia; subst mp; lia.
  - destruct (mp - 9 <=? 2); repeat split; try lia; subst mp; lia.
Qed.

Lemma digit_of_mod (n : N) : digit (48 + n mod 10).
Proof.
  unfold digit, Date.is_digit.
  apply andb_true_iff. split; apply N.leb_le; lia.
Qed.

(** The digits of a number: at least one, no more than the number needs,
    and they read back as the number. *)
Lemma digits_fuel_spec (f : nat) : forall (n : N) (acc : jsstring),
  Z.of_N n < 10 ^ Z.of_nat (S f) ->
  exists D : jsstring,
    digits_fuel (S f) n acc = D ++ acc
    /\ (1 <= length D <= S f)%nat
    /\ Forall digit D
    /\ (length D = 1%nat \/ 10 ^ (Z.of_nat (length D) - 1) <= Z.of_N n)
    /\ forall rest a,
         Date.number_of (D ++ rest) a
         = Date.number_of rest (a * 10 ^ Z.of_nat (length D) + Z.of_N n).
Proof.
  induction f as [|f IH]; intros n acc Hn.
  - exists [(48 + n mod 10)%N].
    assert (n < 10)%N by (change (10 ^ Z.of_nat 1) with 10 in Hn; lia).
    cbn [digits_fuel]. replace (n <? 10)%N with true by (symmetry; apply N.ltb_lt; lia).
    split; [reflexivity|]. cbn [length]. split; [lia|]. split.
    { constructor; [apply digit_of_mod | constructor]. }
    split; [now left|].
    intros rest a. cbn [app Date.number_of]. rewrite (digit_of_mod n).
    f_equal. change (10 ^ Z.of_nat 1) with 10. lia.
  - cbn [digits_fuel].
    destruct (n <? 10)%N eqn:E.
    + apply N.ltb_lt in E.
      exists [(48 + n mod 10)%N].
      split; [reflexivity|]. cbn [length]. split; [lia|]. split.
      { constructor; [apply digit_of_mod | constructor]. }
      split; [now left|].
      intros rest a. cbn [app Date.number_of]. rewrite (digit_of_mod n).
      f_equal. change (10 ^ Z.of_nat 1) with 10. lia.
    + apply N.ltb_ge in E.
      assert (Hq : Z.of_N (n / 10) < 10 ^ Z.of_nat (S f)).
      { replace (Z.of_nat (S (S f))) with (Z.of_nat (S f) + 1) in Hn by lia.
        rewrite Z.pow_add_r in Hn by lia. change (10 ^ 1) with 10 in Hn.
        rewrite N2Z.inj_div. change (Z.of_N 10) with 10. lia. }
      destruct (IH (n / 10)%N ((48 + n mod 10)%N :: acc) Hq)
        as (D & HD & Hlen & Hdig & Hmin & Hnum).
      exists (D ++ [(48 + n mod 10)%N]).
      rewrite <- app_assoc. split; [exact HD|].
      rewrite length_app. cbn [length].
      split; [lia|]. split.
      { apply Forall_app. split; [assumption|].
        constructor; [apply digit_of_mod | constructor]. }
      split.
      { right. replace (Z.of_nat (length D + 1) - 1) with ((Z.of_nat (length D) - 1) + 1) by lia.
        rewrite Z.pow_add_r by lia. change (10 ^ 1) with 10.
        destruct Hmin as [H1 | Hmin].
        - rewrite H1. change (10 ^ (Z.of_nat 1 - 1)) with 1. lia.
        - rewrite N2Z.inj_div in Hmin. change (Z.of_N 10) with 10 in Hmin. lia. }
      intros rest a. rewrite <- app_assoc. rewrite Hnum.
      cbn [app Date.number_of]. rewrite (digit_of_mod n).
      f_equal.
      replace (Z.of_nat (length D + 1)) with (Z.of_nat (length D) + 1) by lia.
      rewrite Z.pow_add_r by lia. change (10 ^ 1) with 10.
      rewrite N2Z.inj_div. change (Z.of_N 10) with 10.
      replace (Z.of_N (48 + n mod 10 - 48)) with (Z.of_N n mod 10).
      2:{ replace (48 + n mod 10 - 48)%N with (n mod 10)%N by lia.
          rewrite N2Z.inj_mod. reflexivity. }
      lia.
Qed.

Lemma fuel_enough (n : N) :
  Z.of_N n < 10 ^ Z.of_nat (S (N.to_nat (N.log2 n))).
Proof.
  destruct (N.eq_dec n 0) as [-> | Hn].
  - reflexivity.
  - destruct (N.log2_spec n) as [_ Hlt]; [lia|].
    apply N2Z.inj_lt in Hlt. rewrite N2Z.inj_pow in Hlt.
    replace (Z.of_nat (S (N.to_nat (N.log2 n)))) with (Z.of_N (N.succ (N.log2 n)))
      by lia.
    eapply Z.lt_le_trans; [exact Hlt|].
    apply Z.pow_le_mono_l. change (Z.of_N 2) with 2. lia.
Qed.

Lemma number_of_zeros (j : nat) (l : jsstring) :
  Date.number_of (repeat 48%N j ++ l) 0 = Date.number_of l 0.
Proof. induction j; simpl; auto. Qed.

(** A number written on [w] digits: [w] digits that read back as the
    number. *)
Lemma pad_spec (w : nat) (z : Z) :
  (1 <= w)%nat -> 0 <= z < 10 ^ Z.of_nat w ->
  length (Date.pad w z) = w
  /\ Forall digit (Date.pad w z)
  /\ Date.number w (Date.pad w z) = Some z.
Proof.
  intros Hw Hz. unfold Date.pad, pad_digits, JS.of_N.
  destruct (digits_fuel_spec (N.to_nat (N.log2 (Z.to_N z))) (Z.to_N z) []
              (fuel_enough _)) as (D & HD & Hlen & Hdig & Hmin & Hnum).
  rewrite HD, app_nil_r.
  assert (Hk : (length D <= w)%nat).
  { destruct Hmin as [H1 | Hmin]; [lia|].
    rewrite Z2N.id in Hmin by lia.
    assert (10 ^ (Z.of_nat (length D) - 1) < 10 ^ Z.of_nat w) by lia.
    apply Z.pow_lt_mono_r_iff in H; lia. }
  assert (HL : length (repeat 48%N (w - length D) ++ D) = w).
  { rewrite length_app, repeat_length. lia. }
  split; [exact HL|]. split.
  - apply Forall_app. split; [|assumption].
    apply Forall_forall. intros c Hc. apply repeat_spec in Hc. now subst.
  - unfold Date.number. rewrite HL, Nat.eqb_refl.
    rewrite number_of_zeros.
    rewrite <- (app_nil_r D) at 1. rewrite Hnum. cbn [Date.number_of].
    f_equal. rewrite Z2N.id by lia. lia.
Qed.

Lemma utc_in_range (t : Z) : Date.valid_time t -> Date.in_range (Date.utc t).
Proof.
  unfold Date.valid_time, Date.in_range, Date.utc, Date.msPerDay. intros Ht.
  pose proof (civil_bounds (t / 86400000)) as Hc.
  destruct (Date.civil (t / 86400000)) as [[y m] d]. cbn.
  assert (-100000000 <= t / 86400000 <= 100000000) by lia.
  specialize (Hc H). lia.
Qed.

Lemma digit_stamp (l : jsstring) : Forall digit l -> Forall stamp_char l.
Proof. apply Forall_impl. intros c H. now left. Qed.

Lemma year_string_chars (y : Z) :
  -999999 <= y <= 999999 -> Forall stamp_char (Date.year_string y).
Proof.
  intros Hy. unfold Date.year_string.
  destruct ((0 <=? y) && (y <=? 9999)) eqn:E.
  - apply andb_true_iff in E as [E1 E2].
    apply Z.leb_le in E1. apply Z.leb_le in E2.
    apply digit_stamp. apply (pad_spec 4 y); [lia|].
    change (10 ^ Z.of_nat 4) with 10000. lia.
  - apply Forall_app. split.
    + destruct (y <? 0); (constructor; [|constructor]); unfold stamp_char; auto.
    + apply digit_stamp. apply (pad_spec 6 (Z.abs y)); [lia|].
      change (10 ^ Z.of_nat 6) with 1000000. lia.
Qed.

Lemma pad2 (z : Z) :
  0 <= z < 100 ->
  exists a b, Date.pad 2 z = [a; b] /\ digit a /\ digit b
              /\ Date.number 2 [a; b] = Some z.
Proof.
  intros Hz. destruct (pad_spec 2 z) as (Hlen & Hdig & Hnum); [lia | |].
  { change (10 ^ Z.of_nat 2) with 100. lia. }
  destruct (Date.pad 2 z) as [|a [|b [|c l]]]; try discriminate.
  exists a, b. inversion_clear Hdig as [|? ? Ha Hb]. inversion_clear Hb.
  auto.
Qed.

Lemma digit_cases (c : N) :
  digit c ->
  (c = 48 \/ c = 49 \/ c = 50 \/ c = 51 \/ c = 52 \/ c = 53 \/ c = 54
   \/ c = 55 \/ c = 56 \/ c = 57)%N.
Proof.
  unfold digit, is_digit. intros H. apply andb_true_iff in H as [H1 H2].
  apply N.leb_le in H1. apply N.leb_le in H2. lia.
Qed.

Lemma parse_year_string (y : Z) (rest : jsstring) :
  -999999 <= y <= 999999 ->
  parse_year (year_string y ++ rest) = Some (y, rest).
Proof.
  intros Hy. unfold year_string.
  destruct ((0 <=? y) && (y <=? 9999)) eqn:E.
  - apply andb_true_iff in E as [E1 E2].
    apply Z.leb_le in E1. apply Z.leb_le in E2.
    destruct (pad_spec 4 y) as (Hlen & Hdig & Hnum); [lia | |].
    { change (10 ^ Z.of_nat 4) with 10000. lia. }
    destruct (pad 4 y) as [|a [|b [|c [|d [|e l]]]]]; try discriminate.
    assert (Ha : digit a) by now inversion Hdig.
    assert (P : parse_year ([a; b; c; d] ++ rest)
                = match number 4 [a; b; c; d] with
                  | Some y => Some (y, rest)
                  | None => None
                  end).
    { destruct (digit_cases a Ha) as [-> | [-> | [-> | [-> | [-> | [-> | [-> | [-> | [-> | ->]]]]]]]]];
        reflexivity. }
    rewrite P, Hnum. reflexivity.
  - assert (Hneg : y < 0 \/ 9999 < y).
    { apply andb_false_iff in E as [E | E];
        [apply Z.leb_gt in E | apply Z.leb_gt in E]; lia. }
    destruct (pad_spec 6 (Z.abs y)) as (Hlen & Hdig & Hnum); [lia | |].
    { change (10 ^ Z.of_nat 6) with 1000000. lia. }
    assert (F : firstn 6 (pad 6 (Z.abs y) ++ rest) = pad 6 (Z.abs y)).
    { rewrite <- Hlen at 1. rewrite firstn_app, Nat.sub_diag, firstn_all.
      simpl. apply app_nil_r. }
    assert (S : skipn 6 (pad 6 (Z.abs y) ++ rest) = rest).
    { rewrite <- Hlen at 1. rewrite skipn_app, Nat.sub_diag, skipn_all.
      reflexivity. }
    destruct (y <? 0) eqn:En.
    + apply Z.ltb_lt in En. change (js "-") with [45%N].
      cbn [app parse_year]. rewrite F, S, Hnum. f_equal. f_equal. lia.
    + apply Z.ltb_ge in En. change (js "+") with [43%N].
      cbn [app parse_year]. rewrite F, S, Hnum. f_equal. f_equal. lia.
Qed.

(** Reading a timestamp gives the fields it was written from. *)
Lemma parse_timestamp_timestamp (f : fields) :
  in_range f -> parse_timestamp (timestamp f) = Some (whole_seconds f).
Proof.
  intros (Hy & Hmo & Hd & Hh & Hmi & Hs & _).
  unfold parse_timestamp, timestamp.
  rewrite parse_year_string by assumption.
  destruct (pad2 (month f)) as (m1 & m2 & -> & _ & _ & Nm); [lia|].
  destruct (pad2 (day f)) as (a1 & a2 & -> & _ & _ & Na); [lia|].
  destruct (pad2 (hours f)) as (h1 & h2 & -> & _ & _ & Nh); [lia|].
  destruct (pad2 (minutes f)) as (i1 & i2 & -> & _ & _ & Ni); [lia|].
  destruct (pad2 (seconds f)) as (s1 & s2 & -> & _ & _ & Ns); [lia|].
  change (js "-") with [45%N]. change (js " ") with [32%N].
  change (js ":") with [58%N]. cbn [app].
  rewrite Nm, Na, Nh, Ni, Ns.
  replace (1 <=? month f) with true by (symmetry; apply Z.leb_le; lia).
  replace (month f <=? 12) with true by (symmetry; apply Z.leb_le; lia).
  replace (1 <=? day f) with true by (symmetry; apply Z.leb_le; lia).
  replace (day f <=? 31) with true by (symmetry; apply Z.leb_le; lia).
  replace (hours f <? 24) with true by (symmetry; apply Z.ltb_lt; lia).
  replace (minutes f <? 60) with true by (symmetry; apply Z.ltb_lt; lia).
  replace (seconds f <? 60) with true by (symmetry; apply Z.ltb_lt; lia).
  reflexivity.
Qed.

Lemma timestamp_chars (f : fields) :
  in_range f -> Forall stamp_char (timestamp f).
Proof.
  intros (Hy & Hmo & Hd & Hh & Hmi & Hs & _). unfold timestamp.
  assert (P : forall z, 0 <= z < 100 -> Forall stamp_char (pad 2 z)).
  { intros z Hz. apply digit_stamp. apply (pad_spec 2 z); [lia|].
    change (10 ^ Z.of_nat 2) with 100. lia. }
  assert (C : forall c, stamp_char c -> Forall stamp_char [c])
    by (intros; constructor; auto).
  rewrite !Forall_app.
  repeat split;
    try (apply P; lia); try (apply year_string_chars; assumption);
    apply C; unfold stamp_char; auto.
Qed.

Lemma timestamp_nonempty (f : fields) : in_range f -> timestamp f <> [].
Proof.
  intros R E. apply (f_equal (@length N)) in E. unfold timestamp in E.
  rewrite !length_app in E. change (length (js "-")) with 1%nat in E.
  simpl in E. lia.
Qed.

Lemma find_first_unit (c : N) (pre post : jsstring) :
  ~ In c pre -> find_first [c] (pre ++ c :: post) = Some (pre, post).
Proof.
  induction pre as [|x pre IH]; intros Hn.
  - cbn. now rewrite N.eqb_refl.
  - cbn [app find_first startsWith].
    replace (x =? c)%N with false.
    + cbn [andb]. rewrite IH; [reflexivity|]. intros H. apply Hn. now right.
    + symmetry. apply N.eqb_neq. intros ->. apply Hn. now left.
Qed.

Lemma split_first_app (sep : N) (pre post : jsstring) :
  ~ In sep pre -> split_first sep (pre ++ sep :: post) = pre.
Proof.
  induction pre as [|x pre IH]; intros Hn.
  - cbn. now rewrite N.eqb_refl.
  - cbn [app split_first].
    replace (x =? sep)%N with false.
    + rewrite IH; [reflexivity|]. intros H. apply Hn. now right.
    + symmetry. apply N.eqb_neq. intros ->. apply Hn. now left.
Qed.

Lemma stamp_char_not (c : N) (l : jsstring) :
  Forall stamp_char l -> ~ digit c -> c <> 45%N -> c <> 43%N -> c <> 32%N ->
  c <> 58%N -> ~ In c l.
Proof.
  intros Hl H0 H1 H2 H3 H4 Hin. rewrite Forall_forall in Hl.
  destruct (Hl c Hin) as [H | [H | [H | [H | H]]]]; auto.
Qed.

(** The date of a commit message is the timestamp of the clock. *)
Lemma dateStr_timestamp (now : Z) :
  valid_time now -> Service.dateStr now = timestamp (utc now).
Proof.
  intros Hv. pose proof (utc_in_range now Hv) as R.
  pose proof (timestamp_chars (utc now) R) as Hc.
  unfold Service.dateStr, toISOString, JS.replace.
  set (f := utc now) in *.
  set (date := year_string (year f) ++ js "-" ++ pad 2 (month f) ++ js "-"
               ++ pad 2 (day f)).
  set (time := pad 2 (hours f) ++ js ":" ++ pad 2 (minutes f) ++ js ":"
               ++ pad 2 (seconds f)).
  assert (E1 : year_string (year f) ++ js "-" ++ pad 2 (month f) ++ js "-"
               ++ pad 2 (day f) ++ js "T" ++ pad 2 (hours f) ++ js ":"
               ++ pad 2 (minutes f) ++ js ":" ++ pad 2 (seconds f) ++ js "."
               ++ pad 3 (millis f) ++ js "Z"
               = date ++ 84%N :: (time ++ 46%N :: pad 3 (millis f) ++ js "Z")).
  { subst date time. rewrite <- !app_assoc. reflexivity. }
  assert (E2 : timestamp f = date ++ 32%N :: time).
  { subst date time. unfold timestamp. rewrite <- !app_assoc. reflexivity. }
  rewrite E2 in Hc. apply Forall_app in Hc as [Hd Ht].
  inversion_clear Ht as [|? ? _ Ht'].
  rewrite E1. change (js "T") with [84%N].
  rewrite find_first_unit.
  2:{ apply stamp_char_not; try assumption; discriminate. }
  change (js " ") with [32%N]. cbn [substitution].
  replace (date ++ [32%N] ++ time ++ 46%N :: pad 3 (millis f) ++ js "Z")
    with ((date ++ 32%N :: time) ++ 46%N :: pad 3 (millis f) ++ js "Z")
    by (rewrite <- app_assoc; reflexivity).
  assert (Hall : Forall stamp_char (date ++ 32%N :: time)).
  { apply Forall_app. split; [assumption|].
    constructor; [unfold stamp_char; auto | assumption]. }
  rewrite split_first_app; [now rewrite E2|].
  apply stamp_char_not; try assumption; discriminate.
Qed.

End DateFacts.

(* ================================================================ *)
(** * Searching and replacing in strings *)
(* ================================================================ *)

Module ReplaceFacts.
Import JSFacts.

Lemma find_first_sound (p s pre post : jsstring) :
  find_first p s = Some (pre, post) -> s = pre ++ p ++ post.
Proof.
  revert pre post. induction s as [|c s IH]; intros pre post; cbn [find_first].
  - destruct (startsWith [] p) eqn:E; [|discriminate].
    intros [= <- <-]. apply startsWith_iff in E as [x E].
    destruct p; [reflexivity | discriminate].
  - destruct (startsWith (c :: s) p) eqn:E.
    + intros [= <- <-]. apply startsWith_iff in E as [x E].
      rewrite E at 2. rewrite skipn_app, skipn_all, Nat.sub_diag. simpl.
      exact E.
    + destruct (find_first p s) as [[pre' post']|]; [|discriminate].
      intros [= <- <-]. cbn [app]. f_equal. now apply IH.
Qed.

(** The match found is the first one. *)
Lemma find_first_first (p a y : jsstring) :
  exists pre post,
    find_first p (a ++ p ++ y) = Some (pre, post)
    /\ (length pre <= length a)%nat.
Proof.
  induction a as [|c a (pre & post & IH & Hlen)].
  - cbn [app]. exists [], (skipn (length p) (p ++ y)).
    split; [|simpl; lia].
    destruct (p ++ y) eqn:E; cbn [find_first];
      rewrite <- E, startsWith_app; reflexivity.
  - cbn [app find_first].
    destruct (startsWith (c :: a ++ p ++ y) p).
    + eexists _, _. split; [reflexivity | simpl; lia].
    + rewrite IH. eexists _, _. split; [reflexivity | simpl; lia].
Qed.

Lemma includes_iff (s p : jsstring) :
  includes s p = true <-> exists a b, s = a ++ p ++ b.
Proof.
  unfold includes. split.
  - destruct (find_first p s) as [[pre post]|] eqn:E; [|discriminate].
    intros _. exists pre, post. now apply find_first_sound.
  - intros (a & b & ->).
    destruct (find_first_first p a b) as (pre & post & -> & _). reflexivity.
Qed.

(** An occurrence of [t] in [pre ++ d ++ post], where [d] shares no
    character with [t], lies in [pre] or in [post]. *)
Lemma occurrence_split (a t b pre d post : jsstring) :
  a ++ t ++ b = pre ++ d ++ post ->
  t <> [] -> d <> [] -> (forall c, In c t -> ~ In c d) ->
  (exists x, pre = a ++ t ++ x) \/ (exists x, post = x ++ t ++ b).
Proof.
  intros E Ht Hd Hdis.
  apply app_eq_app in E as [l [[-> E] | [-> E]]];
    apply app_eq_app in E as [l' [[E1 E2] | [E1 E2]]].
  - (* the occurrence starts inside [d], or right after it *)
    destruct l' as [|c l'].
    + right. exists []. simpl in *. now symmetry.
    + destruct t as [|c' t]; [congruence|].
      injection E2 as -> _. exfalso. apply (Hdis c); [now left|].
      rewrite E1. apply in_or_app. right. now left.
  - right. exists l'. exact E2.
  - (* the occurrence starts in [pre] and reaches [d], or ends before it *)
    destruct l' as [|c l'].
    + left. exists []. rewrite app_nil_r in *. now subst.
    + destruct d as [|c' d]; [congruence|].
      injection E2 as -> _. exfalso. apply (Hdis c); [|now left].
      rewrite E1. apply in_or_app. right. now left.
  - left. exists l'. now rewrite E1.
Qed.

(** A replacement text made of the characters of a timestamp has no
    dollar sign: it is inserted as it is. *)
Lemma substitution_stamp (m pre post r : jsstring) :
  Forall Date.stamp_char r -> substitution m pre post r = r.
Proof.
  induction 1 as [|c r Hc _ IH]; [reflexivity|].
  destruct Hc as [Hc | [-> | [-> | [-> | ->]]]];
    [ destruct (DateFacts.digit_cases c Hc)
        as [-> | [-> | [-> | [-> | [-> | [-> | [-> | [-> | [-> | ->]]]]]]]]]
    | .. ];
    cbn [substitution]; now rewrite IH.
Qed.

Lemma stamp_char_not_token (c : N) :
  In c Service.date_token -> ~ Date.stamp_char c.
Proof.
  intros Hin [Hd | Hs].
  - destruct (DateFacts.digit_cases c Hd)
      as [-> | [-> | [-> | [-> | [-> | [-> | [-> | [-> | [-> | ->]]]]]]]]];
      cbv in Hin; intuition discriminate.
  - destruct Hs as [-> | [-> | [-> | ->]]]; cbv in Hin; intuition discriminate.
Qed.

End ReplaceFacts.

(* ================================================================ *)
(** * Claims about the commit message *)
(* ================================================================ *)

Module MessageClaims.
Import JSFacts DateFacts ReplaceFacts RunFacts.

(** Claim C4, as stated, fails: a template with the date token twice is
    rendered with the second token left as it is. *)
Lemma render_leaves_second_token :
  includes (js "{{date}} / {{date}}") Service.date_token = true
  /\ includes (Service.render (js "{{date}} / {{date}}") 1793690280123)
       Service.date_token = true
  /\ Service.render (js "{{date}} / {{date}}") 1793690280123
     = js "2026-11-03 07:18:00 / {{date}}".
Proof. repeat split; vm_compute; reflexivity. Qed.

(** Claim C4, amended.  For every template that contains the date token,
    [getCommitMessage] reads the clock and returns the template with the
    first date token, and only that one, replaced by the timestamp of the
    clock, [YYYY-MM-DD HH:mm:ss], which reads back as the date and the
    time of the clock to the second.  What follows the first token is
    kept as it is: the message contains the date token exactly when the
    template has another one after the first. *)
Theorem commit_message_replaces_first_token {W} (h : handler W)
  (s : SyncService) (w : W) (pre post : jsstring) :
  let now := fst (h _ DateNow w) in
  let template := commitMessage (settings s) in
  Date.valid_time now ->
  find_first Service.date_token template = Some (pre, post) ->
  exists msg,
    outcome_of (run h Service.getCommitMessage s w) = Returned msg
    /\ msg = pre ++ Service.dateStr now ++ post
    /\ Date.parse_timestamp (Service.dateStr now)
       = Some (Date.whole_seconds (Date.utc now))
    /\ includes msg Service.date_token = includes post Service.date_token.
Proof.
  intros now template Hv Hfind.
  pose proof (utc_in_range now Hv) as R.
  pose proof (dateStr_timestamp now Hv) as Hd.
  assert (Hr : Service.render template now = pre ++ Service.dateStr now ++ post).
  { unfold Service.render, JS.replace. rewrite Hfind.
    rewrite substitution_stamp; [reflexivity|].
    rewrite Hd. now apply timestamp_chars. }
  exists (Service.render template now). split.
  { unfold Service.getCommitMessage. cbn.
    subst now. destruct (h _ DateNow w) as [t w1]. reflexivity. }
  split; [exact Hr|]. split.
  { rewrite Hd. now apply parse_timestamp_timestamp. }
  rewrite Hr.
  destruct (includes post Service.date_token) eqn:Hpost.
  { (* a later token is kept *)
    apply includes_iff in Hpost as (a & b & ->).
    apply includes_iff. exists (pre ++ Service.dateStr now ++ a), b.
    now rewrite <- !app_assoc. }
  destruct (includes (pre ++ Service.dateStr now ++ post) Service.date_token)
    eqn:E; [|reflexivity].
  exfalso. apply includes_iff in E as (a & b & E).
  symmetry in E.
  apply occurrence_split in E as [[x Hx] | [x Hx]].
  - (* the token would lie before its first occurrence *)
    apply find_first_sound in Hfind as Ht.
    rewrite Hx in Ht. rewrite <- !app_assoc in Ht.
    destruct (find_first_first Service.date_token a
                (x ++ Service.date_token ++ post)) as (pre' & post' & Hf & Hlen).
    rewrite <- Ht in Hf. rewrite Hfind in Hf. injection Hf as <- _.
    rewrite Hx, !length_app in Hlen. simpl in Hlen. lia.
  - (* the token would lie after the first one *)
    assert (includes post Service.date_token = true)
      by (apply includes_iff; eauto).
    congruence.
  - discriminate.
  - rewrite Hd. now apply timestamp_nonempty.
  - intros c Hc Hin. apply (stamp_char_not_token c Hc).
    rewrite Hd in Hin. pose proof (timestamp_chars _ R) as Hall.
    rewrite Forall_forall in Hall. now apply Hall.
Qed.

(** A witness: a template with the token twice, at 2026-11-03
    07:18:00.123; the first token becomes the timestamp and the second
    one stays. *)
Lemma commit_message_witness :
  exists msg,
    outcome_of (run Mock.host Service.getCommitMessage Cases.dating_twice
                  Scenario.remote) = Returned msg
    /\ msg = [] ++ Service.dateStr 1793690280123 ++ js " / {{date}}"
    /\ Date.parse_timestamp (Service.dateStr 1793690280123)
       = Some (Date.whole_seconds (Date.utc 1793690280123))
    /\ includes msg Service.date_token
       = includes (js " / {{date}}") Service.date_token.
Proof.
  apply (commit_message_replaces_first_token Mock.host Cases.dating_twice
           Scenario.remote [] (js " / {{date}}")).
  - unfold Date.valid_time. cbn. lia.
  - reflexivity.
Defined.

End MessageClaims.

(* ================================================================ *)
(** * Claims about the batch upload *)
(* ================================================================ *)

Module UploadClaims.
Import RunFacts ProgFacts ApiFacts.

#[global] Arguments Api.encodeBase64 : simpl never.

Section WithHost.
Context {W : Type} (h : handler W).

Lemma run_create_blob a file s w :
  run h (Api.create_blob a file) s w =
  match Api.encodeBase64 (Api.up_content file) with
  | inl e => {| final_this := s; final_world := w; trace := [];
                outcome_of := Threw e |}
  | inr encoded =>
      let ans := fst (h _ (RequestUrl (blob_request a encoded)) w) in
      {| final_this := s;
         final_world := snd (h _ (RequestUrl (blob_request a encoded)) w);
         trace := [Event (RequestUrl (blob_request a encoded)) ans];
         outcome_of :=
           match request_outcome ans with
           | Returned response =>
               match prop response (js "sha") with
               | inr id => Returned (as_string id)
               | inl e => Threw e
               end
           | Threw e => Threw e
           end |}
  end.
Proof.
  unfold Api.create_blob. rewrite run_bind.
  destruct (Api.encodeBase64 _) as [e | encoded];
    cbn [lift run outcome_of final_this final_world trace app]; [reflexivity|].
  rewrite run_bind, run_request. fold (blob_request a encoded).
  cbn [outcome_of final_this final_world trace app].
  destruct (request_outcome _) as [response | e];
    cbn [run outcome_of final_this final_world trace app]; [|reflexivity].
  rewrite run_bind.
  destruct (prop response _) as [e | id]; reflexivity.
Qed.

Lemma blob_created_later a tr1 tr2 file sha :
  blob_created a tr2 file sha -> blob_created a (tr1 ++ tr2) file sha.
Proof.
  intros (encoded & response & id & H1 & H2 & H3).
  exists encoded, response, id. repeat split; try tauto.
  apply in_or_app. now right.
Qed.

Lemma tree_entry_of_later a tr1 tr2 file item :
  tree_entry_of a tr2 file item -> tree_entry_of a (tr1 ++ tr2) file item.
Proof.
  unfold tree_entry_of. destruct (_ <? _)%N; [auto|].
  intros (sha & E & B). exists sha. split; [assumption|].
  now apply blob_created_later.
Qed.

(** The loop over the files adds one entry for each file, in order. *)
Lemma run_build_tree_items a files : forall treeItems s w items,
  outcome_of (run h (Api.build_tree_items a files treeItems) s w) = Returned items ->
  exists added,
    items = treeItems ++ added
    /\ Forall2 (tree_entry_of a
                  (trace (run h (Api.build_tree_items a files treeItems) s w)))
         files added.
Proof.
  induction files as [|file rest IH]; intros treeItems s w items.
  - cbn. intros [= <-]. exists []. rewrite app_nil_r. split; constructor.
  - cbn [Api.build_tree_items]. unfold Api.inline_threshold.
    destruct (N.of_nat (length (Api.up_content file)) <? 100000)%N eqn:Esize.
    + intros Hrun. destruct (IH _ _ _ _ Hrun) as (added & -> & Hall).
      exists (Api.inline_item file :: added).
      rewrite <- app_assoc. split; [reflexivity|].
      constructor; [|assumption].
      unfold tree_entry_of. rewrite Esize. reflexivity.
    + rewrite run_bind, run_create_blob.
      destruct (Api.encodeBase64 (Api.up_content file)) as [e | encoded] eqn:Eenc;
        [discriminate|].
      cbn [outcome_of final_this final_world trace].
      set (ans := fst (h _ (RequestUrl (blob_request a encoded)) w)).
      destruct ans as [e | response] eqn:Eans; cbn [request_outcome];
        [discriminate|].
      destruct (400 <=? status response)%N eqn:Est; [discriminate|].
      destruct (prop (response_json response) (js "sha")) as [e | id] eqn:Eid;
        [discriminate|].
      cbn [outcome_of final_this final_world trace].
      intros Hrun. destruct (IH _ _ _ _ Hrun) as (added & -> & Hall).
      exists (Api.blob_item file (as_string id) :: added).
      rewrite <- app_assoc. split; [reflexivity|].
      constructor.
      * unfold tree_entry_of. rewrite Esize.
        exists (as_string id). split; [reflexivity|].
        exists encoded, response, id. repeat split; auto.
        -- now left.
        -- apply N.leb_gt. exact Est.
      * revert Hall. apply Forall2_impl.
        intros f it. apply (tree_entry_of_later a [_]).
Qed.

(** Short files need no host call. *)
Lemma run_short_files a files : forall treeItems s w,
  Forall (fun f => (N.of_nat (length (Api.up_content f)) < 100000)%N) files ->
  run h (Api.build_tree_items a files treeItems) s w =
  {| final_this := s; final_world := w; trace := [];
     outcome_of := Returned (treeItems ++ map Api.inline_item files) |}.
Proof.
  induction files as [|f rest IH]; intros treeItems s w Hshort.
  - cbn. now rewrite app_nil_r.
  - inversion_clear Hshort as [|? ? Hf Hrest].
    cbn [Api.build_tree_items]. unfold Api.inline_threshold.
    apply N.ltb_lt in Hf. rewrite Hf.
    rewrite IH by assumption. cbn [map]. now rewrite <- app_assoc.
Qed.

End WithHost.

(** A string has at most as many code units as bytes of UTF-8. *)
Lemma encode_code_point_length (cp : N) :
  (1 <= length (UTF8.encode_code_point cp))%nat
  /\ ((65536 <= cp)%N -> length (UTF8.encode_code_point cp) = 4%nat).
Proof.
  unfold UTF8.encode_code_point. split.
  - destruct (cp <? 128)%N; [cbn; lia|].
    destruct (cp <? 2048)%N; [cbn; lia|].
    destruct (cp <? 65536)%N; cbn; lia.
  - intros H.
    replace (cp <? 128)%N with false by (symmetry; apply N.ltb_ge; lia).
    replace (cp <? 2048)%N with false by (symmetry; apply N.ltb_ge; lia).
    replace (cp <? 65536)%N with false by (symmetry; apply N.ltb_ge; lia).
    reflexivity.
Qed.

Lemma units_le_bytes (content : jsstring) :
  (length content <= length (UTF8.encode content))%nat.
Proof.
  assert (H : forall n s, (length s <= n)%nat ->
                          (length s <= length (UTF8.encode s))%nat).
  { induction n as [|n IH]; intros s Hn.
    - destruct s; [cbn; lia | cbn in Hn; lia].
    - destruct s as [|c s']; [cbn; lia|].
      cbn [length] in Hn. cbn [UTF8.encode].
      destruct (UTF8.is_high_surrogate c).
      + destruct s' as [|d s''].
        * pose proof (proj1 (encode_code_point_length 65533)). cbn [length]. lia.
        * destruct (UTF8.is_low_surrogate d).
          -- rewrite length_app.
             rewrite (proj2 (encode_code_point_length _)) by lia.
             cbn [length] in *. specialize (IH s''). lia.
          -- rewrite length_app.
             pose proof (proj1 (encode_code_point_length 65533)).
             specialize (IH (d :: s'')). cbn [length] in *. lia.
      + pose proof (proj1 (encode_code_point_length 65533)).
        pose proof (proj1 (encode_code_point_length c)).
        specialize (IH s').
        destruct (UTF8.is_low_surrogate c); rewrite length_app;
          cbn [length]; lia. }
  exact (H (length content) content (le_n _)).
Qed.

(** Claim C7, as stated, fails: a file of 60000 times the letter U+00E9
    has 120000 bytes of UTF-8, and 160000 characters of base64, yet its
    content is put in the tree entry and no blob is created. *)
Lemma accented_file_is_inlined :
  let r := run Mock.host
             (Api.build_tree_items Scenario.alice_api [Cases.accented_file] [])
             Scenario.alice Scenario.remote in
  N.of_nat (length (Api.up_content Cases.accented_file)) = 60000%N
  /\ N.of_nat (length (UTF8.encode (Api.up_content Cases.accented_file)))
     = 120000%N
  /\ match Api.encodeBase64 (Api.up_content Cases.accented_file) with
     | inr encoded => N.of_nat (length encoded) = 160000%N
     | inl _ => False
     end
  /\ trace r = []
  /\ outcome_of r = Returned [Api.inline_item Cases.accented_file].
Proof.
  assert (Hlen : N.of_nat (length (Api.up_content Cases.accented_file))
                 = 60000%N).
  { unfold Cases.accented_file. cbn [Api.up_content].
    now rewrite repeat_length, N2Nat.id. }
  split; [exact Hlen|].
  split; [vm_compute; reflexivity|].
  split; [vm_compute; reflexivity|].
  rewrite (run_short_files Mock.host Scenario.alice_api [Cases.accented_file] []
             Scenario.alice Scenario.remote).
  - split; reflexivity.
  - constructor; [|constructor]. rewrite Hlen. lia.
Qed.

(** Claim C7, amended.  The size that the loop of [batchUpload] compares
    with the threshold is the length of the content string, its number
    of UTF-16 code units, not a number of bytes.  When the loop over the
    files completes, it has added one tree entry for each file of the
    list, in order: for a file whose content is shorter than 100000, the
    entry carries the path, the mode [100644], the type [blob] and the
    content itself, and no id; for any other file it carries the id with
    which the remote answered the request that created a blob from the
    file's content, issued before, and no content.  A list of short
    files is handled without any host call; so is a list of files of
    less than 100000 bytes of UTF-8 each, since a string has at most as
    many code units as bytes. *)
Theorem tree_entries_inline_or_blob {W} (h : handler W) (a : GitHubAPI)
  (files : list Api.UploadFile) (s : SyncService) (w : W)
  (items : list GitHubTreeItem) :
  let r := run h (Api.build_tree_items a files []) s w in
  outcome_of r = Returned items ->
  Forall2 (tree_entry_of a (trace r)) files items
  /\ (Forall (fun f => (N.of_nat (length (Api.up_content f)) < 100000)%N) files ->
      trace r = [] /\ items = map Api.inline_item files)
  /\ (Forall (fun f => (N.of_nat (length (UTF8.encode (Api.up_content f)))
                        < 100000)%N) files ->
      trace r = [] /\ items = map Api.inline_item files).
Proof.
  intros r Hrun. subst r.
  destruct (run_build_tree_items h a files [] s w items Hrun) as (added & -> & Hall).
  assert (Hshort : Forall (fun f => (N.of_nat (length (Api.up_content f))
                                     < 100000)%N) files ->
                   trace (run h (Api.build_tree_items a files []) s w) = []
                   /\ [] ++ added = map Api.inline_item files).
  { intros Hshort. rewrite (run_short_files h a files [] s w Hshort) in *.
    cbn in Hrun. injection Hrun as <-. split; reflexivity. }
  split; [exact Hall|]. split; [exact Hshort|].
  intros Hbytes. apply Hshort.
  eapply Forall_impl; [|exact Hbytes]. cbv beta. intros f Hf.
  pose proof (units_le_bytes (Api.up_content f)). lia.
Qed.

(** A witness: a short file and a file of 100000 characters. *)
Lemma tree_entries_witness :
  let r := run Mock.host
             (Api.build_tree_items Scenario.alice_api
                [Scenario.short_file; Scenario.long_file] [])
             Scenario.alice Scenario.remote in
  Forall2 (tree_entry_of Scenario.alice_api (trace r))
    [Scenario.short_file; Scenario.long_file]
    [Api.inline_item Scenario.short_file;
     Api.blob_item Scenario.long_file (Some (js "new-blob"))].
Proof.
  apply (tree_entries_inline_or_blob Mock.host Scenario.alice_api
           [Scenario.short_file; Scenario.long_file]
           Scenario.alice Scenario.remote).
  vm_compute. reflexivity.
Defined.

End UploadClaims.

Module EmptyUpload.
Import RunFacts ProgFacts ApiFacts UploadClaims EngineClaims.

Section WithHost.
Context {W : Type} (h : handler W).

Lemma run_getTreeSha_requests a c s w :
  let r := run h (Api.getTreeSha a c) s w in
  exists p, requests (trace r) = [p] /\ method p = Api.GET.
Proof.
  unfold Api.getTreeSha. cbv zeta. rewrite run_bind, run_request.
  cbn [outcome_of final_this final_world trace app].
  exists {| url := Api.baseUrl a ++ js "/git/commits/" ++ c; method := Api.GET;
            headers := Api.api_headers a; throw := false; body := None |}.
  split; [|reflexivity].
  destruct (request_outcome _) as [response | e]; cbn [trace]; [|reflexivity].
  rewrite run_bind.
  destruct (prop response _) as [e | tree]; cbn; [reflexivity|].
  destruct (prop tree _); reflexivity.
Qed.

Lemma batchUpload_empty a message s w :
  let head := run h (Api.getLatestCommitSha a) s w in
  let r := run h (Api.batchUpload a [] message) s w in
  (exists b, outcome_of r = Returned b)
  /\ Forall (fun p => method p = Api.GET) (requests (trace r))
  /\ (length (requests (trace r)) <= 2)%nat
  /\ (forall c, outcome_of head = Returned c -> truthy c = false ->
      outcome_of r = Returned true /\ trace r = trace head)
  /\ (forall c, outcome_of head = Returned c -> truthy c = true ->
      outcome_of r
      = Returned match outcome_of (run h (Api.getTreeSha a (interpolate c)) s
                                     (final_world head)) with
                 | Returned _ => true
                 | Threw _ => false
                 end).
Proof.
  intros head r. subst head r.
  unfold Api.batchUpload. rewrite run_try_catch, run_bind.
  rewrite run_getLatestCommitSha.
  cbn [outcome_of final_this final_world trace app].
  set (p0 := {| url := Api.baseUrl a ++ js "/git/refs/heads/" ++ api_branch a |}).
  set (c0 := match request_outcome (fst (h _ (RequestUrl p0) w)) with
             | Returned _ => _ | Threw _ => None end).
  destruct (truthy c0) eqn:Et.
  - rewrite run_bind.
    destruct (run_getTreeSha_requests a (interpolate c0) s (snd (h _ (RequestUrl p0) w)))
      as (p1 & Hreq & Hget).
    destruct (run h (Api.getTreeSha a (interpolate c0)) s _)
      as [s1 w1 t1 [tree | e]] eqn:Erun;
      cbn [outcome_of final_this final_world trace app run bind
           Api.build_tree_items call] in *.
    + rewrite app_nil_r.
      split; [eauto|]. split.
      { cbn [requests]. rewrite Hreq. repeat constructor; auto. }
      split.
      { cbn [requests]. rewrite Hreq. simpl. lia. }
      split.
      * intros c [= <-] Hc. congruence.
      * intros c [= <-] _. now rewrite Erun.
    + destruct (h _ (ConsoleError (js "Batch upload failed:") e) w1) as [[] w2].
      cbn [outcome_of final_this final_world trace app].
      split; [eauto|]. split.
      { cbn [requests]. rewrite requests_app, Hreq. repeat constructor; auto. }
      split.
      { cbn [requests]. rewrite requests_app, Hreq. simpl. lia. }
      split.
      * intros c [= <-] Hc. congruence.
      * intros c [= <-] _. now rewrite Erun.
  - cbn [outcome_of final_this final_world trace app run bind
         Api.build_tree_items].
    split; [eauto|]. split.
    { repeat constructor. }
    split.
    { simpl. lia. }
    split.
    + intros c [= <-] _. split; reflexivity.
    + intros c [= <-] Hc. congruence.
Qed.

Lemma run_bind_assoc {A B C} (p : Prog A) (f : A -> Prog B) (g : B -> Prog C) s w :
  run h (bind (bind p f) g) s w = run h (bind p (fun x => bind (f x) g)) s w.
Proof.
  revert s w.
  induction p as [a | e | X e k IH | k IH | b k IH]; intros s w; cbn [bind run];
    try reflexivity; auto.
  destruct (h _ e w) as [x w']. now rewrite IH.
Qed.

(** Steps of a run. *)
Lemma run_call_bind {X A} (e : IO X) (f : X -> Prog A) s w :
  run h (x <- call e ;; f x) s w =
  let r := run h (f (fst (h _ e w))) s (snd (h _ e w)) in
  {| final_this := final_this r; final_world := final_world r;
     trace := Event e (fst (h _ e w)) :: trace r;
     outcome_of := outcome_of r |}.
Proof. cbn. now destruct (h _ e w). Qed.

Lemma run_this_api_bind {A} (f : GitHubAPI -> Prog A) a s w :
  api s = Some a ->
  run h (x <- Service.this_api ;; f x) s w = run h (f a) s w.
Proof. intros E. cbn. now rewrite E. Qed.

Lemma run_get_bind {X A} (g : SyncService -> X) (f : X -> Prog A) s w :
  run h (x <- Service.get g ;; f x) s w = run h (f (g s)) s w.
Proof. reflexivity. Qed.

Lemma run_this_bind {A} (f : SyncService -> Prog A) s w :
  run h (x <- this ;; f x) s w = run h (f s) s w.
Proof. reflexivity. Qed.

(** The body of [push] on a vault without a file to upload. *)
Lemma run_push_body_nothing a s w :
  api s = Some a ->
  let notice := NewNotice (js "Pushing to GitHub.") in
  let ens := run h (Api.ensureRepository a) s (snd (h _ notice w)) in
  let files := h _ VaultGetFiles (final_world ens) in
  outcome_of ens = Returned true ->
  filter (Service.vault_file_kept s) (fst files) = [] ->
  run h Service.push_body s w =
  {| final_this := s; final_world := snd files;
     trace := Event notice (fst (h _ notice w))
              :: trace ens ++ [Event VaultGetFiles (fst files)];
     outcome_of := Returned {| success := true;
                               message := js "No files to push";
                               filesUploaded := 0; filesDownloaded := 0;
                               filesDeleted := 0 |} |}.
Proof.
  intros Hapi notice ens files Hens Hfiles.
  unfold Service.push_body. rewrite run_call_bind. fold notice. cbv zeta.
  rewrite (run_this_api_bind _ a) by assumption.
  rewrite run_bind. cbv zeta. fold ens. rewrite Hens. cbn [negb].
  assert (Hs : final_this ens = s)
    by (apply run_flag_free, flag_free_ensureRepository).
  rewrite Hs. unfold Service.getVaultFiles.
  rewrite run_bind_assoc, run_call_bind. cbv zeta. fold files.
  rewrite run_bind_assoc, run_this_bind. cbn [bind]. rewrite Hfiles.
  cbn [Service.read_files bind run outcome_of final_this final_world trace].
  reflexivity.
Qed.

(** [ensureRepository] asks for the repository and, failing that, for its
    creation; it makes no other request. *)
Lemma ensureRepository_requests a s w :
  Forall (fun p => url p = Api.baseUrl a
                   \/ url p = js "https://api.github.com/user/repos")
    (requests (trace (run h (Api.ensureRepository a) s w))).
Proof.
  unfold Api.ensureRepository.
  rewrite run_try_catch, run_bind, run_request.
  cbn [outcome_of final_this final_world trace app].
  destruct (request_outcome _) as [response | e];
    cbn [run outcome_of final_this final_world trace app requests].
  - constructor; [now left | constructor].
  - constructor; [now left|].
    rewrite run_try_catch, run_bind, run_request.
    cbn [outcome_of final_this final_world trace app].
    destruct (request_outcome _) as [response | e'];
      cbn [run outcome_of final_this final_world trace app requests].
    + constructor; [now right | constructor].
    + constructor; [now right|].
      cbn. destruct (h _ _ _) as [[] w2]. constructor.
Qed.

Lemma push_of_nothing a s w :
  api s = Some a -> isSyncing s = false ->
  let notice := NewNotice (js "Pushing to GitHub.") in
  let ens := run h (Api.ensureRepository a) (set_syncing true s)
               (snd (h _ notice w)) in
  outcome_of ens = Returned true ->
  filter (Service.vault_file_kept s)
    (fst (h _ VaultGetFiles (final_world ens))) = [] ->
  let r := run h Service.push s w in
  outcome_of r = Returned {| success := true; message := js "No files to push";
                             filesUploaded := 0; filesDownloaded := 0;
                             filesDeleted := 0 |}
  /\ requests (trace r) = requests (trace ens)
  /\ Forall (fun p => url p = Api.baseUrl a
                      \/ url p = js "https://api.github.com/user/repos")
       (requests (trace r))
  /\ isSyncing (final_this r) = false.
Proof.
  intros Hapi Hidle notice ens Hens Hfiles r.
  assert (Hbody := run_push_body_nothing a (set_syncing true s) w Hapi Hens Hfiles).
  assert (Hr : outcome_of r = Returned {| success := true;
                                          message := js "No files to push";
                                          filesUploaded := 0; filesDownloaded := 0;
                                          filesDeleted := 0 |}
               /\ requests (trace r) = requests (trace ens)).
  { subst r. unfold Service.push.
    rewrite run_get_bind, Hapi, run_get_bind, Hidle. cbn [run].
    rewrite run_finally, run_try_catch, Hbody.
    cbn [run outcome_of final_this final_world trace].
    split; [reflexivity|].
    rewrite !app_nil_r. cbn [requests]. rewrite requests_app. cbn [requests].
    apply app_nil_r. }
  destruct Hr as [Hout Hreq]. split; [exact Hout|]. split; [exact Hreq|]. split.
  - rewrite Hreq. apply ensureRepository_requests.
  - subst r. rewrite (run_operation_restores h Service.Push). exact Hidle.
Qed.

End WithHost.

(** Claim C5, as stated, fails for [batchUpload]: given no file, it first
    asks for the head of the branch and for the tree of the head commit,
    and it returns [false] when the second request fails. *)
Lemma batchUpload_of_nothing_can_fail :
  let r := run Mock.host (Api.batchUpload Scenario.alice_api [] (js "sync"))
             Scenario.alice Scenario.broken_head in
  outcome_of r = Returned false
  /\ map (fun p => (method p, url p)) (requests (trace r))
     = [ (Api.GET, js "https://api.github.com/repos/alice/vault/git/refs/heads/main");
         (Api.GET, js "https://api.github.com/repos/alice/vault/git/commits/c1") ].
Proof. split; vm_compute; reflexivity. Qed.


(** Claim C5, amended.  [batchUpload], given an empty list of files,
    never throws and issues no write: it asks for the head of the
    branch, returns [true] with no other host call when there is none,
    and otherwise asks for the tree of the head commit and returns [true]
    when that request succeeds and [false] when it fails.  [push], on a
    configured and idle engine, once the repository is ensured, and with
    no eligible file in the vault, returns success with all counters
    zero; its only requests are those that ensure the repository, so
    there is no batch-write call; the flag is cleared. *)
Theorem empty_file_set_is_trivial :
  (forall W (h : handler W) a message s w,
     let head := run h (Api.getLatestCommitSha a) s w in
     let r := run h (Api.batchUpload a [] message) s w in
     (exists b, outcome_of r = Returned b)
     /\ Forall (fun p => method p = Api.GET) (requests (trace r))
     /\ (length (requests (trace r)) <= 2)%nat
     /\ (forall c, outcome_of head = Returned c -> truthy c = false ->
         outcome_of r = Returned true /\ trace r = trace head)
     /\ (forall c, outcome_of head = Returned c -> truthy c = true ->
         outcome_of r
         = Returned match outcome_of (run h (Api.getTreeSha a (interpolate c)) s
                                        (final_world head)) with
                    | Returned _ => true
                    | Threw _ => false
                    end))
  /\ (forall W (h : handler W) a s w,
       api s = Some a -> isSyncing s = false ->
       let notice := NewNotice (js "Pushing to GitHub.") in
       let ens := run h (Api.ensureRepository a) (set_syncing true s)
                    (snd (h _ notice w)) in
       outcome_of ens = Returned true ->
       filter (Service.vault_file_kept s)
         (fst (h _ VaultGetFiles (final_world ens))) = [] ->
       let r := run h Service.push s w in
       outcome_of r = Returned {| success := true;
                                  message := js "No files to push";
                                  filesUploaded := 0; filesDownloaded := 0;
                                  filesDeleted := 0 |}
       /\ requests (trace r) = requests (trace ens)
       /\ Forall (fun p => url p = Api.baseUrl a
                           \/ url p = js "https://api.github.com/user/repos")
            (requests (trace r))
       /\ isSyncing (final_this r) = false).
Proof.
  split.
  - intros. apply batchUpload_empty.
  - intros. now apply push_of_nothing.
Qed.

(** A witness: [push] from an empty vault to the repository of the
    scenario, and [batchUpload] of no file to a repository without a
    commit. *)
Lemma empty_file_set_witness :
  (let r := run Mock.host Service.push Scenario.alice Scenario.remote in
   outcome_of r = Returned {| success := true;
                              message := js "No files to push";
                              filesUploaded := 0; filesDownloaded := 0;
                              filesDeleted := 0 |}
   /\ map url (requests (trace r)) = [js "https://api.github.com/repos/alice/vault"])
  /\ outcome_of (run Mock.host (Api.batchUpload Scenario.alice_api [] (js "sync"))
                   Scenario.alice Scenario.empty_repository) = Returned true.
Proof.
  split.
  - destruct (proj2 empty_file_set_is_trivial Mock.world Mock.host
                Scenario.alice_api Scenario.alice Scenario.remote
                eq_refl eq_refl eq_refl eq_refl) as (H1 & H2 & _).
    split; [exact H1|]. cbv zeta in H2. rewrite H2. reflexivity.
  - destruct (proj1 empty_file_set_is_trivial Mock.world Mock.host
                Scenario.alice_api (js "sync") Scenario.alice
                Scenario.empty_repository) as (_ & _ & _ & H & _).
    now apply (H None).
Defined.

End EmptyUpload.

(* ================================================================ *)
(** * Claims about the exclusion rules *)
(* ================================================================ *)

Module ExclusionClaims.
Import RunFacts ProgFacts EmptyUpload.

(** The loop of [pull] passes over a remote file that a folder rule or a
    file rule excludes: it makes no host call for it. *)
Lemma pull_loop_skips {W} (h : handler W) file rest n s w :
  Service.in_excluded_folder s (gf_path file) = true
  \/ Service.ends_with_excluded_file s (gf_path file) = true ->
  run h (Service.pull_loop (file :: rest) n) s w
  = run h (Service.pull_loop rest n) s w.
Proof.
  intros H. cbn [Service.pull_loop]. rewrite run_this_bind.
  unfold Service.pull_shouldSkip.
  replace (_ || _) with true; [reflexivity|].
  symmetry. apply orb_true_iff. exact H.
Qed.

(** The files [push] and [sync] upload are the files of the vault that
    no folder rule and no file rule excludes. *)
Lemma getVaultFiles_kept {W} (h : handler W) s w :
  outcome_of (run h Service.getVaultFiles s w)
  = Returned (filter (fun f =>
                negb (Service.in_excluded_folder s (path f))
                && negb (existsb (fun excludedFile =>
                                    JS.eqb (name f) excludedFile
                                    || endsWith (path f) excludedFile)
                           (excludedFiles (settings s))))
               (fst (h _ VaultGetFiles w))).
Proof.
  unfold Service.getVaultFiles. rewrite run_call_bind. reflexivity.
Qed.

(** Claim C1 holds for [push] and [pull] and fails for [sync]: with the
    default rules, which exclude the files named [.DS_Store], a remote
    branch that holds a [.DS_Store] and a note, and an empty vault,
    [sync] downloads both files and writes the excluded one to the vault;
    [pull], from the same state, writes the note only. *)
Theorem sync_downloads_excluded_file :
  let r := run Mock.host Service.sync Scenario.alice Scenario.remote in
  Service.ends_with_excluded_file Scenario.alice (js ".DS_Store") = true
  /\ Service.pull_shouldSkip Scenario.alice (js ".DS_Store") = true
  /\ Service.sync_shouldSkip Scenario.alice (js ".DS_Store") = false
  /\ writes (trace r) = [ (js ".DS_Store", Text (js "junk"));
                          (js "notes/a.md", Text (js "hello")) ]
  /\ outcome_of r
     = Returned {| success := true;
                   message := js "Sync complete: 0 uploaded, 2 downloaded";
                   filesUploaded := 0; filesDownloaded := 2;
                   filesDeleted := 0 |}
  /\ writes (trace (run Mock.host Service.pull Scenario.alice Scenario.remote))
     = [ (js "notes/a.md", Text (js "hello")) ].
Proof. repeat split; vm_compute; reflexivity. Qed.

End ExclusionClaims.

(* ================================================================ *)
(** * Host calls an operation never makes *)
(* ================================================================ *)

Module ObserveFacts.
Import RunFacts ProgFacts JSFacts.

Lemma emits_sound {W} (h : handler W) I Q {A} (p : Prog A) :
  (forall s b, I s -> I (set_syncing b s)) ->
  Emits I Q p ->
  forall s w, I s -> Forall (shown Q) (trace (run h p s w)).
Proof.
  intros HI E. induction E as [a | e | X e k Hq _ IH | k _ IH | b k _ IH];
    intros s w Hs; simpl.
  - constructor.
  - constructor.
  - destruct (h _ e w) as [x w']. simpl. constructor; [exact Hq | now apply IH].
  - now apply IH.
  - apply IH. now apply HI.
Qed.

Lemma emits_bind I Q {A B} (p : Prog A) (f : A -> Prog B) :
  Emits I Q p -> (forall a, Emits I Q (f a)) -> Emits I Q (bind p f).
Proof. intros Hp Hf. induction Hp; simpl; try constructor; auto. Qed.

Lemma emits_try_catch I Q {A} (p : Prog A) (c : exn -> Prog A) :
  Emits I Q p -> (forall e, Emits I Q (c e)) -> Emits I Q (try_catch p c).
Proof. intros Hp Hc. induction Hp; simpl; try constructor; auto. Qed.

Lemma emits_finally I Q {A} (p : Prog A) (f : Prog unit) :
  Emits I Q p -> Emits I Q f -> Emits I Q (finally p f).
Proof.
  intros Hp Hf. induction Hp; simpl; try (constructor; auto).
  - apply emits_bind; [assumption|]. intros _. constructor.
  - apply emits_bind; [assumption|]. intros _. constructor.
Qed.

Lemma emits_lift I Q {X} (r : exn + X) : Emits I Q (lift r).
Proof. destruct r; constructor. Qed.

Lemma emits_call I (Q : forall X, IO X -> Prop) {X} (e : IO X) :
  Q X e -> Emits I Q (call e).
Proof. intros H. constructor; [exact H|]. intros x. constructor. Qed.

Lemma emits_await I (Q : forall X, IO X -> Prop) {X} (e : IO (exn + X)) :
  Q _ e -> Emits I Q (await e).
Proof. intros H. constructor; [exact H|]. intros [err | x]; constructor. Qed.

Lemma emits_request I (Q : forall X, IO X -> Prop) a u m b :
  Q _ (RequestUrl {| url := u; method := m; headers := Api.api_headers a;
                     throw := false; body := b |}) ->
  Emits I Q (Api.request a u m b).
Proof.
  intros H. unfold Api.request. apply emits_bind; [now apply emits_await|].
  intros r. destruct (_ <=? _)%N; constructor.
Qed.

Lemma emits_contents_url I Q a path {B} (f : jsstring -> Prog B) :
  (forall p, Emits I Q (f (Api.baseUrl a ++ js "/contents/" ++ p))) ->
  Emits I Q (bind (lift (Api.contents_url a path)) f).
Proof.
  intros H. unfold Api.contents_url.
  destruct (URI.encodeURIComponent path); simpl; [apply H | constructor].
Qed.

Lemma emits_this_api a Q {B} (f : GitHubAPI -> Prog B) :
  Emits (configured_with a) Q (f a) ->
  Emits (configured_with a) Q (bind Service.this_api f).
Proof.
  intros H. unfold Service.this_api. simpl. constructor. intros s Hs.
  unfold configured_with in Hs. rewrite Hs. exact H.
Qed.

Create HintDb emits.
Create HintDb methods.
#[export] Hint Unfold Api.verifyAccess Api.ensureRepository
  Api.getLatestCommitSha Api.getTreeSha Api.getAllFiles Api.getFileContent
  Api.getFileSha Api.putFile Api.deleteFile Api.createTree Api.createCommit
  Api.updateBranchRef Api.create_blob Api.batchUpload
  Service.get Service.verifyConnection Service.getVaultFiles
  Service.getFileContent Service.ensureFolder Service.writeFileContent
  Service.getCommitMessage Service.push_body Service.push Service.pull_body
  Service.pull Service.sync_body Service.sync this : methods.

(** Such goals are solved along the structure of the program; [solver]
    settles what is asked of each host call. *)
Ltac emit solver :=
  repeat first
    [ progress intros
    | solve [auto with emits nocore]
    | apply emits_lift
    | apply emits_contents_url
    | apply emits_this_api
    | apply emits_request; solver
    | apply emits_call; solver
    | apply emits_await; solver
    | apply emits_bind | apply emits_try_catch | apply emits_finally
    | apply em_ret | apply em_throw | apply em_get | apply em_set
    | match goal with
      | |- Emits _ _ (match ?x with _ => _ end) => destruct x
      end
    | progress (autounfold with methods; cbv zeta) ].

Ltac plain := exact I.
Ltac method_is_get := first [exact I | reflexivity].
Ltac method_differs :=
  first [ exact I
        | split; intros Hm; vm_compute in Hm; discriminate Hm ].
Ltac own_request :=
  first [ exact I
        | split; [| split; reflexivity];
          first [ right; reflexivity
                | left; cbn [url]; rewrite <- ?app_assoc;
                  first [ apply startsWith_app
                        | rewrite <- (app_nil_r (Api.baseUrl _)) at 1;
                          apply startsWith_app ] ] ].

(** ** A pull only reads the remote *)

Lemma reads_getAllFiles I a : Emits I reads_remote (Api.getAllFiles a).
Proof. emit method_is_get. Qed.

Lemma reads_getFileContent I a p : Emits I reads_remote (Api.getFileContent a p).
Proof. emit method_is_get. Qed.

Lemma reads_writeFileContent I p c :
  Emits I reads_remote (Service.writeFileContent p c).
Proof. emit method_is_get. Qed.
#[export] Hint Resolve reads_getAllFiles reads_getFileContent
  reads_writeFileContent : emits.

Lemma reads_pull_loop files n :
  Emits any_service reads_remote (Service.pull_loop files n).
Proof.
  revert n. induction files as [|file rest IH]; intros n; simpl;
    emit method_is_get.
Qed.
#[export] Hint Resolve reads_pull_loop : emits.

Lemma reads_pull : Emits any_service reads_remote Service.pull.
Proof. emit method_is_get. Qed.

(** ** A push leaves the vault as it is *)

Lemma leaves_build_tree_items I a files items :
  Emits I leaves_vault (Api.build_tree_items a files items).
Proof.
  revert items. induction files as [|file rest IH]; intros items; simpl;
    emit plain.
Qed.
#[export] Hint Resolve leaves_build_tree_items : emits.

Lemma leaves_read_files I files acc :
  Emits I leaves_vault (Service.read_files files acc).
Proof.
  revert acc. induction files as [|file rest IH]; intros acc; simpl; emit plain.
Qed.
#[export] Hint Resolve leaves_read_files : emits.

Lemma leaves_push : Emits any_service leaves_vault Service.push.
Proof. emit plain. Qed.

(** ** No operation deletes or overwrites a remote file by itself *)

Lemma keeps_build_tree_items I a files items :
  Emits I no_delete_no_put (Api.build_tree_items a files items).
Proof.
  revert items. induction files as [|file rest IH]; intros items; simpl;
    emit method_differs.
Qed.

Lemma keeps_read_files I files acc :
  Emits I no_delete_no_put (Service.read_files files acc).
Proof.
  revert acc. induction files as [|file rest IH]; intros acc; simpl;
    emit method_differs.
Qed.

Lemma keeps_sync_read_files I files acc n :
  Emits I no_delete_no_put (Service.sync_read_files files acc n).
Proof.
  revert acc n. induction files as [|file rest IH]; intros acc n; simpl;
    emit method_differs.
Qed.
#[export] Hint Resolve keeps_build_tree_items keeps_read_files
  keeps_sync_read_files : emits.

Lemma keeps_pull_loop files n :
  Emits any_service no_delete_no_put (Service.pull_loop files n).
Proof.
  revert n. induction files as [|file rest IH]; intros n; simpl;
    emit method_differs.
Qed.

Lemma keeps_sync_loop vault remote n :
  Emits any_service no_delete_no_put (Service.sync_loop vault remote n).
Proof.
  revert n. induction remote as [|path rest IH]; intros n; simpl;
    emit method_differs.
Qed.
#[export] Hint Resolve keeps_pull_loop keeps_sync_loop : emits.

Lemma keeps_operation op :
  Emits any_service no_delete_no_put (Service.run_operation op).
Proof. destruct op; simpl; emit method_differs. Qed.

(** ** Every request goes to the configured repository *)

Lemma own_build_tree_items I a files items :
  Emits I (to_repository a) (Api.build_tree_items a files items).
Proof.
  revert items. induction files as [|file rest IH]; intros items; simpl;
    emit own_request.
Qed.

Lemma own_read_files I a files acc :
  Emits I (to_repository a) (Service.read_files files acc).
Proof.
  revert acc. induction files as [|file rest IH]; intros acc; simpl;
    emit own_request.
Qed.

Lemma own_sync_read_files I a files acc n :
  Emits I (to_repository a) (Service.sync_read_files files acc n).
Proof.
  revert acc n. induction files as [|file rest IH]; intros acc n; simpl;
    emit own_request.
Qed.
#[export] Hint Resolve own_build_tree_items own_read_files
  own_sync_read_files : emits.

Lemma own_pull_loop a files n :
  Emits (configured_with a) (to_repository a) (Service.pull_loop files n).
Proof.
  revert n. induction files as [|file rest IH]; intros n; simpl;
    emit own_request.
Qed.

Lemma own_sync_loop a vault remote n :
  Emits (configured_with a) (to_repository a)
    (Service.sync_loop vault remote n).
Proof.
  revert n. induction remote as [|path rest IH]; intros n; simpl;
    emit own_request.
Qed.
#[export] Hint Resolve own_pull_loop own_sync_loop : emits.

Lemma own_operation a op :
  Emits (configured_with a) (to_repository a) (Service.run_operation op).
Proof. destruct op; simpl; emit own_request. Qed.

Lemma own_api_methods I a :
  Emits I (to_repository a) (Api.verifyAccess a)
  /\ Emits I (to_repository a) (Api.ensureRepository a)
  /\ (forall p c m, Emits I (to_repository a) (Api.putFile a p c m))
  /\ (forall p m, Emits I (to_repository a) (Api.deleteFile a p m)).
Proof. repeat split; emit own_request. Qed.

End ObserveFacts.

(* ================================================================ *)
(** * Text through UTF-8 and base64 *)
(* ================================================================ *)

Module TextFacts.
Import UTF8 JSFacts Base64Facts.

(** A comparison whose result follows from the hypotheses is replaced
    by it. *)
Ltac settle :=
  repeat first
    [ match goal with
      | |- context [(?a <=? ?b)%N] =>
          first [ replace (a <=? b)%N with true
                    by (symmetry; apply N.leb_le; lia)
                | replace (a <=? b)%N with false
                    by (symmetry; apply N.leb_gt; lia) ]
      | |- context [(?a <? ?b)%N] =>
          first [ replace (a <? b)%N with true
                    by (symmetry; apply N.ltb_lt; lia)
                | replace (a <? b)%N with false
                    by (symmetry; apply N.ltb_ge; lia) ]
      | |- context [(?a =? ?b)%N] =>
          first [ replace (a =? b)%N with true
                    by (symmetry; apply N.eqb_eq; lia)
                | replace (a =? b)%N with false
                    by (symmetry; apply N.eqb_neq; lia) ]
      end
    | progress cbn [andb orb negb app bytes_needed bytes_seen code_point
                    lower upper decoder0] ].

Lemma encode_code_point_octets (cp : N) :
  (cp < 1114112)%N -> Forall Base64.octet (encode_code_point cp).
Proof.
  intros H. unfold encode_code_point, Base64.octet.
  destruct (N.ltb_spec cp 128); [repeat constructor; lia|].
  destruct (N.ltb_spec cp 2048); [repeat constructor; lia|].
  destruct (N.ltb_spec cp 65536); repeat constructor; lia.
Qed.

Lemma decode_one (cp : N) (rest : list N) :
  (cp < 128)%N ->
  decode_from decoder0 (cp :: rest) = cp :: decode_from decoder0 rest.
Proof.
  intros H. cbn [decode_from]. unfold decode_byte, decode_lead.
  settle. reflexivity.
Qed.

Lemma decode_two (cp : N) (rest : list N) :
  (128 <= cp < 2048)%N ->
  decode_from decoder0 ((192 + cp / 64) :: (128 + cp mod 64) :: rest)%N
  = cp :: decode_from decoder0 rest.
Proof.
  intros H. cbn [decode_from]. unfold decode_byte, decode_lead.
  settle. unfold units_of_code_point. settle. f_equal. f_equal. lia.
Qed.

Lemma decode_three (cp : N) (rest : list N) :
  (2048 <= cp < 55296 \/ 57344 <= cp < 65536)%N ->
  decode_from decoder0
    ((224 + cp / 4096) :: (128 + (cp / 64) mod 64) :: (128 + cp mod 64)
       :: rest)%N
  = cp :: decode_from decoder0 rest.
Proof.
  intros H. cbn [decode_from]. unfold decode_byte at 1, decode_lead.
  settle.
  destruct (N.eqb_spec (224 + cp / 4096) 224) as [E1 | E1];
    destruct (N.eqb_spec (224 + cp / 4096) 237) as [E2 | E2]; try lia;
    unfold decode_byte, decode_lead; settle;
    unfold units_of_code_point; settle; f_equal; f_equal; lia.
Qed.

Lemma decode_four (cp : N) (rest : list N) :
  (65536 <= cp < 1114112)%N ->
  decode_from decoder0
    ((240 + cp / 262144) :: (128 + (cp / 4096) mod 64)
       :: (128 + (cp / 64) mod 64) :: (128 + cp mod 64) :: rest)%N
  = units_of_code_point cp ++ decode_from decoder0 rest.
Proof.
  intros H. cbn [decode_from]. unfold decode_byte at 1, decode_lead.
  settle.
  destruct (N.eqb_spec (240 + cp / 262144) 240) as [E1 | E1];
    destruct (N.eqb_spec (240 + cp / 262144) 244) as [E2 | E2]; try lia;
    unfold decode_byte, decode_lead; settle;
    f_equal; f_equal; lia.
Qed.

Lemma decode_code_point (cp : N) (rest : list N) :
  (cp < 55296 \/ 57344 <= cp < 1114112)%N ->
  decode_from decoder0 (encode_code_point cp ++ rest)
  = units_of_code_point cp ++ decode_from decoder0 rest.
Proof.
  intros H. unfold encode_code_point.
  destruct (N.ltb_spec cp 128).
  { unfold units_of_code_point. settle. now apply decode_one. }
  destruct (N.ltb_spec cp 2048).
  { unfold units_of_code_point. settle. apply decode_two. lia. }
  destruct (N.ltb_spec cp 65536).
  { unfold units_of_code_point. settle. apply decode_three. lia. }
  apply decode_four. lia.
Qed.

Lemma surrogate_pair (c d : N) :
  is_high_surrogate c = true -> is_low_surrogate d = true ->
  let cp := (65536 + (c - 55296) * 1024 + (d - 56320))%N in
  (65536 <= cp < 1114112)%N /\ units_of_code_point cp = [c; d].
Proof.
  unfold is_high_surrogate, is_low_surrogate. intros Hc Hd.
  apply andb_true_iff in Hc as [Hc1 Hc2]. apply andb_true_iff in Hd as [Hd1 Hd2].
  apply N.leb_le in Hc1, Hc2, Hd1, Hd2. cbv zeta. split; [lia|].
  unfold units_of_code_point. settle. f_equal; [|f_equal]; lia.
Qed.

Lemma decode_encode (s : jsstring) :
  Forall (fun c => c < 65536)%N s -> URI.well_formed s = true ->
  decode_from decoder0 (encode s) = s.
Proof.
  remember (length s) as n eqn:Hn. revert s Hn.
  induction n as [n IH] using lt_wf_ind. intros s Hn Hs Hw.
  destruct s as [|c s]; [reflexivity|].
  apply Forall_cons_iff in Hs as [Hc Hs].
  cbn [encode URI.well_formed] in *.
  destruct (is_high_surrogate c) eqn:Hh.
  - destruct s as [|d s]; [discriminate|].
    apply andb_true_iff in Hw as [Hd Hw]. rewrite Hd.
    apply Forall_cons_iff in Hs as [_ Hs].
    destruct (surrogate_pair c d Hh Hd) as [Hcp Hu].
    rewrite decode_code_point by lia. rewrite Hu. cbn [app]. do 2 f_equal.
    apply (IH (length s)); auto. subst n. simpl. lia.
  - apply andb_true_iff in Hw as [Hl Hw]. apply negb_true_iff in Hl.
    rewrite Hl. rewrite decode_code_point.
    + unfold units_of_code_point. settle. cbn [app]. f_equal.
      apply (IH (length s)); auto. subst n. simpl. lia.
    + unfold is_high_surrogate, is_low_surrogate in *.
      apply andb_false_iff in Hh, Hl.
      rewrite !N.leb_gt in Hh, Hl. lia.
Qed.

Lemma head_eq (a x : N) (l r : list N) : a :: l = x :: r -> a = x.
Proof. now intros [= ]. Qed.

Lemma head3_eq (a b c x y z : N) (l r : list N) :
  a :: b :: c :: l = x :: y :: z :: r -> a = x /\ b = y /\ c = z.
Proof. now intros [= ]. Qed.

Lemma code_point_bom (cp : N) (tail rest : list N) :
  encode_code_point cp ++ tail = (239 :: 187 :: 191 :: rest)%N ->
  cp = 65279%N.
Proof.
  unfold encode_code_point.
  destruct (N.ltb_spec cp 128); cbn [app];
    [intros E; apply head_eq in E; lia|].
  destruct (N.ltb_spec cp 2048); cbn [app];
    [intros E; apply head_eq in E; lia|].
  destruct (N.ltb_spec cp 65536); cbn [app]; intros E.
  - apply head3_eq in E. lia.
  - apply head_eq in E. lia.
Qed.

Lemma encode_no_bom (s : jsstring) (rest : list N) :
  startsWith s [65279%N] = false ->
  encode s <> (239 :: 187 :: 191 :: rest)%N.
Proof.
  destruct s as [|c s]; [discriminate|]. cbn [encode startsWith].
  intros Hc E. rewrite andb_true_r in Hc. apply N.eqb_neq in Hc.
  destruct (is_high_surrogate c) eqn:Hh.
  - destruct s as [|d s]; [discriminate|].
    destruct (is_low_surrogate d) eqn:Hd.
    + apply code_point_bom in E.
      destruct (surrogate_pair c d Hh Hd) as [Hcp _]. lia.
    + discriminate.
  - destruct (is_low_surrogate c); [discriminate|].
    apply code_point_bom in E. congruence.
Qed.

Lemma decode_no_bom (l : list N) :
  (forall rest, l <> (239 :: 187 :: 191 :: rest)%N) ->
  decode l = decode_from decoder0 l.
Proof.
  intros H. unfold decode.
  destruct l as [|a [|b [|c l]]]; try reflexivity.
  - destruct a as [|p]; [reflexivity|].
    do 8 (destruct p as [p|p|]; try reflexivity).
  - destruct a as [|p]; [reflexivity|].
    do 8 (destruct p as [p|p|]; try reflexivity).
    destruct b as [|p]; [reflexivity|].
    do 8 (destruct p as [p|p|]; try reflexivity).
  - destruct a as [|p]; [reflexivity|].
    do 8 (destruct p as [p|p|]; try reflexivity).
    destruct b as [|p]; [reflexivity|].
    do 8 (destruct p as [p|p|]; try reflexivity).
    destruct c as [|p]; [reflexivity|].
    do 8 (destruct p as [p|p|]; try reflexivity).
    now destruct (H l).
Qed.

Lemma to_N_u8 (n : N) : (n < 256)%N -> Byte.to_N (u8 n) = n.
Proof.
  intros H. unfold u8. rewrite N.mod_small by exact H.
  destruct (Byte.of_N n) as [b|] eqn:E.
  - now apply Byte.to_of_N.
  - apply Byte.of_N_None_iff in E. lia.
Qed.

Lemma octets_through_bytes (l : list N) :
  Forall Base64.octet l -> map Byte.to_N (map u8 l) = l.
Proof.
  induction 1 as [|n l Hn _ IH]; simpl; [reflexivity|].
  now rewrite to_N_u8, IH.
Qed.

Lemma encode_octets (s : jsstring) :
  forallb (fun c => c <? 65536)%N s = true -> Forall Base64.octet (encode s).
Proof.
  remember (length s) as n eqn:Hn. revert s Hn.
  induction n as [n IH] using lt_wf_ind. intros s Hn Hs.
  destruct s as [|c s]; [constructor|].
  cbn [forallb] in Hs. apply andb_true_iff in Hs as [Hc Hs].
  apply N.ltb_lt in Hc. cbn [encode].
  assert (Hrest : Forall Base64.octet (encode s)).
  { apply (IH (length s)); auto. subst n. simpl. lia. }
  destruct (is_high_surrogate c) eqn:Hh.
  - destruct s as [|d s]; [now apply encode_code_point_octets|].
    destruct (is_low_surrogate d) eqn:Hd.
    + apply Forall_app. split.
      * apply encode_code_point_octets.
        destruct (surrogate_pair c d Hh Hd) as [Hcp _]. lia.
      * cbn [forallb] in Hs. apply andb_true_iff in Hs as [_ Hs].
        apply (IH (length s)); auto. subst n. simpl. lia.
    + apply Forall_app. split; [now apply encode_code_point_octets | exact Hrest].
  - destruct (is_low_surrogate c).
    + apply Forall_app. split; [now apply encode_code_point_octets | exact Hrest].
    + apply Forall_app. split; [apply encode_code_point_octets; lia | exact Hrest].
Qed.

Lemma units_forall (s : jsstring) :
  forallb (fun c => c <? 65536)%N s = true -> Forall (fun c => c < 65536)%N s.
Proof.
  intros H. apply Forall_forall. intros c Hc.
  rewrite forallb_forall in H. now apply N.ltb_lt, H.
Qed.

(** The text that [decode] gives back. *)
Lemma decode_encode_text (s : jsstring) :
  forallb (fun c => c <? 65536)%N s = true ->
  URI.well_formed s = true ->
  startsWith s [65279%N] = false ->
  decode (encode s) = s.
Proof.
  intros Hu Hw Hb. rewrite decode_no_bom.
  - apply decode_encode; [now apply units_forall | exact Hw].
  - intros rest. now apply encode_no_bom.
Qed.

Lemma filter_newline (l : list N) (n : nat) :
  filter (fun c => negb (c =? 10)%N)
    (map Base64.char_of_sextet l ++ Base64.padding n)
  = map Base64.char_of_sextet l ++ Base64.padding n.
Proof.
  apply forallb_filter_id. apply forallb_forall. intros c Hc.
  apply in_app_or in Hc as [Hc | Hc].
  - apply in_map_iff in Hc as [x [<- _]].
    unfold Base64.char_of_sextet.
    repeat match goal with
           | |- context [if ?b then _ else _] => destruct b
           end; apply negb_true_iff, N.eqb_neq; lia.
  - destruct (padding_cases n) as [E | [E | E]]; rewrite E in Hc;
      simpl in Hc; intuition (subst; reflexivity).
Qed.

End TextFacts.

Module TextTransport.
Import UTF8 Base64 JSFacts Base64Facts TextFacts.

(** [encodeBase64] (lines 319-326) has a result for every string. *)
Lemma encodeBase64_defined (s : jsstring) :
  Api.encodeBase64 s
  = inr (map char_of_sextet (sextets (map Byte.to_N (map u8 (encode s))))
           ++ padding (length (map Byte.to_N (map u8 (encode s))))).
Proof.
  unfold Api.encodeBase64. cbv zeta.
  destruct (atob_btoa (map Byte.to_N (map u8 (encode s)))) as [E _].
  - apply VaultClaims.binary_string_octets.
  - now rewrite E.
Qed.

Lemma decodeBase64_encoded (l : list Byte.byte) (served : jsstring) :
  filter (fun c => negb (c =? 10)%N) served
  = map char_of_sextet (sextets (map Byte.to_N l))
      ++ padding (length (map Byte.to_N l)) ->
  Api.decodeBase64 served = inr (decode (map Byte.to_N l)).
Proof.
  intros E. unfold Api.decodeBase64. rewrite E.
  destruct (atob_btoa (map Byte.to_N l)) as [_ E'].
  - apply VaultClaims.binary_string_octets.
  - rewrite E'. cbv zeta. now rewrite VaultClaims.bytes_of_binary_string.
Qed.

(** The text of a served file, when it was encoded by [encodeBase64]. *)
Lemma served_text (s served : jsstring) :
  forallb (fun c => c <? 65536)%N s = true ->
  URI.well_formed s = true ->
  startsWith s [65279%N] = false ->
  Api.encodeBase64 s = inr (filter (fun c => negb (c =? 10)%N) served) ->
  Api.decodeBase64 served = inr s.
Proof.
  intros Hu Hw Hb E. rewrite encodeBase64_defined in E.
  injection E as E. rewrite (decodeBase64_encoded _ _ (eq_sym E)).
  rewrite octets_through_bytes by now apply encode_octets.
  now rewrite decode_encode_text.
Qed.

(** X1.  Text survives the transport encoding: for a well-formed string
    of UTF-16 code units that does not begin with a byte order mark,
    [encodeBase64] gives a text from which [decodeBase64] gives the
    string back, wherever line feeds were put into the text on the
    way. *)
Theorem text_round_trip (s : jsstring) :
  forallb (fun c => c <? 65536)%N s = true ->
  URI.well_formed s = true ->
  startsWith s [65279%N] = false ->
  exists encoded,
    Api.encodeBase64 s = inr encoded
    /\ forall served,
         filter (fun c => negb (c =? 10)%N) served = encoded ->
         Api.decodeBase64 served = inr s.
Proof.
  intros Hu Hw Hb. eexists. split; [apply encodeBase64_defined|].
  intros served E. apply served_text; auto.
  rewrite E. apply encodeBase64_defined.
Qed.

Lemma text_round_trip_witness :
  exists encoded,
    Api.encodeBase64 [104; 233; 8364; 55357; 56832; 10]%N = inr encoded
    /\ forall served,
         filter (fun c => negb (c =? 10)%N) served = encoded ->
         Api.decodeBase64 served = inr [104; 233; 8364; 55357; 56832; 10]%N.
Proof.
  apply (text_round_trip [104; 233; 8364; 55357; 56832; 10]%N); reflexivity.
Defined.

(** X2.  A byte order mark at the start of a text is lost on the way:
    what [decodeBase64] gives back is the text without it. *)
Theorem byte_order_mark_is_dropped (s : jsstring) :
  forallb (fun c => c <? 65536)%N s = true ->
  URI.well_formed s = true ->
  exists encoded,
    Api.encodeBase64 (65279%N :: s) = inr encoded
    /\ Api.decodeBase64 encoded = inr s.
Proof.
  intros Hu Hw. eexists. split; [apply encodeBase64_defined|].
  rewrite (decodeBase64_encoded _ _ (filter_newline _ _)).
  rewrite octets_through_bytes.
  - change (encode (65279%N :: s)) with ([239; 187; 191]%N ++ encode s).
    cbn [app decode]. f_equal. apply decode_encode; [now apply units_forall | exact Hw].
  - apply (encode_octets (65279%N :: s)). cbn [forallb]. now rewrite Hu.
Qed.

Lemma byte_order_mark_witness :
  exists encoded,
    Api.encodeBase64 (65279 :: [104; 105])%N = inr encoded
    /\ Api.decodeBase64 encoded = inr [104; 105]%N.
Proof.
  apply (byte_order_mark_is_dropped [104; 105]%N); reflexivity.
Defined.

End TextTransport.

(* ================================================================ *)
(** * What the methods of the API answer *)
(* ================================================================ *)


Module ApiResults.
Import RunFacts ApiFacts.

Section WithHost.
Context {W : Type} (h : handler W).

Lemma request_outcome_succeeded (ans : exn + Response) :
  match request_outcome ans with
  | Returned _ => succeeded ans = true
  | Threw _ => succeeded ans = false
  end.
Proof.
  destruct ans as [e | r]; cbn; [reflexivity|].
  rewrite N.leb_antisym. now destruct (status r <? 400)%N.
Qed.

(** A request whose answer is dropped and whose failure is the result
    [false]: the shape of the access check. *)
Lemma run_probe a u m b (c : exn -> Prog bool) s w :
  run h (try_catch (Api.request a u m b ;; Ret true) c) s w =
  let p := sent a u m b in
  match request_outcome (answer h p w) with
  | Returned _ =>
      {| final_this := s; final_world := after h p w;
         trace := [Event (RequestUrl p) (answer h p w)];
         outcome_of := Returned true |}
  | Threw e =>
      let r := run h (c e) s (after h p w) in
      {| final_this := final_this r; final_world := final_world r;
         trace := Event (RequestUrl p) (answer h p w) :: trace r;
         outcome_of := outcome_of r |}
  end.
Proof.
  rewrite run_try_catch, run_bind, run_request. unfold sent, answer, after.
  cbn [outcome_of final_this final_world trace app].
  destruct (request_outcome _); reflexivity.
Qed.

(** The end of a handler that logs and gives [false]. *)
Lemma run_logged {A} m e (b : A) s w :
  run h (call (ConsoleError m e) ;; Ret b) s w =
  {| final_this := s; final_world := snd (h _ (ConsoleError m e) w);
     trace := [Event (ConsoleError m e) (fst (h _ (ConsoleError m e) w))];
     outcome_of := Returned b |}.
Proof. cbn [call bind run]. now destruct (h _ _ w). Qed.

(** X3.  [verifyConnection] (lines 46-51) and [verifyAccess] (lines
    55-62): without an API object the check answers [false] and calls
    the host for nothing; with one it sends a single GET to the
    repository, never throws, and answers whether that request
    succeeded. *)
Theorem verifyConnection_result s w :
  let r := run h Service.verifyConnection s w in
  match api s with
  | None => trace r = [] /\ outcome_of r = Returned false
  | Some a =>
      let p := sent a (Api.baseUrl a) Api.GET None in
      trace r = [Event (RequestUrl p) (answer h p w)]
      /\ outcome_of r = Returned (succeeded (answer h p w))
  end.
Proof.
  unfold Service.verifyConnection, Service.get. cbn [bind run].
  destruct (api s) as [a|]; [|split; reflexivity].
  unfold Api.verifyAccess. rewrite run_probe. cbv zeta.
  pose proof (request_outcome_succeeded
                (answer h (sent a (Api.baseUrl a) Api.GET None) w)) as H.
  destruct (request_outcome _); rewrite H; split; reflexivity.
Qed.

(** X4.  [ensureRepository] (lines 67-86) never throws.  It asks for
    the repository; when that request fails, for whatever reason, it
    asks for a private repository of that name to be created, and its
    result says whether the creation succeeded. *)
Theorem ensureRepository_result a s w :
  let r := run h (Api.ensureRepository a) s w in
  let check := sent a (Api.baseUrl a) Api.GET None in
  let creation :=
    sent a (js "https://api.github.com/user/repos") Api.POST
      (Some (JObj [ (js "name", JStr (api_repo a));
                    (js "private", JBool true);
                    (js "auto_init", JBool true);
                    (js "description",
                      JStr (js "Obsidian vault sync repository")) ])) in
  if succeeded (answer h check w)
  then requests (trace r) = [check] /\ outcome_of r = Returned true
  else requests (trace r) = [check; creation]
       /\ outcome_of r
          = Returned (succeeded (answer h creation (after h check w))).
Proof.
  cbv zeta. unfold Api.ensureRepository. rewrite run_probe. cbv zeta.
  pose proof (request_outcome_succeeded
                (answer h (sent a (Api.baseUrl a) Api.GET None) w)) as H.
  destruct (request_outcome _); rewrite H; [split; reflexivity|].
  rewrite run_probe. cbv zeta.
  match goal with
  | |- context [request_outcome ?x] =>
      pose proof (request_outcome_succeeded x) as H'
  end.
  destruct (request_outcome _); rewrite H'; [split; reflexivity|].
  rewrite run_logged. split; reflexivity.
Qed.

(** X5.  [updateBranchRef] (lines 235-255) never throws.  It moves the
    branch with a forced PATCH; only when that request fails does it
    ask for the reference to be created, and its result is [false] only
    when both requests failed. *)
Theorem updateBranchRef_result a commitSha s w :
  let r := run h (Api.updateBranchRef a commitSha) s w in
  let update :=
    sent a (Api.baseUrl a ++ js "/git/refs/heads/" ++ api_branch a) Api.PATCH
      (Some (JObj [ (js "sha", Api.str_field commitSha);
                    (js "force", JBool true) ])) in
  let creation :=
    sent a (Api.baseUrl a ++ js "/git/refs") Api.POST
      (Some (JObj [ (js "ref", JStr (js "refs/heads/" ++ api_branch a));
                    (js "sha", Api.str_field commitSha) ])) in
  if succeeded (answer h update w)
  then requests (trace r) = [update] /\ outcome_of r = Returned true
  else requests (trace r) = [update; creation]
       /\ outcome_of r
          = Returned (succeeded (answer h creation (after h update w))).
Proof.
  cbv zeta. unfold Api.updateBranchRef. rewrite run_probe. cbv zeta.
  match goal with
  | |- context [request_outcome ?x] =>
      pose proof (request_outcome_succeeded x) as H
  end.
  destruct (request_outcome _); rewrite H; [split; reflexivity|].
  rewrite run_probe. cbv zeta.
  match goal with
  | |- context [request_outcome ?x] =>
      pose proof (request_outcome_succeeded x) as H'
  end.
  destruct (request_outcome _); rewrite H'; [split; reflexivity|].
  rewrite run_logged. split; reflexivity.
Qed.

(** X6.  [putFile] (lines 159-178) never throws.  For a path that can
    be put in a URL it looks the file up and then sends one PUT, whose
    body carries the id of the file exactly when the lookup found one;
    the result says whether the PUT succeeded.  For a path with a lone
    surrogate it sends nothing and answers [false]. *)
Theorem putFile_result a path content message s w :
  let r := run h (Api.putFile a path content message) s w in
  match Api.contents_url a path with
  | inl _ => requests (trace r) = [] /\ outcome_of r = Returned false
  | inr u =>
      let lookup := sent a (u ++ js "?ref=" ++ api_branch a) Api.GET None in
      let sha := found_sha (answer h lookup w) in
      exists encoded,
        Api.encodeBase64 content = inr encoded
        /\ let put :=
             sent a u Api.PUT
               (Some (JObj ([ (js "message", JStr message);
                              (js "content", JStr encoded);
                              (js "branch", JStr (api_branch a)) ]
                            ++ (if truthy sha
                                then [(js "sha", Api.str_field sha)]
                                else [])))) in
           requests (trace r) = [lookup; put]
           /\ outcome_of r
              = Returned (succeeded (answer h put (after h lookup w)))
  end.
Proof.
  cbv zeta. unfold Api.putFile.
  rewrite run_try_catch, run_bind, run_getFileSha.
  rewrite (TextTransport.encodeBase64_defined content).
  destruct (Api.contents_url a path) as [e | u] eqn:Eu.
  - cbn [lift bind run outcome_of final_this final_world trace app].
    rewrite run_logged. split; reflexivity.
  - eexists. split; [reflexivity|].
    cbv zeta. cbn [lift bind outcome_of final_this final_world trace app].
    rewrite run_bind, run_request.
    cbn [outcome_of final_this final_world trace app].
    fold (found_sha (answer h (sent a (u ++ js "?ref=" ++ api_branch a) Api.GET None) w)).
    match goal with
    | |- context [request_outcome ?x] =>
        pose proof (request_outcome_succeeded x) as H
    end.
    unfold answer, after, sent, found_sha in *.
    destruct (request_outcome (fst (h _ (RequestUrl {| method := Api.PUT |}) _)));
      cbn [run outcome_of final_this final_world trace app];
      [| rewrite run_logged ]; rewrite H; split; reflexivity.
Qed.

Lemma run_api_getFileContent a path s w :
  run h (Api.getFileContent a path) s w =
  match Api.contents_url a path with
  | inl _ => {| final_this := s; final_world := w; trace := [];
                outcome_of := Returned None |}
  | inr u =>
      let p := sent a (u ++ js "?ref=" ++ api_branch a) Api.GET None in
      {| final_this := s; final_world := after h p w;
         trace := [Event (RequestUrl p) (answer h p w)];
         outcome_of :=
           Returned
             match request_outcome (answer h p w) with
             | Returned response =>
                 match prop response (js "content") with
                 | inr content =>
                     if truthy (as_string content) then
                       match prop response (js "encoding") with
                       | inr (JStr e) =>
                           if JS.eqb e (js "base64") then
                             match Api.decodeBase64
                                     (interpolate (as_string content)) with
                             | inr decoded => Some decoded
                             | inl _ => None
                             end
                           else None
                       | _ => None
                       end
                     else None
                 | inl _ => None
                 end
             | Threw _ => None
             end |}
  end.
Proof.
  unfold Api.getFileContent. rewrite run_try_catch, run_bind.
  destruct (Api.contents_url a path) as [e | u];
    cbn [lift run outcome_of final_this final_world trace app];
    [reflexivity|].
  rewrite run_bind, run_request. unfold sent, answer, after.
  cbn [outcome_of final_this final_world trace app].
  destruct (request_outcome _) as [response | e];
    cbn [run outcome_of final_this final_world trace app]; [|reflexivity].
  rewrite run_bind.
  destruct (prop response (js "content")) as [e | content];
    cbn [lift run outcome_of final_this final_world trace app]; [reflexivity|].
  destruct (truthy (as_string content)); [|reflexivity].
  rewrite run_bind.
  destruct (prop response (js "encoding")) as [e | [ | | | |e| | ]];
    cbn [lift run outcome_of final_this final_world trace app];
    try reflexivity.
  destruct (JS.eqb e (js "base64")); [|reflexivity].
  rewrite run_bind.
  destruct (Api.decodeBase64 _); reflexivity.
Qed.

(** X7.  [getFileContent] (lines 132-142) gives the text of a file
    back: when the answer carries, as base64 and with any line feeds,
    what [encodeBase64] makes of a text, the result is that text. *)
Theorem served_file_is_decoded a path u response served text s w :
  forallb (fun c => c <? 65536)%N text = true ->
  URI.well_formed text = true ->
  startsWith text [65279%N] = false ->
  Api.contents_url a path = inr u ->
  answer h (sent a (u ++ js "?ref=" ++ api_branch a) Api.GET None) w
  = inr response ->
  (status response <? 400)%N = true ->
  prop (response_json response) (js "content") = inr (JStr served) ->
  prop (response_json response) (js "encoding") = inr (JStr (js "base64")) ->
  Service.nonempty served = true ->
  Api.encodeBase64 text = inr (filter (fun c => negb (c =? 10)%N) served) ->
  outcome_of (run h (Api.getFileContent a path) s w) = Returned (Some text).
Proof.
  intros Hu Hw Hb Eu Ea Hst Hc He Hn Ht.
  rewrite run_api_getFileContent, Eu. cbv zeta.
  cbn [outcome_of]. rewrite Ea. cbn [request_outcome].
  rewrite N.leb_antisym, Hst. cbn [negb]. rewrite Hc, He.
  cbn [as_string interpolate]. destruct served as [|c served]; [discriminate|].
  cbn [truthy]. rewrite JSFacts.eqb_refl.
  now rewrite (TextTransport.served_text text (c :: served)).
Qed.

(** X8.  [getFileContent] (lines 132-142) answers [null] for a file
    whose content is the empty string, as it does for a file that is
    not there. *)
Theorem empty_remote_file_reads_as_none a path u response s w :
  Api.contents_url a path = inr u ->
  answer h (sent a (u ++ js "?ref=" ++ api_branch a) Api.GET None) w
  = inr response ->
  prop (response_json response) (js "content") = inr (JStr []) ->
  outcome_of (run h (Api.getFileContent a path) s w) = Returned None.
Proof.
  intros Eu Ea Hc. rewrite run_api_getFileContent, Eu. cbv zeta.
  cbn [outcome_of]. rewrite Ea. cbn [request_outcome].
  destruct (400 <=? status response)%N; [reflexivity|]. now rewrite Hc.
Qed.

End WithHost.

Lemma served_file_witness :
  outcome_of (run Mock.host (Api.getFileContent Scenario.alice_api (js "notes/a.md"))
                Scenario.alice Scenario.remote)
  = Returned (Some (js "hello")).
Proof.
  apply (served_file_is_decoded Mock.host Scenario.alice_api (js "notes/a.md")
           (Api.baseUrl Scenario.alice_api ++ js "/contents/notes%2Fa.md")
           {| status := 200;
              response_json :=
                JObj [(js "content", JStr (js "aGVsbG8="));
                      (js "encoding", JStr (js "base64"));
                      (js "sha", JStr (js "blob-of-notes%2Fa.md"))] |}
           (js "aGVsbG8=") (js "hello")); reflexivity.
Defined.

Lemma empty_remote_file_witness :
  outcome_of (run Mock.host (Api.getFileContent Scenario.alice_api (js "empty.md"))
                Scenario.alice Cases.with_empty_file)
  = Returned None.
Proof.
  apply (empty_remote_file_reads_as_none Mock.host Scenario.alice_api
           (js "empty.md")
           (Api.baseUrl Scenario.alice_api ++ js "/contents/empty.md")
           {| status := 200;
              response_json :=
                JObj [(js "content", JStr []);
                      (js "encoding", JStr (js "base64"));
                      (js "sha", JStr (js "blob-of-empty.md"))] |});
    reflexivity.
Defined.

End ApiResults.

(* ================================================================ *)
(** * What the operations leave alone *)
(* ================================================================ *)

Module Restraint.
Import RunFacts ObserveFacts.

Lemma shown_requests (Q : forall X, IO X -> Prop) (tr : list event) :
  Forall (shown Q) tr ->
  Forall (fun p => Q _ (RequestUrl p)) (requests tr).
Proof.
  induction 1 as [|[X e x] tr Hq _ IH]; simpl; [constructor|].
  destruct e; auto.
Qed.

Lemma shown_leaves_vault (tr : list event) :
  Forall (shown leaves_vault) tr ->
  writes tr = [] /\ created_folders tr = [].
Proof.
  induction 1 as [|[X e x] tr Hq _ [IH1 IH2]]; simpl; [now split|].
  destruct e; simpl in Hq; try contradiction; now split.
Qed.

Lemma any_service_kept (s : SyncService) (b : bool) :
  any_service s -> any_service (set_syncing b s).
Proof. intros _. exact I. Qed.

Lemma configured_with_kept a (s : SyncService) (b : bool) :
  configured_with a s -> configured_with a (set_syncing b s).
Proof. intros H. exact H. Qed.

(** X9.  [pull] (lines 231-291) only reads the remote: whatever the host
    answers, every request it sends is a GET. *)
Theorem pull_only_reads_remote {W} (h : handler W) s w :
  Forall (fun p => method p = Api.GET)
    (requests (trace (run h Service.pull s w))).
Proof.
  apply (shown_requests reads_remote).
  apply (emits_sound h any_service); [apply any_service_kept | | exact I].
  apply reads_pull.
Qed.

(** X10.  [push] (lines 166-226) leaves the vault as it is: whatever the
    host answers, it writes no file and creates no folder. *)
Theorem push_leaves_vault {W} (h : handler W) s w :
  let tr := trace (run h Service.push s w) in
  writes tr = [] /\ created_folders tr = [].
Proof.
  apply shown_leaves_vault.
  apply (emits_sound h any_service); [apply any_service_kept | | exact I].
  apply leaves_push.
Qed.

(** X11.  Whatever the host answers, [push], [pull] and [sync] send no
    DELETE and no PUT request: the operations never use the two methods
    by which [deleteFile] and [createOrUpdateFile] act on a single file
    through the contents endpoint.  This says nothing on the files of
    the branch after a push, which moves the branch to a new commit. *)
Theorem operations_send_no_delete {W} (h : handler W) op s w :
  Forall (fun p => method p <> Api.DELETE /\ method p <> Api.PUT)
    (requests (trace (run h (Service.run_operation op) s w))).
Proof.
  apply (shown_requests no_delete_no_put).
  apply (emits_sound h any_service); [apply any_service_kept | | exact I].
  apply keeps_operation.
Qed.



End Restraint.
Module Exclusion.
Import JSFacts.

Lemma startsWith_longer (p f x : jsstring) :
  startsWith p f = true -> startsWith (p ++ x) f = true.
Proof.
  intros H. apply startsWith_iff in H as [post ->].
  rewrite <- app_assoc. apply startsWith_app.
Qed.

(** X13.  What lies below an excluded folder is excluded: a path that
    continues a path the folder rules exclude is excluded too, by the
    filter of [getVaultFiles] and by the tests of [pull] and [sync]. *)
Theorem excluded_folder_covers_longer_paths s (p x : jsstring) :
  Service.in_excluded_folder s p = true ->
  Service.in_excluded_folder s (p ++ x) = true
  /\ Service.pull_shouldSkip s (p ++ x) = true
  /\ Service.sync_shouldSkip s (p ++ x) = true
  /\ forall f, path f = p ++ x -> Service.vault_file_kept s f = false.
Proof.
  intros H.
  assert (H' : Service.in_excluded_folder s (p ++ x) = true).
  { unfold Service.in_excluded_folder in *.
    apply existsb_exists in H as [folder [Hin Hf]].
    apply existsb_exists. exists folder. split; [exact Hin|].
    now apply startsWith_longer. }
  repeat split; try exact H'.
  - unfold Service.pull_shouldSkip. now rewrite H'.
  - intros f Hf. unfold Service.vault_file_kept. now rewrite Hf, H'.
Qed.

Lemma endsWith_name (p n e : jsstring) :
  endsWith p n = true -> JS.eqb n e = true -> endsWith p e = true.
Proof. intros Hp He. apply eqb_eq in He. now subst. Qed.

(** X14.  [push] and [pull] exclude the same paths: for a file whose
    name ends its path, as the names of the vault do, the filter of
    [getVaultFiles] keeps the file exactly when the test of [pull] does
    not skip its path. *)
Theorem push_and_pull_exclude_alike s (f : TFile) :
  endsWith (path f) (name f) = true ->
  Service.vault_file_kept s f = negb (Service.pull_shouldSkip s (path f)).
Proof.
  intros Hn. unfold Service.vault_file_kept, Service.pull_shouldSkip,
    Service.ends_with_excluded_file.
  rewrite negb_orb. f_equal. f_equal.
  induction (excludedFiles (settings s)) as [|e l IH]; [reflexivity|].
  cbn [existsb]. rewrite IH. f_equal.
  destruct (JS.eqb (name f) e) eqn:E; [|reflexivity].
  cbn [orb]. symmetry. now apply (endsWith_name _ (name f)).
Qed.

Lemma push_and_pull_witness :
  Service.vault_file_kept Scenario.alice (Mock.file_at (js "notes/.DS_Store"))
  = negb (Service.pull_shouldSkip Scenario.alice (js "notes/.DS_Store")).
Proof.
  apply (push_and_pull_exclude_alike Scenario.alice
           (Mock.file_at (js "notes/.DS_Store"))).
  reflexivity.
Defined.

Lemma excluded_folder_witness :
  Service.in_excluded_folder Scenario.alice (js ".trash/old" ++ js "/a.md") = true
  /\ Service.pull_shouldSkip Scenario.alice (js ".trash/old" ++ js "/a.md") = true
  /\ Service.sync_shouldSkip Scenario.alice (js ".trash/old" ++ js "/a.md") = true
  /\ forall f, path f = js ".trash/old" ++ js "/a.md" ->
               Service.vault_file_kept Scenario.alice f = false.
Proof.
  apply (excluded_folder_covers_longer_paths Scenario.alice
           (js ".trash/old") (js "/a.md")).
  reflexivity.
Defined.

End Exclusion.

(* ================================================================ *)
(** * What the counters of a result count *)
(* ================================================================ *)

Module Counters.
Import RunFacts ApiFacts ObserveFacts EmptyUpload.

Section WithHost.
Context {W : Type} (h : handler W).

(** A program that leaves the vault alone writes nothing. *)
Lemma no_writes {A} (p : Prog A) s w :
  Emits any_service leaves_vault p -> writes (trace (run h p s w)) = [].
Proof.
  intros E. apply Restraint.shown_leaves_vault.
  apply (emits_sound h any_service); [apply Restraint.any_service_kept | | exact I].
  exact E.
Qed.

Lemma leaves_getAllFiles a : Emits any_service leaves_vault (Api.getAllFiles a).
Proof. emit plain. Qed.

Lemma leaves_api_getFileContent a p :
  Emits any_service leaves_vault (Api.getFileContent a p).
Proof. emit plain. Qed.

(** A write that returns has written once. *)
Lemma writeFileContent_written path content s w :
  let r := run h (Service.writeFileContent path content) s w in
  forall u, outcome_of r = Returned u -> length (writes (trace r)) = 1%nat.
Proof.
  intros r u Hr. pose proof (VaultClaims.run_writeFileContent h path content s w) as H.
  cbv zeta in H. fold r in H.
  assert (Hw : forall payload, wrote_only payload (trace r) (outcome_of r) ->
                               length (writes (trace r)) = 1%nat).
  { intros payload [(p & ans & E & _) | (folder & e & _ & E)];
      [now rewrite E | congruence]. }
  destruct (_ && _).
  - destruct (Base64.atob _); [now apply (Hw _ H)|].
    destruct H as [_ [e He]]. congruence.
  - now apply (Hw _ H).
Qed.

Lemma pull_loop_counts files : forall n s w,
  let r := run h (Service.pull_loop files n) s w in
  forall m, outcome_of r = Returned m ->
            m = (n + length (writes (trace r)))%nat.
Proof.
  induction files as [|file rest IH]; intros n s w r m; subst r.
  - cbn. intros [= <-]. lia.
  - cbn [Service.pull_loop]. rewrite run_this_bind.
    destruct (Service.pull_shouldSkip s (gf_path file)); [apply IH|].
    destruct (api s) as [a|] eqn:Ha;
      [| unfold Service.this_api; cbn [bind run]; rewrite Ha; discriminate ].
    rewrite (run_this_api_bind h _ a) by exact Ha.
    rewrite run_bind, ApiResults.run_api_getFileContent.
    pose proof (no_writes _ s w (leaves_api_getFileContent a (gf_path file))) as Hnone.
    rewrite ApiResults.run_api_getFileContent in Hnone.
    destruct (Api.contents_url a (gf_path file)) as [e | u];
      cbv zeta in *; cbn [outcome_of final_this final_world trace app] in *.
    + apply IH.
    + match goal with
      | |- context [match ?c with Some _ => _ | None => _ end] =>
          destruct c as [content|]
      end.
      * rewrite run_bind. cbv zeta.
        pose proof (writeFileContent_written (gf_path file) content s
                      (after h (sent a (u ++ js "?ref=" ++ api_branch a) Api.GET None) w)) as Hw.
        cbv zeta in Hw.
        destruct (outcome_of (run h (Service.writeFileContent _ _) _ _)) as [x|e] eqn:Ew;
          [|cbn [outcome_of]; discriminate].
        specialize (Hw x eq_refl).
        cbn [outcome_of trace]. intros Hm. apply IH in Hm.
        change (Event ?e ?x :: ?t) with ([Event e x] ++ t).
        rewrite !writes_app, Hnone, !length_app, Hw. cbn [app length]. lia.
      * cbn [outcome_of trace]. intros Hm. apply IH in Hm.
        change (Event ?e ?x :: ?t) with ([Event e x] ++ t).
        rewrite writes_app, Hnone. exact Hm.
Qed.

Lemma run_pull_body a s w :
  api s = Some a ->
  let r := run h Service.pull_body s w in
  forall res, outcome_of r = Returned res ->
    success res = true /\ filesUploaded res = 0%nat
    /\ filesDownloaded res = length (writes (trace r)).
Proof.
  intros Ha r res. subst r. unfold Service.pull_body.
  rewrite run_call_bind. cbv zeta.
  rewrite (run_this_api_bind h _ a) by exact Ha.
  rewrite run_bind. cbv zeta.
  pose proof (no_writes _ s (snd (h _ (NewNotice (js "Pulling from GitHub.")) w))
                (leaves_getAllFiles a)) as Hall.
  destruct (run h (Api.getAllFiles a) _ _) as [s1 w1 t1 [files | e]];
    cbn [outcome_of final_this final_world trace] in *; [|discriminate].
  rewrite run_bind. cbv zeta.
  pose proof (pull_loop_counts files 0 s1 w1) as Hloop. cbv zeta in Hloop.
  destruct (run h (Service.pull_loop files 0) s1 w1) as [s2 w2 t2 [m | e]];
    cbn [outcome_of final_this final_world trace] in *; [|discriminate].
  specialize (Hloop m eq_refl). rewrite run_call_bind.
  cbn [run outcome_of final_this final_world trace].
  intros [= <-]. cbn [success filesUploaded filesDownloaded].
  split; [reflexivity|]. split; [reflexivity|].
  change (Event ?e ?x :: ?t) with ([Event e x] ++ t).
  rewrite !writes_app, Hall. cbn [writes app]. rewrite app_nil_r. exact Hloop.
Qed.

Lemma pull_counts_its_writes s w res :
  let r := run h Service.pull s w in
  outcome_of r = Returned res -> success res = true ->
  filesDownloaded res = length (writes (trace r))
  /\ filesUploaded res = 0%nat.
Proof.
  intros r. subst r. unfold Service.pull. rewrite run_get_bind.
  destruct (api s) as [a|] eqn:Ha; [|cbn; intros [= <-]; discriminate].
  rewrite run_get_bind.
  destruct (isSyncing s) eqn:Hidle; [cbn; intros [= <-]; discriminate|].
  cbn [run]. rewrite run_finally, run_try_catch. cbv zeta.
  pose proof (run_pull_body a (set_syncing true s) w Ha) as Hbody.
  cbv zeta in Hbody.
  destruct (run h Service.pull_body _ w) as [s1 w1 t1 [res' | e]];
    cbn [run outcome_of final_this final_world trace] in *.
  - intros [= <-] _. destruct (Hbody res' eq_refl) as (_ & Hu & Hd).
    rewrite app_nil_r. now split.
  - rewrite run_call_bind. cbn [run outcome_of]. intros [= <-]. discriminate.
Qed.

Lemma sync_loop_counts vault remote : forall n s w,
  let r := run h (Service.sync_loop vault remote n) s w in
  forall m, outcome_of r = Returned m ->
            m = (n + length (writes (trace r)))%nat.
Proof.
  induction remote as [|path rest IH]; intros n s w r m; subst r.
  - cbn. intros [= <-]. lia.
  - cbn [Service.sync_loop]. rewrite run_this_bind.
    destruct (Service.sync_shouldSkip s path); [apply IH|].
    destruct (negb (Service.map_has vault path)); [|apply IH].
    destruct (api s) as [a|] eqn:Ha;
      [| unfold Service.this_api; cbn [bind run]; rewrite Ha; discriminate ].
    rewrite (run_this_api_bind h _ a) by exact Ha.
    rewrite run_bind, ApiResults.run_api_getFileContent.
    pose proof (no_writes _ s w (leaves_api_getFileContent a path)) as Hnone.
    rewrite ApiResults.run_api_getFileContent in Hnone.
    destruct (Api.contents_url a path) as [e | u];
      cbv zeta in *; cbn [outcome_of final_this final_world trace app] in *.
    + apply IH.
    + match goal with
      | |- context [match ?c with Some _ => _ | None => _ end] =>
          destruct c as [content|]
      end.
      * rewrite run_bind. cbv zeta.
        pose proof (writeFileContent_written path content s
                      (after h (sent a (u ++ js "?ref=" ++ api_branch a) Api.GET None) w)) as Hw.
        cbv zeta in Hw.
        destruct (outcome_of (run h (Service.writeFileContent _ _) _ _)) as [x|e] eqn:Ew;
          [|cbn [outcome_of]; discriminate].
        specialize (Hw x eq_refl).
        cbn [outcome_of trace]. intros Hm. apply IH in Hm.
        change (Event ?e ?x :: ?t) with ([Event e x] ++ t).
        rewrite !writes_app, Hnone, !length_app, Hw. cbn [app length]. lia.
      * cbn [outcome_of trace]. intros Hm. apply IH in Hm.
        change (Event ?e ?x :: ?t) with ([Event e x] ++ t).
        rewrite writes_app, Hnone. exact Hm.
Qed.

Lemma leaves_ensureRepository a :
  Emits any_service leaves_vault (Api.ensureRepository a).
Proof. emit plain. Qed.

Lemma leaves_getVaultFiles : Emits any_service leaves_vault Service.getVaultFiles.
Proof. emit plain. Qed.

Lemma leaves_sync_read_files files acc n :
  Emits any_service leaves_vault (Service.sync_read_files files acc n).
Proof.
  revert acc n. induction files as [|file rest IH]; intros acc n; simpl;
    emit plain.
Qed.

Lemma leaves_upload (filesToUpload : list Api.UploadFile) :
  Emits any_service leaves_vault
    (match filesToUpload with
     | [] => Ret tt
     | _ :: _ =>
         a <- Service.this_api ;;
         msg <- Service.getCommitMessage ;;
         uploadSuccess <- Api.batchUpload a filesToUpload msg ;;
         if uploadSuccess then Ret tt
         else Throw (Error (js "Failed to upload files"))
     end).
Proof. emit plain. Qed.

Lemma run_sync_body a s w :
  api s = Some a ->
  let r := run h Service.sync_body s w in
  forall res, outcome_of r = Returned res ->
    success res = true
    /\ filesDownloaded res = length (writes (trace r)).
Proof.
  intros Ha r res. subst r. unfold Service.sync_body.
  rewrite run_call_bind. cbv zeta.
  rewrite (run_this_api_bind h _ a) by exact Ha.
  rewrite run_bind. cbv zeta.
  pose proof (no_writes _ s (snd (h _ (NewNotice (js "Starting sync.")) w))
                (leaves_ensureRepository a)) as H1.
  pose proof (run_flag_free h (Api.ensureRepository a) s
                (snd (h _ (NewNotice (js "Starting sync.")) w))
                (ProgFacts.flag_free_ensureRepository a)) as F1.
  destruct (run h (Api.ensureRepository a) _ _) as [s1 w1 t1 [ok | e]];
    cbn [outcome_of final_this final_world trace] in *; [|discriminate].
  subst s1. destruct ok; cbn [negb]; [|cbn; discriminate].
  rewrite run_bind. cbv zeta.
  pose proof (no_writes _ s w1 leaves_getVaultFiles) as H2.
  pose proof (run_flag_free h Service.getVaultFiles s w1
                ProgFacts.flag_free_getVaultFiles) as F2.
  destruct (run h Service.getVaultFiles s w1) as [s2 w2 t2 [vaultFiles | e]];
    cbn [outcome_of final_this final_world trace] in *; [|discriminate].
  subst s2. rewrite (run_this_api_bind h _ a) by exact Ha.
  rewrite run_bind. cbv zeta.
  pose proof (no_writes _ s w2 (leaves_getAllFiles a)) as H3.
  pose proof (run_flag_free h (Api.getAllFiles a) s w2
                (ProgFacts.flag_free_getAllFiles a)) as F3.
  destruct (run h (Api.getAllFiles a) s w2) as [s3 w3 t3 [remoteFiles | e]];
    cbn [outcome_of final_this final_world trace] in *; [|discriminate].
  subst s3. rewrite run_bind. cbv zeta.
  pose proof (no_writes _ s w3 (leaves_sync_read_files vaultFiles [] 0)) as H4.
  pose proof (run_flag_free h (Service.sync_read_files vaultFiles [] 0) s w3
                (ProgFacts.flag_free_sync_read_files _ _ _)) as F4.
  destruct (run h (Service.sync_read_files vaultFiles [] 0) s w3)
    as [s4 w4 t4 [[filesToUpload filesUploaded] | e]];
    cbn [outcome_of final_this final_world trace] in *; [|discriminate].
  subst s4. rewrite run_bind. cbv zeta.
  pose proof (no_writes _ s w4 (leaves_upload filesToUpload)) as H5.
  match type of H5 with
  | writes (trace (run h ?p s w4)) = [] =>
      destruct (run h p s w4) as [s5 w5 t5 [u | e]]
  end; cbn [outcome_of final_this final_world trace] in *; [|discriminate].
  rewrite run_bind. cbv zeta.
  match goal with
  | |- context [run h (Service.sync_loop ?v ?r 0) s5 w5] =>
      pose proof (sync_loop_counts v r 0 s5 w5) as Hloop;
      cbv zeta in Hloop;
      destruct (run h (Service.sync_loop v r 0) s5 w5) as [s6 w6 t6 [m | e]]
  end; cbn [outcome_of final_this final_world trace] in *; [|discriminate].
  specialize (Hloop m eq_refl). rewrite run_call_bind.
  cbn [run outcome_of final_this final_world trace].
  intros [= <-]. cbn [success filesDownloaded].
  split; [reflexivity|].
  change (Event ?e ?x :: ?t) with ([Event e x] ++ t).
  rewrite !writes_app, H1, H2, H3, H4, H5. cbn [writes app].
  rewrite app_nil_r. exact Hloop.
Qed.

Lemma sync_counts_its_writes s w res :
  let r := run h Service.sync s w in
  outcome_of r = Returned res -> success res = true ->
  filesDownloaded res = length (writes (trace r)).
Proof.
  intros r. subst r. unfold Service.sync. rewrite run_get_bind.
  destruct (api s) as [a|] eqn:Ha; [|cbn; intros [= <-]; discriminate].
  rewrite run_get_bind.
  destruct (isSyncing s) eqn:Hidle; [cbn; intros [= <-]; discriminate|].
  cbn [run]. rewrite run_finally, run_try_catch. cbv zeta.
  pose proof (run_sync_body a (set_syncing true s) w Ha) as Hbody.
  cbv zeta in Hbody.
  destruct (run h Service.sync_body _ w) as [s1 w1 t1 [res' | e]];
    cbn [run outcome_of final_this final_world trace] in *.
  - intros [= <-] _. destruct (Hbody res' eq_refl) as (_ & Hd).
    now rewrite app_nil_r.
  - rewrite run_call_bind. cbn [run outcome_of]. intros [= <-]. discriminate.
Qed.

Lemma push_downloads_nothing :
  Returns (fun res => filesDownloaded res = 0%nat) Service.push.
Proof.
  unfold Service.push, Service.push_body.
  repeat first
    [ progress intros
    | apply ProgFacts.returns_bind | apply ProgFacts.returns_try_catch
    | apply ProgFacts.returns_finally
    | apply rt_set | apply rt_get | apply rt_vis | apply rt_throw
    | match goal with
      | |- Returns _ (match ?x with _ => _ end) => destruct x
      | |- Returns _ (Ret _) => apply rt_ret; reflexivity
      end ].
Qed.

(** X15.  An operation that reports success has written to the vault
    once for every file it counts as downloaded: the counter of the
    result of [push], [pull] or [sync] is the number of writes the
    operation made. *)
Theorem downloads_counted_are_writes op s w res :
  let r := run h (Service.run_operation op) s w in
  outcome_of r = Returned res -> success res = true ->
  filesDownloaded res = length (writes (trace r)).
Proof.
  cbv zeta. destruct op; cbn [Service.run_operation]; intros Hr Hs.
  - rewrite (no_writes _ s w leaves_push).
    apply (run_returns h _ _ s w res push_downloads_nothing Hr).
  - now apply pull_counts_its_writes.
  - now apply sync_counts_its_writes.
Qed.

End WithHost.

Lemma downloads_counted_witness :
  let r := run Mock.host (Service.run_operation Service.Pull)
             Scenario.alice Scenario.remote in
  exists res,
    outcome_of r = Returned res
    /\ filesDownloaded res = length (writes (trace r)).
Proof.
  eexists. split; [reflexivity|].
  apply (downloads_counted_are_writes Mock.host Service.Pull Scenario.alice
           Scenario.remote); reflexivity.
Defined.

End Counters.

(* ================================================================ *)
(** * Listing the remote files *)
(* ================================================================ *)

Module Listing.
Import RunFacts ApiFacts.

Lemma entry_of_fields item p id ty :
  entry_of item = Some (p, id, ty) ->
  prop item (js "path") = inr (JStr p)
  /\ prop item (js "sha") = inr (JStr id)
  /\ prop item (js "type") = inr (JStr ty).
Proof.
  unfold entry_of.
  destruct (prop item (js "path")) as [|[ | | | |p'| | ]]; try discriminate.
  destruct (prop item (js "sha")) as [|[ | | | |id'| | ]]; try discriminate.
  destruct (prop item (js "type")) as [|[ | | | |ty'| | ]]; try discriminate.
  now intros [= -> -> ->].
Qed.

(** The files of a listing: its entries of type [blob], in order. *)
Lemma tree_entries_blobs response items entries :
  prop response (js "tree") = inr (JArr items) ->
  entries_of items = Some entries ->
  Api.tree_entries response
  = inr (map file_of_entry (filter entry_is_blob entries)).
Proof.
  intros Ht He. unfold Api.tree_entries. rewrite Ht. clear Ht.
  revert entries He. induction items as [|item rest IH]; intros entries He.
  - injection He as <-. reflexivity.
  - cbn [entries_of] in He.
    destruct (entry_of item) as [[[p id] ty]|] eqn:E; [|discriminate].
    destruct (entries_of rest) as [l|]; [|discriminate].
    injection He as <-. specialize (IH l eq_refl).
    apply entry_of_fields in E as (Hp & Hid & Hty).
    cbn [Api.filter_blobs filter entry_is_blob]. unfold Api.is_blob. rewrite Hty.
    destruct (Api.filter_blobs rest) as [e | blobs]; [discriminate|].
    destruct (JS.eqb ty (js "blob")); [|exact IH].
    cbn [Api.to_files map file_of_entry]. unfold Api.to_file. rewrite Hp, Hid.
    destruct (Api.to_files blobs) as [e | fs]; [discriminate|].
    now injection IH as ->.
Qed.

Section WithHost.
Context {W : Type} (h : handler W).

Lemma run_getAllFiles_without_head a s w :
  let lookup :=
    sent a (Api.baseUrl a ++ js "/git/refs/heads/" ++ api_branch a) Api.GET None in
  succeeded (answer h lookup w) = false ->
  run h (Api.getAllFiles a) s w
  = {| final_this := s; final_world := after h lookup w;
       trace := [Event (RequestUrl lookup) (answer h lookup w)];
       outcome_of := Returned [] |}.
Proof.
  intros lookup Hf. subst lookup. unfold Api.getAllFiles.
  rewrite run_bind, run_getLatestCommitSha. cbv zeta.
  cbn [outcome_of final_this final_world trace].
  match type of Hf with
  | succeeded ?x = false =>
      pose proof (ApiResults.request_outcome_succeeded x) as H
  end.
  unfold answer, after, sent in *.
  destruct (request_outcome _); [congruence|].
  reflexivity.
Qed.

(** X16.  [getAllFiles] (lines 111-127) answers with no file, after one
    request and without an exception, whenever the lookup of the head
    of the branch fails: on an empty repository, a missing branch, a
    refused token or a network that is down. *)
Theorem getAllFiles_without_head a s w :
  let lookup :=
    sent a (Api.baseUrl a ++ js "/git/refs/heads/" ++ api_branch a) Api.GET None in
  let r := run h (Api.getAllFiles a) s w in
  succeeded (answer h lookup w) = false ->
  outcome_of r = Returned [] /\ requests (trace r) = [lookup].
Proof.
  intros lookup r Hf. subst r.
  rewrite run_getAllFiles_without_head by exact Hf. now split.
Qed.

(** X17.  [getAllFiles] (lines 111-127) lists the files of the head of
    the branch: when the three lookups succeed, the result is made of
    the entries of type [blob] of the listing, in the order of the
    listing, and the entries of directories are left out. *)
Theorem getAllFiles_lists_blobs a s w r1 object c r2 tree t r3 items entries :
  let head :=
    sent a (Api.baseUrl a ++ js "/git/refs/heads/" ++ api_branch a) Api.GET None in
  let commit := sent a (Api.baseUrl a ++ js "/git/commits/" ++ c) Api.GET None in
  let listing :=
    sent a (Api.baseUrl a ++ js "/git/trees/" ++ t ++ js "?recursive=1")
      Api.GET None in
  let w1 := after h head w in
  let w2 := after h commit w1 in
  answer h head w = inr r1 -> (status r1 <? 400)%N = true ->
  prop (response_json r1) (js "object") = inr object ->
  prop object (js "sha") = inr (JStr c) -> Service.nonempty c = true ->
  answer h commit w1 = inr r2 -> (status r2 <? 400)%N = true ->
  prop (response_json r2) (js "tree") = inr tree ->
  prop tree (js "sha") = inr (JStr t) ->
  answer h listing w2 = inr r3 -> (status r3 <? 400)%N = true ->
  prop (response_json r3) (js "tree") = inr (JArr items) ->
  entries_of items = Some entries ->
  let r := run h (Api.getAllFiles a) s w in
  outcome_of r = Returned (map file_of_entry (filter entry_is_blob entries))
  /\ requests (trace r) = [head; commit; listing].
Proof.
  intros head commit listing w1 w2 A1 S1 O1 C1 N1 A2 S2 O2 C2 A3 S3 O3 E3 r.
  subst r w2 w1 head commit listing. unfold answer, after, sent in *.
  unfold Api.getAllFiles.
  rewrite run_bind, run_getLatestCommitSha. cbv zeta.
  cbn [outcome_of final_this final_world trace].
  rewrite A1. cbn [request_outcome]. rewrite N.leb_antisym, S1. cbn [negb].
  rewrite O1, C1. cbn [as_string interpolate].
  destruct c as [|x c]; [discriminate|]. cbn [truthy negb].
  rewrite run_bind. unfold Api.getTreeSha.
  rewrite run_bind, run_request. cbv zeta.
  cbn [outcome_of final_this final_world trace].
  rewrite A2. cbn [request_outcome]. rewrite N.leb_antisym, S2. cbn [negb].
  rewrite O2. cbn [lift bind run outcome_of final_this final_world trace].
  rewrite C2. cbn [lift bind run outcome_of final_this final_world trace
                   as_string interpolate app].
  rewrite run_bind, run_request. cbv zeta.
  cbn [outcome_of final_this final_world trace].
  rewrite A3. cbn [request_outcome]. rewrite N.leb_antisym, S3. cbn [negb].
  rewrite (tree_entries_blobs _ _ _ O3 E3).
  cbn [lift run outcome_of final_this final_world trace app requests].
  now split.
Qed.

Lemma run_pull_body_without_head a s w :
  let notice := NewNotice (js "Pulling from GitHub.") in
  let w0 := snd (h _ notice w) in
  let lookup :=
    sent a (Api.baseUrl a ++ js "/git/refs/heads/" ++ api_branch a) Api.GET None in
  let done :=
    NewNotice (js "GitSync: Pulled " ++ JS.of_nat 0 ++ js " files from GitHub") in
  api s = Some a ->
  succeeded (answer h lookup w0) = false ->
  run h Service.pull_body s w
  = {| final_this := s;
       final_world := snd (h _ done (after h lookup w0));
       trace := [ Event notice (fst (h _ notice w));
                  Event (RequestUrl lookup) (answer h lookup w0);
                  Event done (fst (h _ done (after h lookup w0))) ];
       outcome_of :=
         Returned {| success := true;
                     message := js "Successfully pulled " ++ JS.of_nat 0
                                  ++ js " files";
                     filesUploaded := 0; filesDownloaded := 0;
                     filesDeleted := 0 |} |}.
Proof.
  intros notice w0 lookup done Ha Hf. subst notice w0 lookup done.
  unfold Service.pull_body. rewrite EmptyUpload.run_call_bind. cbv zeta.
  rewrite (EmptyUpload.run_this_api_bind h _ a) by exact Ha.
  rewrite run_bind.
  rewrite (run_getAllFiles_without_head a s _ Hf).
  cbv zeta. cbn [outcome_of final_this final_world trace Service.pull_loop].
  rewrite run_bind. cbn [run outcome_of final_this final_world trace].
  rewrite EmptyUpload.run_call_bind.
  cbn [run outcome_of final_this final_world trace app]. reflexivity.
Qed.

(** X18.  A [pull] (lines 231-291) whose lookup of the head of the
    branch fails reports success: with the network down or the token
    refused, it answers that it pulled 0 files, after that one request
    and without a write to the vault. *)
Theorem pull_without_head_reports_success a s w :
  let w0 := snd (h _ (NewNotice (js "Pulling from GitHub.")) w) in
  let lookup :=
    sent a (Api.baseUrl a ++ js "/git/refs/heads/" ++ api_branch a) Api.GET None in
  let r := run h Service.pull s w in
  api s = Some a -> isSyncing s = false ->
  succeeded (answer h lookup w0) = false ->
  outcome_of r
  = Returned {| success := true;
                message := js "Successfully pulled " ++ JS.of_nat 0
                             ++ js " files";
                filesUploaded := 0; filesDownloaded := 0; filesDeleted := 0 |}
  /\ requests (trace r) = [lookup]
  /\ writes (trace r) = [].
Proof.
  intros w0 lookup r Ha Hidle Hf. subst r w0 lookup. unfold Service.pull.
  rewrite EmptyUpload.run_get_bind, Ha, EmptyUpload.run_get_bind, Hidle.
  cbn [run]. rewrite run_finally, run_try_catch.
  rewrite (run_pull_body_without_head a (set_syncing true s) w Ha Hf).
  cbn [run outcome_of final_this final_world trace app requests writes].
  now repeat split.
Qed.

End WithHost.

Lemma getAllFiles_without_head_witness :
  let r := run Mock.host (Api.getAllFiles Scenario.alice_api) Scenario.alice
             Scenario.empty_repository in
  outcome_of r = Returned []
  /\ requests (trace r)
     = [sent Scenario.alice_api
          (Api.baseUrl Scenario.alice_api ++ js "/git/refs/heads/"
             ++ api_branch Scenario.alice_api) Api.GET None].
Proof.
  apply (getAllFiles_without_head Mock.host Scenario.alice_api Scenario.alice
           Scenario.empty_repository).
  reflexivity.
Defined.

Lemma getAllFiles_lists_blobs_witness :
  outcome_of (run Mock.host (Api.getAllFiles Scenario.alice_api) Scenario.alice
                Scenario.remote)
  = Returned
      [ {| gf_path := js ".DS_Store"; gf_sha := js "b1"; gf_content := None;
           gf_type := type_file |};
        {| gf_path := js "notes/a.md"; gf_sha := js "b2"; gf_content := None;
           gf_type := type_file |} ].
Proof.
  apply (getAllFiles_lists_blobs Mock.host Scenario.alice_api Scenario.alice
           Scenario.remote
           {| status := 200;
              response_json := JObj [(js "object", JObj [(js "sha", JStr (js "c1"))])] |}
           (JObj [(js "sha", JStr (js "c1"))]) (js "c1")
           {| status := 200;
              response_json := JObj [(js "tree", JObj [(js "sha", JStr (js "t1"))])] |}
           (JObj [(js "sha", JStr (js "t1"))]) (js "t1")
           {| status := 200;
              response_json :=
                JObj [(js "tree",
                       JArr (map Mock.entry_json
                               [ (js ".DS_Store", js "b1", js "blob");
                                 (js "notes/a.md", js "b2", js "blob");
                                 (js "notes", js "t2", js "tree") ]))] |}
           (map Mock.entry_json
              [ (js ".DS_Store", js "b1", js "blob");
                (js "notes/a.md", js "b2", js "blob");
                (js "notes", js "t2", js "tree") ])
           [ (js ".DS_Store", js "b1", js "blob");
             (js "notes/a.md", js "b2", js "blob");
             (js "notes", js "t2", js "tree") ]);
    reflexivity.
Defined.

Lemma pull_without_head_witness :
  let r := run Mock.host Service.pull Scenario.alice Scenario.unreachable in
  outcome_of r
  = Returned {| success := true;
                message := js "Successfully pulled " ++ JS.of_nat 0
                             ++ js " files";
                filesUploaded := 0; filesDownloaded := 0; filesDeleted := 0 |}
  /\ requests (trace r)
     = [sent Scenario.alice_api
          (Api.baseUrl Scenario.alice_api ++ js "/git/refs/heads/"
             ++ api_branch Scenario.alice_api) Api.GET None]
  /\ writes (trace r) = [].
Proof.
  apply (pull_without_head_reports_success Mock.host Scenario.alice_api
           Scenario.alice Scenario.unreachable); reflexivity.
Defined.

End Listing.

(* ================================================================ *)
(** * The upload in one commit *)
(* ================================================================ *)

Module Upload.
Import RunFacts ApiFacts.

Lemma eqb_app_head (p x y : jsstring) : JS.eqb (p ++ x) (p ++ y) = JS.eqb x y.
Proof. induction p; simpl; [reflexivity|]. now rewrite N.eqb_refl. Qed.

Ltac branch_kept :=
  first [ exact I
        | unfold keeps_branch, moves_branch, tree_creation, commit_creation,
            head_lookup, sent;
          cbn [url method]; rewrite ?eqb_app_head; vm_compute; reflexivity ].

Ltac other_url :=
  first [ exact I
        | split; intros Hu; cbn [url] in Hu; apply app_inv_head in Hu;
          vm_compute in Hu; discriminate Hu ].

Lemma keeps_getTreeSha I a c : Emits I (keeps_branch a) (Api.getTreeSha a c).
Proof. ObserveFacts.emit branch_kept. Qed.

Lemma keeps_items I a files items :
  Emits I (keeps_branch a) (Api.build_tree_items a files items).
Proof.
  revert items. induction files as [|file rest IH]; intros items; simpl;
    ObserveFacts.emit branch_kept.
Qed.

Lemma starting_items I a message files items :
  Emits I (starting_history a message) (Api.build_tree_items a files items).
Proof.
  revert items. induction files as [|file rest IH]; intros items; simpl;
    ObserveFacts.emit other_url.
Qed.

Lemma starting_updateBranchRef I a message c :
  Emits I (starting_history a message) (Api.updateBranchRef a c).
Proof. ObserveFacts.emit other_url. Qed.

Lemma items_paths a tr files added :
  Forall2 (tree_entry_of a tr) files added ->
  map ti_path added = map Api.up_path files.
Proof.
  induction 1 as [|file item files added H _ IH]; [reflexivity|].
  cbn [map]. rewrite IH. f_equal. unfold tree_entry_of in H.
  destruct (_ <? _)%N; [now subst | now destruct H as [sha [-> _]]].
Qed.

Section WithHost.
Context {W : Type} (h : handler W).

Lemma emitted {A} (Q : forall X, IO X -> Prop) (p : Prog A) s w :
  Emits any_service Q p ->
  Forall (fun q => Q _ (RequestUrl q)) (requests (trace (run h p s w))).
Proof.
  intros E. apply Restraint.shown_requests.
  apply (ObserveFacts.emits_sound h any_service);
    [apply Restraint.any_service_kept | exact E | exact I].
Qed.

Lemma run_creation a u b s w :
  run h (response <- Api.request a u Api.POST b ;;
         sha <- lift (prop response (js "sha")) ;;
         Ret (as_string sha)) s w
  = let p := sent a u Api.POST b in
    {| final_this := s; final_world := after h p w;
       trace := [Event (RequestUrl p) (answer h p w)];
       outcome_of := match created_id (answer h p w) with
                     | inr id => Returned id
                     | inl e => Threw e
                     end |}.
Proof.
  rewrite run_bind, run_request. unfold created_id, sent, answer, after.
  cbv zeta. cbn [outcome_of final_this final_world trace app].
  destruct (request_outcome _) as [response | e];
    cbn [run outcome_of final_this final_world trace app]; [|reflexivity].
  rewrite run_bind.
  destruct (prop response _) as [e | sha]; reflexivity.
Qed.

Lemma run_createTree a base items s w :
  run h (Api.createTree a base items) s w
  = let p := tree_creation a base items in
    {| final_this := s; final_world := after h p w;
       trace := [Event (RequestUrl p) (answer h p w)];
       outcome_of := match created_id (answer h p w) with
                     | inr id => Returned id
                     | inl e => Threw e
                     end |}.
Proof. unfold Api.createTree. cbv zeta. apply run_creation. Qed.

Lemma run_createCommit a message tree parent s w :
  run h (Api.createCommit a message tree parent) s w
  = let p := commit_creation a message tree parent in
    {| final_this := s; final_world := after h p w;
       trace := [Event (RequestUrl p) (answer h p w)];
       outcome_of := match created_id (answer h p w) with
                     | inr id => Returned id
                     | inl e => Threw e
                     end |}.
Proof. unfold Api.createCommit. cbv zeta. apply run_creation. Qed.

(** The run of [batchUpload], step by step. *)
Lemma run_batchUpload a files message s w :
  let lookup := head_lookup a in
  let first := Event (RequestUrl lookup) (answer h lookup w) in
  let parent := found_head (answer h lookup w) in
  let rt := run h (if truthy parent
                   then Api.getTreeSha a (interpolate parent)
                   else Ret None) s (after h lookup w) in
  let log e := ConsoleError (js "Batch upload failed:") e in
  let failed (tr : list event) (e : exn) (w' : W) :=
    {| final_this := s; final_world := snd (h _ (log e) w');
       trace := first :: tr ++ [Event (log e) (fst (h _ (log e) w'))];
       outcome_of := Returned false |} in
  run h (Api.batchUpload a files message) s w
  = match outcome_of rt with
    | Threw e => failed (trace rt) e (final_world rt)
    | Returned base =>
        let rb := run h (Api.build_tree_items a files []) s (final_world rt) in
        match outcome_of rb with
        | Threw e => failed (trace rt ++ trace rb) e (final_world rb)
        | Returned [] =>
            {| final_this := s; final_world := final_world rb;
               trace := first :: trace rt ++ trace rb;
               outcome_of := Returned true |}
        | Returned (i :: items) =>
            let pt := tree_creation a base (i :: items) in
            let et := Event (RequestUrl pt) (answer h pt (final_world rb)) in
            let wt := after h pt (final_world rb) in
            match created_id (answer h pt (final_world rb)) with
            | inl e => failed (trace rt ++ trace rb ++ [et]) e wt
            | inr tree =>
                let pc := commit_creation a message tree parent in
                let ec := Event (RequestUrl pc) (answer h pc wt) in
                let wc := after h pc wt in
                match created_id (answer h pc wt) with
                | inl e => failed (trace rt ++ trace rb ++ [et; ec]) e wc
                | inr commit =>
                    let ru := run h (Api.updateBranchRef a commit) s wc in
                    {| final_this := s; final_world := final_world ru;
                       trace := first :: trace rt ++ trace rb ++ [et; ec]
                                  ++ trace ru;
                       outcome_of := outcome_of ru |}
                end
            end
        end
    end.
Proof.
  cbv zeta. unfold Api.batchUpload.
  rewrite run_try_catch, run_bind, run_getLatestCommitSha. cbv zeta.
  cbn [outcome_of final_this final_world trace].
  fold (head_lookup a). unfold head_lookup, found_head, answer, after, sent.
  set (parent := match request_outcome _ with
                 | Returned _ => _ | Threw _ => None end).
  rewrite run_bind. cbv zeta.
  set (tree_lookup := if truthy parent then _ else _).
  match goal with
  | |- context [run h tree_lookup s ?w0] =>
      pose proof (run_flag_free h tree_lookup s w0) as Ft;
      destruct (run h tree_lookup s w0) as [st wt0 tt0 [base | e]]
  end; cbn [outcome_of final_this final_world trace app] in *.
  2:{ rewrite ApiResults.run_logged.
      cbn [outcome_of final_this final_world trace app].
      rewrite Ft; [reflexivity|].
      subst tree_lookup. destruct (truthy parent);
        [apply ProgFacts.flag_free_getTreeSha | constructor]. }
  rewrite Ft by (subst tree_lookup; destruct (truthy parent);
                 [apply ProgFacts.flag_free_getTreeSha | constructor]).
  rewrite run_bind. cbv zeta.
  pose proof (run_flag_free h (Api.build_tree_items a files []) s wt0
                (ProgFacts.flag_free_build_tree_items a files [])) as Fb.
  destruct (run h (Api.build_tree_items a files []) s wt0)
    as [sb wb tb [[|i items] | e]];
    cbn [outcome_of final_this final_world trace app] in *; subst sb.
  - cbn [run outcome_of final_this final_world trace app].
    now rewrite app_nil_r.
  - rewrite run_bind, run_createTree. cbv zeta.
    cbn [outcome_of final_this final_world trace app].
    unfold answer, after.
    destruct (created_id _) as [e | tree];
      cbn [outcome_of final_this final_world trace app].
    + rewrite ApiResults.run_logged.
      cbn [outcome_of final_this final_world trace app].
      rewrite <- ?app_assoc; reflexivity.
    + rewrite run_bind, run_createCommit. cbv zeta.
      cbn [outcome_of final_this final_world trace app].
      unfold answer, after.
      destruct (created_id _) as [e | commit];
        cbn [outcome_of final_this final_world trace app].
      * rewrite ApiResults.run_logged.
        cbn [outcome_of final_this final_world trace app].
        rewrite <- ?app_assoc; reflexivity.
      * pose proof (run_flag_free h (Api.updateBranchRef a commit) s
                      (snd (h _ (RequestUrl (commit_creation a message tree parent))
                              (snd (h _ (RequestUrl (tree_creation a base (i :: items))) wb))))
                      (ProgFacts.flag_free_updateBranchRef a commit)) as Fu.
        pose proof (run_no_throw h (Api.updateBranchRef a commit) s
                      (snd (h _ (RequestUrl (commit_creation a message tree parent))
                              (snd (h _ (RequestUrl (tree_creation a base (i :: items))) wb))))) as Nu.
        destruct (run h (Api.updateBranchRef a commit) s _) as [su wu tu [b | e]];
          cbn [outcome_of final_this final_world trace app] in *; subst su.
        -- rewrite <- ?app_assoc; reflexivity.
        -- destruct Nu as [b Hb]; [|discriminate].
           unfold Api.updateBranchRef.
           repeat first [ apply ProgFacts.no_throw_try_catch; intros
                        | apply ProgFacts.no_throw_bind; intros
                        | apply nt_vis; intros | apply nt_ret ].
  - rewrite ApiResults.run_logged.
    cbn [outcome_of final_this final_world trace app].
    rewrite <- ?app_assoc; reflexivity.
Qed.

Lemma keeps_tree_lookup a (parent : option jsstring) :
  Emits any_service (keeps_branch a)
    (if truthy parent then Api.getTreeSha a (interpolate parent) else Ret None).
Proof. destruct (truthy parent); [apply keeps_getTreeSha | constructor]. Qed.

Lemma requests_cons p ans tr :
  requests (Event (RequestUrl p) ans :: tr) = p :: requests tr.
Proof. reflexivity. Qed.

Lemma requests_logged m e x : requests [Event (ConsoleError m e) x] = [].
Proof. reflexivity. Qed.

(** X19.  [batchUpload] (lines 260-314) moves the branch last.  Either
    no request of the run moves the branch, and then the result is
    [false] unless there was no file to upload; or the run ends with
    [updateBranchRef], whose result is the result, after a tree with an
    entry for each file and a commit of that tree were created, and the
    branch is moved to that commit. *)
Theorem batchUpload_moves_branch_last a files message s w :
  let r := run h (Api.batchUpload a files message) s w in
  let parent := found_head (answer h (head_lookup a) w) in
  (Forall (fun p => moves_branch a p = false) (requests (trace r))
   /\ (outcome_of r = Returned false
       \/ (outcome_of r = Returned true /\ files = [])))
  \/ (exists tr base items tree commit w',
        trace r = tr ++ trace (run h (Api.updateBranchRef a commit) s w')
        /\ outcome_of r = outcome_of (run h (Api.updateBranchRef a commit) s w')
        /\ Forall (fun p => moves_branch a p = false) (requests tr)
        /\ map ti_path items = map Api.up_path files
        /\ answered tr (tree_creation a base items) tree
        /\ answered tr (commit_creation a message tree parent) commit).
Proof.
  cbv zeta. rewrite run_batchUpload. cbv zeta.
  set (parent := found_head (answer h (head_lookup a) w)).
  pose proof (emitted (keeps_branch a) _ s (after h (head_lookup a) w)
                (keeps_tree_lookup a parent)) as Ht.
  assert (H0 : moves_branch a (head_lookup a) = false) by reflexivity.
  destruct (run h (if truthy parent then _ else _) s _)
    as [st wt tt [base | e]]; cbn [outcome_of final_this final_world trace] in *.
  2:{ left. split; [|now left].
      cbn [requests]; rewrite requests_app, requests_logged, app_nil_r.
      now constructor. }
  pose proof (emitted (keeps_branch a) _ s wt
                (keeps_items any_service a files [])) as Hb.
  pose proof (UploadClaims.run_build_tree_items h a files [] s wt) as Hitems.
  destruct (run h (Api.build_tree_items a files []) s wt)
    as [sb wb tb [[|i items] | e]];
    cbn [outcome_of final_this final_world trace] in *.
  - left. split.
    + cbn [requests]; rewrite requests_app. constructor; [exact H0|].
      apply Forall_app. now split.
    + right. split; [reflexivity|].
      destruct (Hitems [] eq_refl) as [added [Ha Hf]].
      destruct added; [|discriminate]. now inversion Hf.
  - destruct (Hitems (i :: items) eq_refl) as [added [Ha Hf]].
    cbn [app] in Ha. subst added. apply items_paths in Hf.
    set (pt := tree_creation a base (i :: items)) in *.
    assert (Hpt : moves_branch a pt = false)
      by (unfold pt, moves_branch, tree_creation, sent; cbn [url method];
          rewrite ?eqb_app_head; vm_compute; reflexivity).
    destruct (created_id (answer h pt wb)) as [e | tree] eqn:Et;
      cbn [outcome_of final_this final_world trace].
    + left. split; [|now left].
      cbn [requests]; rewrite !requests_app; cbn [requests]. constructor; [exact H0|].
      rewrite !Forall_app. repeat split; auto.
    + set (pc := commit_creation a message tree parent) in *.
      assert (Hpc : moves_branch a pc = false)
        by (unfold pc, moves_branch, commit_creation, sent; cbn [url method];
            rewrite ?eqb_app_head; vm_compute; reflexivity).
      destruct (created_id (answer h pc (after h pt wb))) as [e | commit] eqn:Ec;
        cbn [outcome_of final_this final_world trace].
      * left. split; [|now left].
        cbn [requests]; rewrite !requests_app; cbn [requests]. constructor; [exact H0|].
        rewrite !Forall_app. repeat split; auto.
      * right.
        exists (Event (RequestUrl (head_lookup a)) (answer h (head_lookup a) w)
                  :: tt ++ tb
                  ++ [ Event (RequestUrl pt) (answer h pt wb);
                       Event (RequestUrl pc) (answer h pc (after h pt wb)) ]),
          base, (i :: items), tree, commit, (after h pc (after h pt wb)).
        cbn [outcome_of final_this final_world trace].
        split; [cbn [app]; now rewrite <- !app_assoc|].
        split; [reflexivity|]. split.
        { cbn [requests]; rewrite !requests_app; cbn [requests]. constructor; [exact H0|].
          rewrite !Forall_app. repeat split; auto. }
        split; [exact Hf|]. split.
        { exists (answer h pt wb). split; [|exact Et].
          right. apply in_or_app. right. apply in_or_app. right. now left. }
        { exists (answer h pc (after h pt wb)). split; [|exact Ec].
          right. apply in_or_app. right. apply in_or_app. right.
          right. now left. }
  - left. split; [|now left].
    cbn [requests]; rewrite !requests_app, requests_logged, app_nil_r.
    constructor; [exact H0|]. apply Forall_app. now split.
Qed.

Lemma found_head_none (ans : exn + Response) :
  succeeded ans = false -> found_head ans = None.
Proof.
  intros H. unfold found_head.
  pose proof (ApiResults.request_outcome_succeeded ans) as H'.
  destruct (request_outcome ans); [congruence | reflexivity].
Qed.

Lemma starts_history_lookup a message : starts_history a message (head_lookup a).
Proof. other_url. Qed.

Lemma starts_history_tree a message items :
  starts_history a message (tree_creation a None items).
Proof.
  split; [intros _; now exists items|].
  intros Hu; cbn [url tree_creation sent] in Hu; apply app_inv_head in Hu;
    vm_compute in Hu; discriminate Hu.
Qed.

Lemma starts_history_commit a message tree :
  starts_history a message (commit_creation a message tree None).
Proof.
  split; [|intros _; now exists tree].
  intros Hu; cbn [url commit_creation sent] in Hu; apply app_inv_head in Hu;
    vm_compute in Hu; discriminate Hu.
Qed.

(** X20.  When the lookup of the head of the branch fails, for
    whatever reason, [batchUpload] (lines 260-314) goes on as for a
    repository without history: the tree it creates has no base tree
    and the commit it creates has no parent. *)
Theorem batchUpload_without_head_starts_history a files message s w :
  succeeded (answer h (head_lookup a) w) = false ->
  Forall (starts_history a message)
    (requests (trace (run h (Api.batchUpload a files message) s w))).
Proof.
  intros Hf. rewrite run_batchUpload. cbv zeta.
  rewrite (found_head_none _ Hf).
  cbn [truthy run outcome_of final_this final_world trace app].
  pose proof (starts_history_lookup a message) as H0.
  pose proof (emitted (starting_history a message) _ s (after h (head_lookup a) w)
                (starting_items any_service a message files [])) as Hb.
  destruct (run h (Api.build_tree_items a files []) s _)
    as [sb wb tb [[|i items] | e]];
    cbn [outcome_of final_this final_world trace] in *.
  - cbn [requests]. now constructor.
  - pose proof (starts_history_tree a message (i :: items)) as Hpt.
    destruct (created_id (answer h (tree_creation a None (i :: items)) wb))
      as [e | tree]; cbn [outcome_of final_this final_world trace].
    + cbn [requests]; rewrite !requests_app; cbn [requests].
      constructor; [exact H0|]. rewrite !Forall_app. repeat split; auto.
    + pose proof (starts_history_commit a message tree) as Hpc.
      destruct (created_id (answer h (commit_creation a message tree None) _))
        as [e | commit]; cbn [outcome_of final_this final_world trace].
      * cbn [requests]; rewrite !requests_app; cbn [requests].
        constructor; [exact H0|]. rewrite !Forall_app. repeat split; auto.
      * pose proof (emitted (starting_history a message) _ s
                      (after h (commit_creation a message tree None)
                         (after h (tree_creation a None (i :: items)) wb))
                      (starting_updateBranchRef any_service a message commit)) as Hu.
        cbn [requests]; rewrite !requests_app; cbn [requests].
        constructor; [exact H0|]. rewrite !Forall_app. repeat split; auto.
  - cbn [requests]; rewrite !requests_app; cbn [requests].
    constructor; [exact H0|]. rewrite !Forall_app. repeat split; auto.
Qed.

End WithHost.

Lemma batchUpload_without_head_witness :
  Forall (starts_history Scenario.alice_api (js "first"))
    (requests (trace (run Mock.host
                        (Api.batchUpload Scenario.alice_api [Scenario.short_file]
                           (js "first"))
                        Scenario.alice Scenario.empty_repository))).
Proof.
  apply (batchUpload_without_head_starts_history Mock.host Scenario.alice_api
           [Scenario.short_file] (js "first") Scenario.alice
           Scenario.empty_repository).
  reflexivity.
Defined.

End Upload.

(* ================================================================ *)
(** * What a push uploads *)
(* ================================================================ *)

Module Pushing.
Import RunFacts ApiFacts ObserveFacts EmptyUpload.

Lemma listed_app (t1 t2 : list event) : listed (t1 ++ t2) = listed t1 ++ listed t2.
Proof.
  induction t1 as [|[X e x] t1 IH]; simpl; [reflexivity|].
  destruct e; simpl; now rewrite IH.
Qed.

Lemma shown_lists_nothing (tr : list event) :
  Forall (shown lists_nothing) tr -> listed tr = [].
Proof.
  induction 1 as [|[X e x] tr Hq _ IH]; simpl; [reflexivity|].
  destruct e; simpl in Hq; try contradiction; exact IH.
Qed.

Ltac no_list := exact I.

Lemma quiet_ensureRepository a :
  Emits any_service lists_nothing (Api.ensureRepository a).
Proof. emit no_list. Qed.

Lemma quiet_read_files files acc :
  Emits any_service lists_nothing (Service.read_files files acc).
Proof.
  revert acc. induction files as [|file rest IH]; intros acc; simpl; emit no_list.
Qed.

Lemma quiet_getCommitMessage :
  Emits any_service lists_nothing Service.getCommitMessage.
Proof. emit no_list. Qed.

Lemma quiet_build_tree_items a files items :
  Emits any_service lists_nothing (Api.build_tree_items a files items).
Proof.
  revert items. induction files as [|file rest IH]; intros items; simpl;
    emit no_list.
Qed.

Lemma quiet_batchUpload a files message :
  Emits any_service lists_nothing (Api.batchUpload a files message).
Proof.
  pose proof quiet_build_tree_items as H.
  unfold Api.batchUpload. emit no_list.
Qed.

Section WithHost.
Context {W : Type} (h : handler W).

Lemma no_listing {A} (p : Prog A) s w :
  Emits any_service lists_nothing p -> listed (trace (run h p s w)) = [].
Proof.
  intros E. apply shown_lists_nothing.
  apply (emits_sound h any_service); [apply Restraint.any_service_kept | | exact I].
  exact E.
Qed.

Lemma read_files_paths files : forall acc s w l,
  outcome_of (run h (Service.read_files files acc) s w) = Returned l ->
  map Api.up_path l = map Api.up_path acc ++ map path files.
Proof.
  induction files as [|file rest IH]; intros acc s w l.
  - cbn. intros [= <-]. now rewrite app_nil_r.
  - cbn [Service.read_files]. rewrite run_bind. cbv zeta.
    destruct (run h (Service.getFileContent file) s w) as [s1 w1 t1 [content | e]];
      cbn [outcome_of final_this final_world trace]; [|discriminate].
    intros Hl. apply IH in Hl. rewrite Hl, map_app. cbn [map Api.up_path].
    now rewrite <- app_assoc.
Qed.

(** What [batchUpload] has done when it answers [true] for files. *)
Lemma batchUpload_done a files message s w :
  files <> [] ->
  outcome_of (run h (Api.batchUpload a files message) s w) = Returned true ->
  exists base items tree,
    answered (trace (run h (Api.batchUpload a files message) s w))
      (tree_creation a base items) tree
    /\ map ti_path items = map Api.up_path files.
Proof.
  intros Hne. rewrite Upload.run_batchUpload. cbv zeta.
  destruct (run h (if truthy _ then _ else _) s _) as [st wt tt [base | e]];
    cbn [outcome_of final_this final_world trace]; [|discriminate].
  pose proof (UploadClaims.run_build_tree_items h a files [] s wt) as Hitems.
  destruct (run h (Api.build_tree_items a files []) s wt)
    as [sb wb tb [[|i items] | e]];
    cbn [outcome_of final_this final_world trace] in *; [| |discriminate].
  - destruct (Hitems [] eq_refl) as [added [Ha Hf]].
    destruct added; [|discriminate]. inversion Hf. congruence.
  - destruct (Hitems (i :: items) eq_refl) as [added [Ha Hf]].
    cbn [app] in Ha. subst added. apply Upload.items_paths in Hf.
    destruct (created_id (answer h (tree_creation a base (i :: items)) wb))
      as [e | tree] eqn:Et; cbn [outcome_of final_this final_world trace];
      [discriminate|].
    destruct (created_id (answer h (commit_creation a message tree _) _))
      as [e | commit]; cbn [outcome_of final_this final_world trace];
      [discriminate|].
    intros _. exists base, (i :: items), tree. split; [|exact Hf].
    eexists. split; [|exact Et].
    right. apply in_or_app. right. apply in_or_app. right. now left.
Qed.

Lemma run_push_body a s w res :
  api s = Some a ->
  let r := run h Service.push_body s w in
  outcome_of r = Returned res ->
  exists files,
    listed (trace r) = [files]
    /\ filesUploaded res = length (filter (Service.vault_file_kept s) files)
    /\ (filter (Service.vault_file_kept s) files <> [] ->
        exists base items tree,
          answered (trace r) (tree_creation a base items) tree
          /\ map ti_path items
             = map path (filter (Service.vault_file_kept s) files)).
Proof.
  intros Ha r. subst r. unfold Service.push_body.
  rewrite run_call_bind. cbv zeta.
  rewrite (run_this_api_bind h _ a) by exact Ha.
  rewrite run_bind. cbv zeta.
  set (w0 := snd (h _ (NewNotice (js "Pushing to GitHub.")) w)).
  pose proof (no_listing _ s w0 (quiet_ensureRepository a)) as L1.
  pose proof (run_flag_free h (Api.ensureRepository a) s w0
                (ProgFacts.flag_free_ensureRepository a)) as F1.
  destruct (run h (Api.ensureRepository a) s w0) as [s1 w1 t1 [ok | e]];
    cbn [outcome_of final_this final_world trace] in *; [|discriminate].
  subst s1. destruct ok; cbn [negb]; [|cbn; discriminate].
  unfold Service.getVaultFiles.
  rewrite run_bind_assoc, run_call_bind. cbv zeta.
  rewrite run_bind_assoc, run_this_bind. cbn [bind].
  set (files := fst (h _ VaultGetFiles w1)).
  set (w2 := snd (h _ VaultGetFiles w1)).
  set (kept := filter (Service.vault_file_kept s) files).
  rewrite run_bind. cbv zeta.
  pose proof (no_listing _ s w2 (quiet_read_files kept [])) as L2.
  pose proof (read_files_paths kept [] s w2) as P2.
  pose proof (run_flag_free h (Service.read_files kept []) s w2
                (ProgFacts.flag_free_read_files kept [])) as F2.
  destruct (run h (Service.read_files kept []) s w2) as [s2 w3 t2 [l | e]];
    cbn [outcome_of final_this final_world trace] in *; [|discriminate].
  subst s2. specialize (P2 l eq_refl). cbn [map app] in P2.
  assert (Hlen : length l = length kept).
  { rewrite <- (length_map Api.up_path l), P2. apply length_map. }
  destruct l as [|f l].
  - cbn [run outcome_of final_this final_world trace].
    intros [= <-]. exists files. cbn [filesUploaded].
    split; [|split].
    + repeat (rewrite ?listed_app; cbn [listed app]).
      now rewrite ?L1, ?L2, ?app_nil_r.
    + fold kept. now rewrite <- Hlen.
    + fold kept. destruct kept; [congruence | discriminate].
  - rewrite (run_this_api_bind h _ a) by exact Ha.
    rewrite run_bind. cbv zeta.
    pose proof (no_listing _ s w3 quiet_getCommitMessage) as L3.
    pose proof (run_flag_free h Service.getCommitMessage s w3
                  ProgFacts.flag_free_getCommitMessage) as F3.
    destruct (run h Service.getCommitMessage s w3) as [s3 w4 t3 [msg | e]];
      cbn [outcome_of final_this final_world trace] in *; [|discriminate].
    subst s3. rewrite run_bind. cbv zeta.
    pose proof (no_listing _ s w4 (quiet_batchUpload a (f :: l) msg)) as L4.
    pose proof (batchUpload_done a (f :: l) msg s w4) as D4.
    destruct (run h (Api.batchUpload a (f :: l) msg) s w4)
      as [s4 w5 t4 [ok | e]];
      cbn [outcome_of final_this final_world trace] in *; [|discriminate].
    destruct ok; [|cbn; discriminate].
    rewrite run_call_bind.
    cbn [run outcome_of final_this final_world trace].
    intros [= <-]. exists files. cbn [filesUploaded].
    split; [|split].
    + repeat (rewrite ?listed_app; cbn [listed app]).
      now rewrite ?L1, ?L2, ?L3, ?L4, ?app_nil_r.
    + fold kept. now rewrite <- Hlen.
    + intros _. destruct D4 as (base & items & tree & Hans & Hpaths);
        [discriminate | reflexivity |].
      exists base, items, tree. split.
      * destruct Hans as [ans [Hin Hid]]. exists ans. split; [|exact Hid].
        repeat (progress cbn [In] || rewrite in_app_iff). tauto.
      * fold kept. now rewrite Hpaths, P2.
Qed.

(** X21.  A [push] (lines 166-226) that reports success has listed the
    vault once, counts as uploaded the files of that listing which the
    exclusion rules keep, and, when there is one, has created a tree
    with exactly one entry for each of them, in the order of the
    listing. *)
Theorem push_uploads_the_kept_files a s w res :
  api s = Some a ->
  let r := run h Service.push s w in
  outcome_of r = Returned res -> success res = true ->
  exists files,
    listed (trace r) = [files]
    /\ filesUploaded res = length (filter (Service.vault_file_kept s) files)
    /\ (filter (Service.vault_file_kept s) files <> [] ->
        exists base items tree,
          answered (trace r) (tree_creation a base items) tree
          /\ map ti_path items
             = map path (filter (Service.vault_file_kept s) files)).
Proof.
  intros Ha r. subst r. unfold Service.push.
  rewrite run_get_bind, Ha, run_get_bind.
  destruct (isSyncing s) eqn:Hidle; [cbn; intros [= <-]; discriminate|].
  cbn [run]. rewrite run_finally, run_try_catch. cbv zeta.
  pose proof (run_push_body a (set_syncing true s) w) as Hbody.
  cbv zeta in Hbody.
  destruct (run h Service.push_body _ w) as [s1 w1 t1 [res' | e]];
    cbn [run outcome_of final_this final_world trace] in *.
  - intros [= <-] _. rewrite app_nil_r. now apply (Hbody res').
  - rewrite run_call_bind. cbn [run outcome_of]. intros [= <-]. discriminate.
Qed.

End WithHost.

Lemma push_uploads_witness :
  let r := run Mock.host Service.push Scenario.alice Cases.vault_with_notes in
  exists res,
    outcome_of r = Returned res
    /\ exists files,
         listed (trace r) = [files]
         /\ filesUploaded res
            = length (filter (Service.vault_file_kept Scenario.alice) files)
         /\ (filter (Service.vault_file_kept Scenario.alice) files <> [] ->
             exists base items tree,
               answered (trace r) (tree_creation Scenario.alice_api base items) tree
               /\ map ti_path items
                  = map path (filter (Service.vault_file_kept Scenario.alice) files)).
Proof.
  eexists. split; [reflexivity|].
  apply (push_uploads_the_kept_files Mock.host Scenario.alice_api Scenario.alice
           Cases.vault_with_notes); reflexivity.
Defined.

End Pushing.
Module Folders.
Import RunFacts.

Lemma before_last_cons (c x : N) (s : jsstring) :
  before_last c (x :: s)
  = if existsb (N.eqb c) s then x :: before_last c s else [].
Proof. reflexivity. Qed.

Lemma before_last_parent (dir name : jsstring) :
  existsb (N.eqb 47) name = false ->
  before_last 47 (dir ++ 47%N :: name) = dir.
Proof.
  intros Hn. induction dir as [|x dir IH]; cbn [app];
    rewrite before_last_cons.
  - now rewrite Hn.
  - rewrite existsb_app. cbn [existsb]. rewrite N.eqb_refl, orb_true_r.
    now rewrite IH.
Qed.

Lemma before_last_none (name : jsstring) :
  existsb (N.eqb 47) name = false -> before_last 47 name = [].
Proof.
  destruct name as [|x name]; [reflexivity|]. rewrite before_last_cons.
  cbn [existsb]. intros H. apply orb_false_iff in H as [_ H]. now rewrite H.
Qed.

(** X22.  [ensureFolder] (lines 147-152) cares for the folder of the
    file only: for a path made of a folder, a slash and a name without
    slash, it looks that folder up and creates it when the vault has
    nothing there, and creates no other; for a path without a folder it
    calls the host for nothing.  It writes no file. *)
Theorem ensureFolder_makes_the_parent {W} (h : handler W) dir name s w :
  existsb (N.eqb 47) name = false ->
  let r := run h (Service.ensureFolder (dir ++ 47%N :: name)) s w in
  match dir with
  | [] => trace r = []
  | _ :: _ =>
      match fst (h _ (VaultGetAbstractFileByPath dir) w) with
      | Some _ => created_folders (trace r) = []
      | None => created_folders (trace r) = [dir]
      end
  end
  /\ writes (trace r) = []
  /\ trace (run h (Service.ensureFolder name) s w) = [].
Proof.
  intros Hn r. subst r. unfold Service.ensureFolder. cbv zeta.
  rewrite (before_last_parent dir name Hn), (before_last_none name Hn).
  cbn [Service.nonempty run trace].
  destruct dir as [|x dir]; cbn [Service.nonempty run trace]; [now repeat split|].
  cbn [bind call run].
  destruct (h _ (VaultGetAbstractFileByPath (x :: dir)) w) as [[existing|] w1];
    cbn [fst run trace created_folders writes]; [now repeat split|].
  unfold await. cbn [run].
  destruct (h _ (VaultCreateFolder (x :: dir)) w1) as [[e|[]] w2];
    cbn [run trace created_folders writes]; now repeat split.
Qed.

Lemma ensureFolder_witness :
  let r := run Mock.host (Service.ensureFolder (js "notes" ++ 47%N :: js "a.md"))
             Scenario.alice Scenario.remote in
  created_folders (trace r) = [js "notes"]
  /\ writes (trace r) = []
  /\ trace (run Mock.host (Service.ensureFolder (js "a.md")) Scenario.alice
              Scenario.remote) = [].
Proof.
  apply (ensureFolder_makes_the_parent Mock.host (js "notes") (js "a.md")
           Scenario.alice Scenario.remote).
  reflexivity.
Defined.

End Folders.

Module Settings.
Import RunFacts.

(** X23.  Settings without a user name, a token or a repository name
    leave the service without API object, whatever was configured
    before: every operation called after [updateSettings] (lines 17-20)
    is turned away as not configured, and calls the host for nothing. *)
Theorem incomplete_settings_turn_operations_away {W} (h : handler W)
  s st op w :
  Service.nonempty (githubUsername st) && Service.nonempty (githubToken st)
    && Service.nonempty (repositoryName st) = false ->
  let r := run h (Service.run_operation op) (Service.updateSettings s st) w in
  Service.isConfigured (Service.updateSettings s st) = false
  /\ trace r = []
  /\ outcome_of r = Returned not_configured
  /\ final_world r = w.
Proof.
  intros H r. subst r.
  assert (Ha : api (Service.updateSettings s st) = None).
  { unfold Service.updateSettings, Service.initializeAPI.
    cbn [settings]. now rewrite H. }
  unfold Service.isConfigured. rewrite Ha. split; [reflexivity|].
  destruct op; cbn [Service.run_operation];
    unfold Service.push, Service.pull, Service.sync;
    rewrite EmptyUpload.run_get_bind, Ha; now repeat split.
Qed.

Lemma incomplete_settings_witness :
  let r := run Mock.host (Service.run_operation Service.Sync)
             (Service.updateSettings Scenario.alice DEFAULT_SETTINGS)
             Scenario.remote in
  Service.isConfigured (Service.updateSettings Scenario.alice DEFAULT_SETTINGS)
  = false
  /\ trace r = []
  /\ outcome_of r = Returned not_configured
  /\ final_world r = Scenario.remote.
Proof.
  apply (incomplete_settings_turn_operations_away Mock.host Scenario.alice
           DEFAULT_SETTINGS Service.Sync Scenario.remote).
  reflexivity.
Defined.

End Settings.

(* ================================================================ *)
(** * What a sync downloads *)
(* ================================================================ *)

Module Downloads.
Import RunFacts ProgFacts ApiFacts ObserveFacts.

Lemma silent_writeFileContent p c :
  Emits any_service requests_nothing (Service.writeFileContent p c).
Proof. emit plain. Qed.

Lemma startsWith_app_head (p x y : jsstring) :
  startsWith (p ++ x) (p ++ y) = startsWith x y.
Proof. induction p; simpl; [reflexivity|]. now rewrite N.eqb_refl. Qed.

Ltac no_fetch :=
  first [ exact I
        | unfold fetches_nothing; cbn [url];
          first [ rewrite startsWith_app_head; vm_compute; reflexivity
                | rewrite <- (app_nil_r (Api.baseUrl _)) at 1;
                  rewrite startsWith_app_head; reflexivity
                | unfold Api.baseUrl; vm_compute; reflexivity ] ].

Lemma distant_ensureRepository a :
  Emits any_service (fetches_nothing a) (Api.ensureRepository a).
Proof. emit no_fetch. Qed.

Lemma distant_getAllFiles a :
  Emits any_service (fetches_nothing a) (Api.getAllFiles a).
Proof. emit no_fetch. Qed.

Lemma distant_sync_read_files a files acc n :
  Emits any_service (fetches_nothing a) (Service.sync_read_files files acc n).
Proof.
  revert acc n. induction files as [|file rest IH]; intros acc n; simpl;
    emit no_fetch.
Qed.

Lemma distant_build_tree_items a files items :
  Emits any_service (fetches_nothing a) (Api.build_tree_items a files items).
Proof.
  revert items. induction files as [|file rest IH]; intros items; simpl;
    emit no_fetch.
Qed.

Lemma distant_batchUpload a files message :
  Emits any_service (fetches_nothing a) (Api.batchUpload a files message).
Proof.
  pose proof distant_build_tree_items as H.
  unfold Api.batchUpload. emit no_fetch.
Qed.

Lemma distant_getCommitMessage a :
  Emits any_service (fetches_nothing a) Service.getCommitMessage.
Proof. emit no_fetch. Qed.

Lemma quiet_getAllFiles a : Emits any_service lists_nothing (Api.getAllFiles a).
Proof. emit plain. Qed.

Lemma quiet_sync_read_files files acc n :
  Emits any_service lists_nothing (Service.sync_read_files files acc n).
Proof.
  revert acc n. induction files as [|file rest IH]; intros acc n; simpl;
    emit plain.
Qed.

Lemma quiet_sync_loop vault remote n :
  Emits any_service lists_nothing (Service.sync_loop vault remote n).
Proof.
  revert n. induction remote as [|path rest IH]; intros n; simpl; emit plain.
Qed.

Section WithHost.
Context {W : Type} (h : handler W).

Lemma no_requests {A} (p : Prog A) s w :
  Emits any_service requests_nothing p -> requests (trace (run h p s w)) = [].
Proof.
  intros E. pose proof (Upload.emitted h requests_nothing p s w E) as H.
  destruct (requests _) as [|q l]; [reflexivity|]. now inversion H.
Qed.

Lemma requests_api_getFileContent a p s w :
  Forall (fetch_of a p) (requests (trace (run h (Api.getFileContent a p) s w))).
Proof.
  rewrite ApiResults.run_api_getFileContent.
  destruct (Api.contents_url a p) as [e | u] eqn:Eu; cbn; constructor;
    [|constructor].
  exists u. now split.
Qed.

Lemma sync_loop_fetches a vault remote : forall n s w,
  api s = Some a ->
  Forall (fun q => exists p,
            In p remote /\ Service.map_has vault p = false
            /\ Service.sync_shouldSkip s p = false /\ fetch_of a p q)
    (requests (trace (run h (Service.sync_loop vault remote n) s w))).
Proof.
  induction remote as [|path rest IH]; intros n s w Ha; [constructor|].
  assert (Hrest : forall m w',
    Forall (fun q => exists p,
              In p (path :: rest) /\ Service.map_has vault p = false
              /\ Service.sync_shouldSkip s p = false /\ fetch_of a p q)
      (requests (trace (run h (Service.sync_loop vault rest m) s w')))).
  { intros m w'. eapply Forall_impl; [|apply (IH m s w' Ha)].
    intros q (p & Hin & H). exists p. split; [now right | exact H]. }
  cbn [Service.sync_loop]. rewrite EmptyUpload.run_this_bind.
  destruct (Service.sync_shouldSkip s path) eqn:Hskip; [apply Hrest|].
  destruct (Service.map_has vault path) eqn:Hhas; cbn [negb]; [apply Hrest|].
  rewrite (EmptyUpload.run_this_api_bind h _ a) by exact Ha.
  rewrite run_bind. cbv zeta.
  pose proof (requests_api_getFileContent a path s w) as Hget.
  pose proof (run_flag_free h (Api.getFileContent a path) s w
                (ProgFacts.flag_free_api_getFileContent a path)) as F1.
  assert (Hhere : Forall (fun q => exists p,
              In p (path :: rest) /\ Service.map_has vault p = false
              /\ Service.sync_shouldSkip s p = false /\ fetch_of a p q)
            (requests (trace (run h (Api.getFileContent a path) s w)))).
  { eapply Forall_impl; [|exact Hget]. intros q Hq. exists path.
    repeat split; auto. now left. }
  destruct (run h (Api.getFileContent a path) s w) as [s1 w1 t1 [[content|] | e]];
    cbn [outcome_of final_this final_world trace] in *; subst.
  - rewrite run_bind. cbv zeta.
    pose proof (no_requests _ s w1 (silent_writeFileContent path content)) as Hw.
    pose proof (run_flag_free h (Service.writeFileContent path content) s w1
                  (ProgFacts.flag_free_writeFileContent path content)) as F2.
    destruct (run h (Service.writeFileContent path content) s w1)
      as [s2 w2 t2 [u | e]];
      cbn [outcome_of final_this final_world trace] in *; subst.
    + rewrite !requests_app, Hw. cbn [app]. apply Forall_app. split; auto.
    + rewrite requests_app, Hw, app_nil_r. exact Hhere.
  - rewrite requests_app. apply Forall_app. split; auto.
  - exact Hhere.
Qed.

Lemma quiet_upload (filesToUpload : list Api.UploadFile) :
  Emits any_service lists_nothing
    (match filesToUpload with
     | [] => Ret tt
     | _ :: _ =>
         a <- Service.this_api ;;
         msg <- Service.getCommitMessage ;;
         uploadSuccess <- Api.batchUpload a filesToUpload msg ;;
         if uploadSuccess then Ret tt
         else Throw (Error (js "Failed to upload files"))
     end).
Proof.
  pose proof Pushing.quiet_batchUpload. pose proof Pushing.quiet_getCommitMessage.
  emit plain.
Qed.

Lemma distant_upload a s w (filesToUpload : list Api.UploadFile) :
  api s = Some a ->
  Forall (fun q => startsWith (url q) (Api.baseUrl a ++ js "/contents/") = false)
    (requests (trace (run h
       (match filesToUpload with
        | [] => Ret tt
        | _ :: _ =>
            a <- Service.this_api ;;
            msg <- Service.getCommitMessage ;;
            uploadSuccess <- Api.batchUpload a filesToUpload msg ;;
            if uploadSuccess then Ret tt
            else Throw (Error (js "Failed to upload files"))
        end) s w))).
Proof.
  intros Ha. destruct filesToUpload as [|f l]; [constructor|].
  rewrite (EmptyUpload.run_this_api_bind h _ a) by exact Ha.
  apply (Upload.emitted h (fetches_nothing a)).
  pose proof (distant_batchUpload a). pose proof (distant_getCommitMessage a).
  emit no_fetch.
Qed.

Lemma not_in_map (s : SyncService) (files : list TFile) (p : jsstring) :
  Service.map_has (map path (filter (Service.vault_file_kept s) files)) p = false ->
  forall f, In f files -> Service.vault_file_kept s f = true -> path f <> p.
Proof.
  intros H f Hin Hk E. unfold Service.map_has in H.
  assert (Hex : existsb (JS.eqb p)
                  (map path (filter (Service.vault_file_kept s) files)) = true).
  { apply existsb_exists. exists (path f). split.
    - apply in_map. apply filter_In. now split.
    - rewrite E. apply JSFacts.eqb_refl. }
  congruence.
Qed.

Lemma requests_bind {A B} (P : RequestUrlParam -> Prop)
  (p : Prog A) (f : A -> Prog B) s w :
  Forall P (requests (trace (run h p s w))) ->
  (forall x, outcome_of (run h p s w) = Returned x ->
     Forall P (requests (trace (run h (f x) (final_this (run h p s w))
                                  (final_world (run h p s w)))))) ->
  Forall P (requests (trace (run h (bind p f) s w))).
Proof.
  intros Hp Hf. rewrite run_bind. cbv zeta.
  destruct (outcome_of (run h p s w)) as [x | e] eqn:E;
    cbn [trace]; [|exact Hp].
  rewrite requests_app. apply Forall_app. split; [exact Hp | now apply Hf].
Qed.

Lemma distant_is_missing a s files tr :
  Forall (fun q => startsWith (url q) (Api.baseUrl a ++ js "/contents/") = false)
    (requests tr) ->
  Forall (fetches_missing a s files) (requests tr).
Proof.
  intros H. eapply Forall_impl; [|exact H].
  intros q Hq Hs. congruence.
Qed.

Lemma distant {A} a (p : Prog A) s w :
  Emits any_service (fetches_nothing a) p ->
  Forall (fun q => startsWith (url q) (Api.baseUrl a ++ js "/contents/") = false)
    (requests (trace (run h p s w))).
Proof. intros E. apply (Upload.emitted h (fetches_nothing a) p s w E). Qed.

Lemma run_sync_body_fetches a s w :
  api s = Some a ->
  let w0 := snd (h _ (NewNotice (js "Starting sync.")) w) in
  let w1 := final_world (run h (Api.ensureRepository a) s w0) in
  Forall (fetches_missing a s (fst (h _ VaultGetFiles w1)))
    (requests (trace (run h Service.sync_body s w))).
Proof.
  intros Ha w0 w1. unfold Service.sync_body.
  rewrite EmptyUpload.run_call_bind. cbv zeta. cbn [trace requests]. fold w0.
  rewrite (EmptyUpload.run_this_api_bind h _ a) by exact Ha.
  apply requests_bind.
  { apply distant_is_missing, distant, distant_ensureRepository. }
  intros ok _.
  rewrite (run_flag_free h _ s w0 (ProgFacts.flag_free_ensureRepository a)).
  fold w1. destruct ok; cbn [negb]; [|constructor].
  unfold Service.getVaultFiles.
  rewrite EmptyUpload.run_bind_assoc, EmptyUpload.run_call_bind. cbv zeta.
  cbn [trace requests].
  rewrite EmptyUpload.run_bind_assoc, EmptyUpload.run_this_bind. cbn [bind].
  set (files := fst (h _ VaultGetFiles w1)).
  set (w2 := snd (h _ VaultGetFiles w1)).
  set (kept := filter (Service.vault_file_kept s) files).
  rewrite (EmptyUpload.run_this_api_bind h _ a) by exact Ha.
  apply requests_bind.
  { apply distant_is_missing, distant, distant_getAllFiles. }
  intros remoteFiles _.
  rewrite (run_flag_free h _ s w2 (ProgFacts.flag_free_getAllFiles a)).
  cbv zeta. apply requests_bind.
  { apply distant_is_missing, distant, distant_sync_read_files. }
  intros [filesToUpload filesUploaded] _.
  rewrite (run_flag_free h _ s _ (ProgFacts.flag_free_sync_read_files kept [] 0)).
  apply requests_bind.
  { apply distant_is_missing, distant_upload. exact Ha. }
  intros [] _.
  match goal with
  | |- context [final_this (run h ?p s ?w')] =>
      assert (F : final_this (run h p s w') = s)
  end.
  { apply run_flag_free.
    destruct filesToUpload; ProgFacts.shape. }
  rewrite F. apply requests_bind.
  { eapply Forall_impl; [|apply (sync_loop_fetches a _ _ 0 s _ Ha)].
    intros q (p & Hin & Hhas & Hskip & Hfetch) _. exists p.
    split; [exact Hfetch|]. split; [exact Hskip|].
    now apply not_in_map. }
  intros n _. rewrite EmptyUpload.run_call_bind. cbn. constructor.
Qed.

Lemma listed_bind {A B} (files : list TFile) (p : Prog A) (f : A -> Prog B) s w :
  In files (listed (trace (run h (bind p f) s w))) ->
  In files (listed (trace (run h p s w)))
  \/ exists x, outcome_of (run h p s w) = Returned x
               /\ In files (listed (trace (run h (f x) (final_this (run h p s w))
                                             (final_world (run h p s w))))).
Proof.
  rewrite run_bind. cbv zeta.
  destruct (outcome_of (run h p s w)) as [x | e]; cbn [trace]; [|now left].
  rewrite Pushing.listed_app, in_app_iff. intros [H | H]; [now left|].
  right. now exists x.
Qed.

Ltac not_listed L :=
  match goal with
  | H : In _ (listed (trace (run _ ?p ?s ?w))) |- _ =>
      rewrite (Pushing.no_listing _ p s w L) in H; destruct H
  end.

Lemma run_sync_body_listed a s w files :
  api s = Some a ->
  let w0 := snd (h _ (NewNotice (js "Starting sync.")) w) in
  let w1 := final_world (run h (Api.ensureRepository a) s w0) in
  In files (listed (trace (run h Service.sync_body s w))) ->
  files = fst (h _ VaultGetFiles w1).
Proof.
  intros Ha w0 w1. unfold Service.sync_body.
  rewrite EmptyUpload.run_call_bind. cbv zeta. cbn [trace listed]. fold w0.
  rewrite (EmptyUpload.run_this_api_bind h _ a) by exact Ha.
  intros H. apply listed_bind in H as [H | (ok & _ & H)];
    [not_listed (Pushing.quiet_ensureRepository a)|].
  rewrite (run_flag_free h _ s w0 (ProgFacts.flag_free_ensureRepository a)) in H.
  fold w1 in H. destruct ok; cbn [negb] in H; [|destruct H].
  unfold Service.getVaultFiles in H.
  rewrite EmptyUpload.run_bind_assoc, EmptyUpload.run_call_bind in H.
  cbv zeta in H. cbn [trace listed] in H. destruct H as [H | H]; [now subst|].
  rewrite EmptyUpload.run_bind_assoc, EmptyUpload.run_this_bind in H.
  cbn [bind] in H.
  rewrite (EmptyUpload.run_this_api_bind h _ a) in H by exact Ha.
  apply listed_bind in H as [H | (remoteFiles & _ & H)];
    [not_listed (quiet_getAllFiles a)|].
  rewrite (run_flag_free h _ s _ (ProgFacts.flag_free_getAllFiles a)) in H.
  cbv zeta in H.
  apply listed_bind in H as [H | ([filesToUpload filesUploaded] & _ & H)];
    [not_listed (quiet_sync_read_files
                   (filter (Service.vault_file_kept s) (fst (h _ VaultGetFiles w1)))
                   [] 0)|].
  rewrite (run_flag_free h _ s _ (ProgFacts.flag_free_sync_read_files _ [] 0)) in H.
  apply listed_bind in H as [H | ([] & _ & H)];
    [not_listed (quiet_upload filesToUpload)|].
  match type of H with
  | context [final_this (run h ?p s ?w')] =>
      assert (F : final_this (run h p s w') = s)
        by (apply run_flag_free; destruct filesToUpload; ProgFacts.shape)
  end.
  rewrite F in H.
  apply listed_bind in H as [H | (n & _ & H)];
    [match goal with
     | H : In _ (listed (trace (run _ (Service.sync_loop ?v ?r 0) _ _))) |- _ =>
         rewrite (Pushing.no_listing _ _ _ _ (quiet_sync_loop v r 0)) in H;
         destruct H
     end|].
  rewrite EmptyUpload.run_call_bind in H. cbn in H. destruct H.
Qed.


End WithHost.


End Downloads.

(* ================================================================ *)
(** * The callbacks of the plugin *)
(* ================================================================ *)

Module PluginFacts.
Import RunFacts Plugin.

Section WithHost.
Context {W : Type} (h : plugin_host W).

Lemma perform_and_then {A B} (p : Act A) (f : A -> Act B) pl w :
  perform h (and_then p f) pl w =
  let r := perform h p pl w in
  match ended r with
  | Returned a =>
      let r' := perform h (f a) (final_plugin r) (final_host r) in
      {| final_plugin := final_plugin r'; final_host := final_host r';
         happened := happened r ++ happened r'; ended := ended r' |}
  | Threw e =>
      {| final_plugin := final_plugin r; final_host := final_host r;
         happened := happened r; ended := Threw e |}
  end.
Proof.
  revert pl w. induction p as [a | e | X e k IH | k IH | pl' k IH];
    intros pl w; simpl.
  - now destruct (perform h (f a) pl w).
  - reflexivity.
  - destruct (h _ e w) as [x w']. rewrite IH. simpl.
    now destruct (ended (perform h (k x) pl w')).
  - apply IH.
  - apply IH.
Qed.

(** What the caller sees of a method of the service that is started and
    not awaited: no timer is touched, and nothing is thrown. *)
Lemma perform_begun_service {A} (p : Prog A) : forall pl w,
  let r := perform h (begun (service_call p)) pl w in
  autoSyncIntervalId (final_plugin r) = autoSyncIntervalId pl
  /\ (forall live, timers (happened r) live = live)
  /\ ended r = Returned tt.
Proof.
  induction p as [a | e | X e k IH | k IH | b k IH]; intros pl w;
    cbn [service_call begun perform].
  - now repeat split.
  - now repeat split.
  - cbn [awaited]. destruct (awaits e).
    + cbn [perform]. destruct (h _ (Begin (HostCall e)) w) as [[] w'].
      now repeat split.
    + cbn [perform]. destruct (h _ (HostCall e) w) as [x w'].
      destruct (IH x pl w') as (Hid & Ht & He). cbv zeta in *.
      cbn [final_plugin happened ended timers]. now repeat split.
  - apply IH.
  - destruct (IH {| syncService := set_syncing b (syncService pl);
                    autoSyncIntervalId := autoSyncIntervalId pl |} w)
      as (Hid & Ht & He).
    cbv zeta in *. now repeat split.
Qed.

(** A program that pauses leaves the plugin as it is, up to the pause. *)
Lemma perform_begun_pausing {A} (I : SyncService -> Prop) (p : Prog A) :
  Pausing I p -> forall pl w,
  I (syncService pl) ->
  final_plugin (perform h (begun (service_call p)) pl w) = pl.
Proof.
  induction 1 as [X e k He | X e k He _ IH | k _ IH]; intros pl w HI;
    cbn [service_call begun awaited]; rewrite ?He; cbn [perform].
  - now destruct (h _ (Begin (HostCall e)) w) as [[] w'].
  - destruct (h _ (HostCall e) w) as [x w']. cbn [final_plugin]. now apply IH.
  - now apply IH.
Qed.

Lemma pausing_bind {A B} I (p : Prog A) (f : A -> Prog B) :
  Pausing I p -> Pausing I (bind p f).
Proof.
  induction 1 as [X e k He | X e k He _ IH | k _ IH]; cbn [bind].
  - now apply pausing_await.
  - now apply pausing_call.
  - now apply pausing_get.
Qed.

Lemma pausing_try_catch {A} I (p : Prog A) (c : exn -> Prog A) :
  Pausing I p -> Pausing I (try_catch p c).
Proof.
  induction 1 as [X e k He | X e k He _ IH | k _ IH]; cbn [try_catch].
  - now apply pausing_await.
  - now apply pausing_call.
  - now apply pausing_get.
Qed.

Lemma pausing_finally {A} I (p : Prog A) (f : Prog unit) :
  Pausing I p -> Pausing I (finally p f).
Proof.
  induction 1 as [X e k He | X e k He _ IH | k _ IH]; cbn [finally].
  - now apply pausing_await.
  - now apply pausing_call.
  - now apply pausing_get.
Qed.

(** The body of [sync] on a configured service: the notice, and then
    the request of [ensureRepository], which is awaited. *)
Lemma pausing_sync_body a :
  Pausing (Observe.configured_with a) Service.sync_body.
Proof.
  unfold Service.sync_body. cbn [bind call].
  apply pausing_call; [reflexivity|]. intros _.
  unfold Service.this_api at 1. cbn [bind].
  apply pausing_get. intros s Hs. unfold Observe.configured_with in Hs.
  rewrite Hs. cbn [bind].
  apply pausing_bind. unfold Api.ensureRepository.
  apply pausing_try_catch, pausing_bind. unfold Api.request.
  apply pausing_bind. unfold await. now apply pausing_await.
Qed.

(** [sync] started on an idle, configured service sets the flag and
    pauses; on a service without configuration it returns at once. *)
Lemma perform_begun_sync pl w :
  Service.isBusy (syncService pl) = false ->
  final_plugin (perform h (begun (service_call Service.sync)) pl w)
  = {| syncService := set_syncing (Service.isConfigured (syncService pl))
                        (syncService pl);
       autoSyncIntervalId := autoSyncIntervalId pl |}.
Proof.
  unfold Service.isBusy, Service.isConfigured. intros Hidle.
  unfold Service.sync. cbn [bind Service.get service_call begun perform].
  destruct (api (syncService pl)) as [a|] eqn:Ha.
  - cbn [bind Service.get service_call begun perform]. rewrite Hidle.
    cbn [service_call begun perform].
    apply (perform_begun_pausing (Observe.configured_with a)).
    + apply pausing_finally, pausing_try_catch, pausing_sync_body.
    + exact Ha.
  - cbn [service_call begun perform final_plugin].
    rewrite <- Hidle. now rewrite EngineClaims.set_syncing_same; destruct pl.
Qed.

Lemma perform_service_call {A} (p : Prog A) pl w :
  perform h (service_call p) pl w =
  let r := run (service_host h) p (syncService pl) w in
  {| final_plugin := {| syncService := final_this r;
                        autoSyncIntervalId := autoSyncIntervalId pl |};
     final_host := final_world r;
     happened := map of_event (trace r);
     ended := outcome_of r |}.
Proof.
  revert pl w. induction p as [a | e | X e k IH | k IH | b k IH];
    intros pl w; simpl.
  - now destruct pl.
  - now destruct pl.
  - change (service_host h X e w) with (h X (HostCall e) w).
    destruct (h X (HostCall e) w) as [x w']. rewrite IH. reflexivity.
  - apply IH.
  - now rewrite IH.
Qed.

(** An operation called from a callback: the plugin is as before, and
    the operation has returned. *)
Lemma perform_operation op pl w :
  let r := run (service_host h) (Service.run_operation op) (syncService pl) w in
  exists res,
    outcome_of r = Returned res
    /\ perform h (service_call (Service.run_operation op)) pl w
       = {| final_plugin := pl; final_host := final_world r;
            happened := map of_event (trace r); ended := Returned res |}.
Proof.
  cbv zeta.
  destruct (run_no_throw (service_host h) (Service.run_operation op)
              (syncService pl) w (EngineClaims.operation_no_throw op)) as [res Hres].
  exists res. split; [exact Hres|].
  rewrite perform_service_call. cbv zeta.
  rewrite EngineClaims.run_operation_restores, Hres. now destruct pl.
Qed.

Lemma perform_saveSettings pl w :
  perform h saveSettings pl w =
  let st := plugin_settings pl in
  {| final_plugin :=
       match fst (h _ (SaveData st) w) with
       | inl _ => pl
       | inr _ => {| syncService := Service.updateSettings (syncService pl) st;
                     autoSyncIntervalId := autoSyncIntervalId pl |}
       end;
     final_host := snd (h _ (SaveData st) w);
     happened := [Happened (SaveData st) (fst (h _ (SaveData st) w))];
     ended := match fst (h _ (SaveData st) w) with
              | inl e => Threw e
              | inr _ => Returned tt
              end |}.
Proof.
  unfold saveSettings. cbn [perform].
  destruct (h _ (SaveData _) w) as [[e | []] w']; reflexivity.
Qed.

Lemma perform_record_sync_time pl w :
  perform h record_sync_time pl w =
  let now := fst (h _ (HostCall DateNow) w) in
  let r := perform h saveSettings (set_lastSyncTime pl now)
             (snd (h _ (HostCall DateNow) w)) in
  {| final_plugin := final_plugin r; final_host := final_host r;
     happened := Happened (HostCall DateNow) now :: happened r;
     ended := ended r |}.
Proof.
  unfold record_sync_time. cbn [perform].
  now destruct (h _ (HostCall DateNow) w).
Qed.

Lemma timers_app (l1 l2 : list happening) : forall live,
  timers (l1 ++ l2) live = timers l2 (timers l1 live).
Proof.
  induction l1 as [|[X e x] l1 IH]; intros live; [reflexivity|].
  destruct e; cbn [app timers]; apply IH.
Qed.

Lemma timers_of_service (tr : list event) (live : list Z) :
  timers (map of_event tr) live = live.
Proof. induction tr as [|[X e x] tr IH]; [reflexivity|]. exact IH. Qed.

Lemma settings_updateSettings s st : settings (Service.updateSettings s st) = st.
Proof.
  unfold Service.updateSettings, Service.initializeAPI. cbn [settings].
  now destruct (_ && _).
Qed.

(** What the end of a callback that ran an operation does. *)
Lemma perform_after_operation op pl w :
  let r0 := run (service_host h) (Service.run_operation op) (syncService pl) w in
  let now := fst (h _ (HostCall DateNow) (final_world r0)) in
  let w1 := snd (h _ (HostCall DateNow) (final_world r0)) in
  let st := with_lastSyncTime (plugin_settings pl) now in
  let r := perform h (and_then (service_call (Service.run_operation op))
                        (fun _ => record_sync_time)) pl w in
  happened r = map of_event (trace r0)
               ++ [ Happened (HostCall DateNow) now;
                    Happened (SaveData st) (fst (h _ (SaveData st) w1)) ]
  /\ plugin_settings (final_plugin r) = st
  /\ isSyncing (syncService (final_plugin r)) = isSyncing (syncService pl)
  /\ autoSyncIntervalId (final_plugin r) = autoSyncIntervalId pl
  /\ ended r = match fst (h _ (SaveData st) w1) with
               | inl e => Threw e
               | inr _ => Returned tt
               end.
Proof.
  cbv zeta. rewrite perform_and_then. cbv zeta.
  destruct (perform_operation op pl w) as [res [Hres ->]].
  cbn [ended final_plugin final_host happened].
  rewrite perform_record_sync_time. cbv zeta.
  rewrite perform_saveSettings. cbv zeta.
  cbn [ended final_plugin final_host happened].
  change (plugin_settings (set_lastSyncTime pl ?n))
    with (with_lastSyncTime (plugin_settings pl) n).
  split; [reflexivity|].
  destruct (fst (h _ (SaveData _) _)) as [e | []];
    cbn [plugin_settings syncService autoSyncIntervalId set_lastSyncTime
         settings isSyncing];
    rewrite ?settings_updateSettings, ?EngineClaims.updateSettings_isSyncing;
    repeat split;
    unfold plugin_settings at 1; cbn [syncService settings];
    now rewrite ?settings_updateSettings.
Qed.

Lemma saved_app (l1 l2 : list happening) :
  saved (l1 ++ l2) = saved l1 ++ saved l2.
Proof.
  induction l1 as [|[X e x] l1 IH]; [reflexivity|].
  destruct e; cbn [app saved]; now rewrite IH.
Qed.

Lemma saved_of_service (tr : list event) : saved (map of_event tr) = [].
Proof. induction tr as [|[X e x] tr IH]; [reflexivity|]. exact IH. Qed.

(** X25.  A command records the time whatever became of the operation:
    on a configured service, the callback of [push], [pull] or [sync]
    (lines 32-72) runs the operation, then reads the clock, puts the time
    into [lastSyncTime] and saves the settings once, with that time;
    the result of the operation, be it a success, a failure or the
    refusal of a busy service, plays no part. *)
Theorem command_records_the_time op pl w :
  Service.isConfigured (syncService pl) = true ->
  let r0 := run (service_host h) (Service.run_operation op) (syncService pl) w in
  let now := fst (h _ (HostCall DateNow) (final_world r0)) in
  let w1 := snd (h _ (HostCall DateNow) (final_world r0)) in
  let st := with_lastSyncTime (plugin_settings pl) now in
  let r := perform h (command op) pl w in
  happened r = map of_event (trace r0)
               ++ [ Happened (HostCall DateNow) now;
                    Happened (SaveData st) (fst (h _ (SaveData st) w1)) ]
  /\ saved (happened r) = [st]
  /\ plugin_settings (final_plugin r) = st.
Proof.
  intros Hc. cbv zeta. unfold command. cbn [perform]. rewrite Hc. cbn [negb].
  destruct (perform_after_operation op pl w) as (Hh & Hs & _).
  cbv zeta in Hh, Hs. rewrite Hh, Hs.
  split; [reflexivity|]. split; [|reflexivity].
  rewrite saved_app, saved_of_service. reflexivity.
Qed.

Lemma perform_notice msg pl w :
  perform h (notice msg) pl w =
  {| final_plugin := pl; final_host := snd (h _ (HostCall (NewNotice msg)) w);
     happened := [Happened (HostCall (NewNotice msg))
                    (fst (h _ (HostCall (NewNotice msg)) w))];
     ended := Returned tt |}.
Proof. unfold notice. cbn [perform]. now destruct (h _ _ w). Qed.

Lemma perform_clearAutoSync pl w :
  perform h clearAutoSync pl w =
  match autoSyncIntervalId pl with
  | Some id =>
      {| final_plugin := {| syncService := syncService pl;
                            autoSyncIntervalId := None |};
         final_host := snd (h _ (ClearInterval id) w);
         happened := [Happened (ClearInterval id) (fst (h _ (ClearInterval id) w))];
         ended := Returned tt |}
  | None => {| final_plugin := pl; final_host := w; happened := [];
               ended := Returned tt |}
  end.
Proof.
  unfold clearAutoSync. cbn [perform].
  destruct (autoSyncIntervalId pl) as [id|]; [|reflexivity].
  cbn [perform]. now destruct (h _ (ClearInterval id) w).
Qed.

Lemma timers_cleared pl w :
  let r := perform h clearAutoSync pl w in
  timers (happened r) (known_timers pl) = []
  /\ autoSyncIntervalId (final_plugin r) = None
  /\ syncService (final_plugin r) = syncService pl
  /\ ended r = Returned tt.
Proof.
  cbv zeta. rewrite perform_clearAutoSync. unfold known_timers.
  destruct (autoSyncIntervalId pl) as [id|] eqn:E;
    cbn [happened final_plugin ended timers filter autoSyncIntervalId syncService].
  - rewrite Z.eqb_refl. now repeat split.
  - now repeat split.
Qed.

(** The end of a callback that ran an operation keeps the flag and
    the timers. *)
Lemma after_operation_effect op pl w :
  let r := perform h (and_then (service_call (Service.run_operation op))
                        (fun _ => record_sync_time)) pl w in
  isSyncing (syncService (final_plugin r)) = isSyncing (syncService pl)
  /\ timers (happened r) (known_timers pl) = known_timers (final_plugin r).
Proof.
  destruct (perform_after_operation op pl w) as (Hh & _ & Hf & Hid & _).
  cbv zeta in *. split; [exact Hf|].
  rewrite Hh, timers_app, timers_of_service. cbn [timers].
  unfold known_timers. now rewrite Hid.
Qed.

(** What a tick of the timer leaves: the timers as they were, and the
    flag set when a sync was started. *)
Lemma tick_effect pl w :
  let r := perform h tick pl w in
  isSyncing (syncService (final_plugin r))
  = isSyncing (syncService pl) || Service.isConfigured (syncService pl)
  /\ timers (happened r) (known_timers pl) = known_timers (final_plugin r).
Proof.
  unfold tick. cbn [perform].
  destruct (Service.isBusy (syncService pl)) eqn:Hbusy; cbn [negb perform].
  - unfold Service.isBusy in Hbusy. rewrite Hbusy. now split.
  - destruct (h _ (ConsoleDebug _) w) as [[] w'].
    cbn [final_plugin happened timers].
    destruct (perform_begun_service Service.sync pl w') as (Hid & Ht & _).
    cbv zeta in *. split.
    + rewrite (perform_begun_sync pl w' Hbusy). cbn [syncService isSyncing].
      unfold Service.isBusy in Hbusy. now rewrite Hbusy.
    + rewrite Ht. unfold known_timers. now rewrite Hid.
Qed.

(** What a callback does to the flag of the service and to the timers. *)
Lemma callback_effect cb pl w :
  let r := perform h (run_callback cb) pl w in
  isSyncing (syncService (final_plugin r))
  = match cb with
    | Tick => isSyncing (syncService pl)
              || Service.isConfigured (syncService pl)
    | _ => isSyncing (syncService pl)
    end
  /\ timers (happened r) (known_timers pl) = known_timers (final_plugin r).
Proof.
  destruct cb; cbn [run_callback].
  - unfold ribbon. cbn [perform].
    destruct (Service.isConfigured (syncService pl)); cbn [negb];
      [|rewrite perform_notice; now split].
    cbn [perform].
    destruct (Service.isBusy (syncService pl));
      [rewrite perform_notice; now split
      | apply (after_operation_effect Service.Sync)].
  - unfold command. cbn [perform].
    destruct (Service.isConfigured (syncService pl)); cbn [negb];
      [apply after_operation_effect | rewrite perform_notice; now split].
  - apply tick_effect.
  - rewrite perform_saveSettings. cbv zeta. cbn [final_plugin happened timers].
    destruct (fst (h _ (SaveData _) w)) as [e | []]; [now split|].
    cbn [syncService]. rewrite EngineClaims.updateSettings_isSyncing.
    now split.
  - unfold setupAutoSync. rewrite perform_and_then. cbv zeta.
    destruct (timers_cleared pl w) as (Ht & Hid & Hs & He).
    cbv zeta in *. rewrite He.
    destruct (perform h clearAutoSync pl w) as [pl1 w1 tr1 e1];
      cbn [final_plugin final_host happened ended] in *.
    cbn [perform].
    destruct (autoSync (plugin_settings pl1) && Service.isConfigured (syncService pl1)).
    + cbn [perform]. destruct (h _ (SetInterval _) w1) as [id w2].
      cbn [perform]. destruct (h _ (RegisterInterval id) w2) as [[] w3].
      cbn [final_plugin happened syncService]. rewrite Hs. split; [reflexivity|].
      rewrite timers_app, Ht. reflexivity.
    + cbn [perform final_plugin happened]. rewrite Hs, app_nil_r, Ht.
      unfold known_timers. now rewrite Hid.
  - unfold onunload. rewrite perform_and_then. cbv zeta.
    destruct (timers_cleared pl w) as (Ht & Hid & Hs & He).
    cbv zeta in *. rewrite He.
    destruct (perform h clearAutoSync pl w) as [pl1 w1 tr1 e1];
      cbn [final_plugin final_host happened ended] in *.
    cbn [perform]. destruct (h _ (ConsoleDebug _) w1) as [[] w2].
    cbn [final_plugin happened]. rewrite Hs. split; [reflexivity|].
    rewrite timers_app, Ht. cbn [timers]. unfold known_timers. now rewrite Hid.
Qed.

(** X26.  Of the callbacks of the plugin, only the tick of the timer
    leaves the busy flag of the service changed.  After the ribbon
    callback, a command, [saveSettings], [setupAutoSync] or [onunload]
    has run to its end, also with an exception from [saveData], the flag
    is what it was.  The tick returns as soon as the [sync] it has
    started waits for the host: it leaves the flag set when the service
    is configured, or was busy already, and cleared otherwise.  The
    asynchronous function the tick has started, run to its end, leaves
    the flag as it found it. *)
Theorem callbacks_and_the_flag cb pl w :
  isSyncing (syncService (final_plugin (perform h (run_callback cb) pl w)))
  = match cb with
    | Tick => isSyncing (syncService pl)
              || Service.isConfigured (syncService pl)
    | _ => isSyncing (syncService pl)
    end
  /\ isSyncing (syncService (final_plugin (perform h auto_sync pl w)))
     = isSyncing (syncService pl).
Proof.
  split; [apply (callback_effect cb pl w)|].
  apply (after_operation_effect Service.Sync pl w).
Qed.

(** X27.  The plugin knows its timers: when the timers alive before a
    callback are the one the plugin holds in [autoSyncIntervalId], or
    none, the timers alive after it are again the one it holds, or none;
    and after [onunload] none is alive. *)
Theorem plugin_knows_its_timers cb pl w :
  let r := perform h (run_callback cb) pl w in
  timers (happened r) (known_timers pl) = known_timers (final_plugin r)
  /\ timers (happened (perform h onunload pl w)) (known_timers pl) = [].
Proof.
  cbv zeta. split; [apply (callback_effect cb pl w)|].
  - destruct (callback_effect Unload pl w) as [_ Ht]. cbv zeta in Ht.
    cbn [run_callback] in Ht. rewrite Ht.
    unfold onunload. rewrite perform_and_then. cbv zeta.
    destruct (timers_cleared pl w) as (_ & Hid & _ & He). cbv zeta in *.
    rewrite He.
    destruct (perform h clearAutoSync pl w) as [pl1 w1 tr1 e1];
      cbn [final_plugin final_host happened ended] in *.
    cbn [perform]. destruct (h _ (ConsoleDebug _) w1) as [[] w2].
    cbn [final_plugin]. unfold known_timers. now rewrite Hid.
Qed.

End WithHost.

(** A tick on the idle plugin of the scenario: the log, the notice of
    [sync], the first request made and not yet answered; the flag is
    set. *)
Lemma tick_starts_a_sync :
  let h := PluginCases.plugin_host_around Mock.host in
  let r := perform h (run_callback Tick) PluginCases.alice_plugin
             Scenario.remote in
  (isSyncing (syncService (final_plugin r)) = true
   /\ isSyncing (syncService (final_plugin
                   (perform h auto_sync PluginCases.alice_plugin
                      Scenario.remote))) = false)
  /\ happened r
     = [ Happened (ConsoleDebug (js "GitSync: Running auto-sync...")) tt;
         Happened (HostCall (NewNotice (js "Starting sync."))) tt;
         Happened
           (Begin (HostCall
              (RequestUrl {| url := Api.baseUrl Scenario.alice_api;
                             method := Api.GET;
                             headers := Api.api_headers Scenario.alice_api;
                             throw := false; body := None |}))) tt ]
  /\ ended r = Returned tt.
Proof.
  split.
  - exact (callbacks_and_the_flag (PluginCases.plugin_host_around Mock.host)
             Tick PluginCases.alice_plugin Scenario.remote).
  - split; reflexivity.
Defined.

Lemma command_records_witness :
  let h := PluginCases.plugin_host_around Mock.host in
  let r := perform h (command Service.Push) PluginCases.busy_plugin
             Scenario.remote in
  let st := with_lastSyncTime Scenario.alice_settings 1793690280123 in
  happened r = [ Happened (HostCall DateNow) 1793690280123%Z;
                 Happened (SaveData st) (inr tt) ]
  /\ saved (happened r) = [st]
  /\ plugin_settings (final_plugin r) = st.
Proof.
  apply (command_records_the_time (PluginCases.plugin_host_around Mock.host)
           Service.Push PluginCases.busy_plugin Scenario.remote).
  reflexivity.
Defined.

End PluginFacts.
